(** * Photometric stereo (AliceVision): a shallow embedding and its properties

    The development follows [photometricStereo.cpp] and
    [photometricDataIO.cpp].  The numerical code is written once, over an
    abstract scalar interface, and read at two instances:
    - [F32]: IEEE-754 binary32 as specified by [SpecFloat] (the C++ [float]),
      on which the code can be evaluated;
    - [Rideal]: the real numbers, the idealisation in which unit norms and
      maxima are stated.  There [x / 0] is [0] (the convention of the
      standard library), so what the code does on a division by zero is
      read at [F32], never at [Rideal].

    Conventions of the embedding:
    - an [Eigen::MatrixXf] is the list of its columns (column-major, as Eigen
      stores it); reading a coefficient outside the matrix is undefined in
      C++ and reads [0] here, writing outside leaves the matrix unchanged;
      a matrix declared without initial value starts at zero (the code
      writes every coefficient before reading it);
    - sums (norms, products) are accumulated from left to right, maxima in
      storage order; Eigen leaves these orders to its implementation;
    - an [image::Image<P>] is the list of its rows;
    - [int] values are integers wrapped to 32 bits, [size_t] to 64 bits;
    - the functions of Eigen and of the image library that are called but
      not defined in these files are variables of the sections ([solve],
      [readImage], [downscaleMask], [downscaleRGB]); the few functions of
      Boost and of the C++ library used on strings have executable models
      ([Boost], [std_sort]);
    - [std::vector::at] and the image reader may throw, and [maxCoeff]
      asserts that its matrix is not empty: the solve returns a
      [result]. *)

From Stdlib Require Import ZArith Reals Lra Lia String Ascii List Permutation Sorted.
From Stdlib Require Import Floats.SpecFloat.
From Stdlib Require OrderedTypeEx.
From stdpp Require Import base list sorting.
Import ListNotations.

Local Open Scope Z_scope.

(** ** Machine integers *)

Definition wrap_int (z : Z) : Z := (z + 2 ^ 31) mod 2 ^ 32 - 2 ^ 31.
Definition wrap_size_t (z : Z) : Z := z mod 2 ^ 64.
Definition INT_MAX : Z := 2 ^ 31 - 1.

(** ** Scalars *)

Class Scalar (T : Type) : Type := {
  sofZ : Z -> T;
  sadd : T -> T -> T;
  ssub : T -> T -> T;
  smul : T -> T -> T;
  sdiv : T -> T -> T;
  sopp : T -> T;
  sabs : T -> T;                (* std::abs *)
  ssqrt : T -> T;               (* std::sqrt *)
  sfloor : T -> T;              (* floor *)
  sltb : T -> T -> bool;        (* operator< *)
  seqb : T -> T -> bool;        (* operator== *)
  (* [x > m * 2^e] for a [double] literal [m * 2^e]: the scalar is promoted
     to [double], which is exact, and compared there *)
  sgtDouble : T -> positive -> Z -> bool;
  (* conversion to [unsigned char]: truncation toward zero, defined only
     when the truncated value fits in [0, 255] *)
  stoUChar : T -> option Z
}.

Declare Scope scalar_scope.
Delimit Scope scalar_scope with sc.
Notation "x + y" := (sadd x y) : scalar_scope.
Notation "x - y" := (ssub x y) : scalar_scope.
Notation "x * y" := (smul x y) : scalar_scope.
Notation "x / y" := (sdiv x y) : scalar_scope.
Notation "- x" := (sopp x) : scalar_scope.
Notation "x <? y" := (sltb x y) : scalar_scope.
Notation "x >? y" := (sltb y x) : scalar_scope.
Notation "x =? y" := (seqb x y) : scalar_scope.

(** A decimal literal [n/d], rounded once to the scalar type. *)
Definition slit {T} `{Scalar T} (n d : Z) : T := (sofZ n / sofZ d)%sc.
Definition szero {T} `{Scalar T} : T := sofZ 0.

(** [std::max(a, b)] is [(a < b) ? b : a]. *)
Definition std_max {T} `{Scalar T} (a b : T) : T := if (a <? b)%sc then b else a.

(** *** binary32 *)

Module F32.
Definition prec : Z := 24.
Definition emax : Z := 128.
Definition t : Type := spec_float.

Definition ofZ (z : Z) : t := binary_normalize prec emax z 0 false.

Definition floor (x : t) : t :=
  match x with
  | S754_finite s m e =>
      if 0 <=? e then x
      else binary_normalize prec emax (Z.shiftr (cond_Zopp s (Zpos m)) (- e)) 0 s
  | _ => x
  end.

Definition trunc (x : t) : option Z :=
  match x with
  | S754_zero _ => Some 0
  | S754_finite s m e =>
      Some (cond_Zopp s (if 0 <=? e then Z.shiftl (Zpos m) e
                         else Z.shiftr (Zpos m) (- e)))
  | _ => None
  end.

Definition toUChar (x : t) : option Z :=
  match trunc x with
  | Some z => if (0 <=? z) && (z <=? 255) then Some z else None
  | None => None
  end.

(** [x > m * 2^e], decided on the exact values. *)
Definition gtDyadic (x : t) (m : positive) (e : Z) : bool :=
  match x with
  | S754_infinity false => true
  | S754_finite false mx ex =>
      let d := ex - e in
      if 0 <=? d then Zpos m <? Z.shiftl (Zpos mx) d
      else Z.shiftl (Zpos m) (- d) <? Zpos mx
  | _ => false
  end.

#[global] Instance scalar : Scalar t := {|
  sofZ := ofZ;
  sadd := SFadd prec emax;
  ssub := SFsub prec emax;
  smul := SFmul prec emax;
  sdiv := SFdiv prec emax;
  sopp := SFopp;
  sabs := SFabs;
  ssqrt := SFsqrt prec emax;
  sfloor := floor;
  sltb := SFltb;
  seqb := SFeqb;
  sgtDouble := gtDyadic;
  stoUChar := toUChar
|}.

Definition pzero : t := S754_zero false.
Definition nan : t := S754_nan.
End F32.

(** *** Real numbers *)

Module Rideal.
Definition ltb (a b : R) : bool := if Rlt_dec a b then true else false.
Definition eqb (a b : R) : bool := if Req_dec_T a b then true else false.
Definition floor (x : R) : R := IZR (Int_part x).
Definition trunc (x : R) : Z :=
  if Rle_dec 0 x then Int_part x else - Int_part (- x).
Definition toUChar (x : R) : option Z :=
  let z := trunc x in
  if (0 <=? z) && (z <=? 255) then Some z else None.

#[global] Instance scalar : Scalar R := {|
  sofZ := IZR;
  sadd := Rplus;
  ssub := Rminus;
  smul := Rmult;
  sdiv := Rdiv;
  sopp := Ropp;
  sabs := Rabs;
  ssqrt := sqrt;
  sfloor := floor;
  sltb := ltb;
  seqb := eqb;
  sgtDouble := fun x m e => ltb (IZR (Zpos m) * powerRZ 2 e) x;
  stoUChar := toUChar
|}.

(** The sign function of the specification. *)
Definition sgn (x : R) : R :=
  if Rlt_dec 0 x then 1%R else if Rlt_dec x 0 then (-1)%R else 0%R.
End Rideal.

(** ** [std::sort] *)

(** [std::sort] over a comparison [lt] that is a strict weak ordering.  Its
    result is a sorted permutation of the input (unique up to the order of
    equivalent elements); it is computed here by insertion. *)
Section StdSort.
Context {A : Type} (lt : A -> A -> bool).

Fixpoint sort_insert (x : A) (l : list A) : list A :=
  match l with
  | [] => [x]
  | y :: l' => if lt x y then x :: l else y :: sort_insert x l'
  end.

Definition std_sort (l : list A) : list A := foldr sort_insert [] l.
End StdSort.

(** ** Eigen matrices *)

Abbreviation Vector T := (list T).
Abbreviation Matrix T := (list (list T)).   (* the columns *)

Section Matrix.
Context {T : Type} `{Scalar T}.

Definition mcols (M : Matrix T) : nat := length M.
Definition mcol (M : Matrix T) (j : nat) : Vector T := default [] (M !! j).
Definition coef (M : Matrix T) (i j : nat) : T := default szero (mcol M j !! i).
Definition mrow (M : Matrix T) (i : nat) : Vector T := map (fun c => default szero (c !! i)) M.

(** Coefficient [v(k)] for a [size_t] index; [None] outside the storage. *)
Definition vcoef (v : Vector T) (k : Z) : option T :=
  if (0 <=? k) && (k <? Z.of_nat (length v)) then v !! Z.to_nat k else None.

Definition mZero (rows cols : nat) : Matrix T := replicate cols (replicate rows szero).

Definition vsum (v : Vector T) : T := foldl sadd szero v.
Definition vdivs (v : Vector T) (s : T) : Vector T := map (fun x => (x / s)%sc) v.
Definition vsquaredNorm (v : Vector T) : T := vsum (map (fun x => (x * x)%sc) v).
Definition vnorm (v : Vector T) : T := ssqrt (vsquaredNorm v).

Definition mmap (f : T -> T) (M : Matrix T) : Matrix T := map (map f) M.
Definition mzip (f : T -> T -> T) (A B : Matrix T) : Matrix T := zip_with (zip_with f) A B.
Definition madd := mzip sadd.
Definition msub := mzip ssub.
Definition mdivs (M : Matrix T) (s : T) : Matrix T := mmap (fun x => (x / s)%sc) M.
Definition mscale (s : T) (M : Matrix T) : Matrix T := mmap (fun x => (s * x)%sc) M.

(** Frobenius norm, [MatrixXf::norm()]. *)
Definition mnorm (M : Matrix T) : T := vnorm (concat M).

(** [maxCoeff()]: the largest coefficient, visiting the storage in order.
    Eigen asserts that the matrix is not empty; [None] stands for that. *)
Definition maxCoeff (M : Matrix T) : option T :=
  match concat M with
  | [] => None
  | x :: l => Some (foldl std_max x l)
  end.

(** [M.col(idx) = v] and [M(i, idx) = x] for an [int] index. *)
Definition setCol (M : Matrix T) (idx : Z) (v : Vector T) : Matrix T :=
  if 0 <=? idx then <[Z.to_nat idx := v]> M else M.
Definition setCoef (M : Matrix T) (i : nat) (idx : Z) (x : T) : Matrix T :=
  if 0 <=? idx then alter (fun c => <[i := x]> c) (Z.to_nat idx) M else M.
Definition colZ (M : Matrix T) (idx : Z) : Vector T :=
  if 0 <=? idx then default [] (M !! Z.to_nat idx) else [].

(** [M.block(r0, 0, B.rows(), B.cols()) = B]: rows [r0 ..] of the leading
    columns are overwritten by [B]. *)
Definition setBlockRows (M : Matrix T) (r0 : nat) (B : Matrix T) : Matrix T :=
  imap (fun j c => match B !! j with
                   | Some b => list_inserts r0 b c
                   | None => c
                   end) M.

(** Matrix-vector and matrix-matrix products (rows of [L] against [v]). *)
Definition mrows (L : Matrix T) : nat := length (mcol L 0).
Definition mat_vec (L : Matrix T) (v : Vector T) : Vector T :=
  map (fun i => vsum (zip_with smul (mrow L i) v)) (seq 0 (mrows L)).
Definition mat_mul (L M : Matrix T) : Matrix T := map (mat_vec L) M.
End Matrix.


(** ** [shrink] and [median] (photometricStereo.cpp) *)

Section Operators.
Context {T : Type} `{Scalar T}.

(** One coefficient of [shrink]. *)
Definition shrink_coeff (x rho : T) : T :=
  if (x >? szero)%sc
  then std_max (sabs x - rho)%sc szero
  else (- std_max (sabs x - rho)%sc szero)%sc.

(** The loops run over the shape of [E]; each coefficient of [E] is
    replaced by the shrunk coefficient of [mat] at the same place. *)
Definition shrink (mat : Matrix T) (rho : T) (E : Matrix T) : Matrix T :=
  imap (fun j colE => imap (fun i _ => shrink_coeff (coef mat i j) rho) colE) E.

(** [median] writes its result through a reference; the model returns it.
    [d] is the storage of the argument. *)
Definition median (d : Vector T) : option T :=
  let aux := std_sort sltb d in
  let size := Z.of_nat (length aux) in
  let middle := size / 2 in
  if size mod 2 =? 0 then
    a ← vcoef aux (wrap_size_t (size - 1) / 2);
    b ← vcoef aux (wrap_size_t (size + 1) / 2);
    Some (a + b)%sc
  else vcoef aux middle.
End Operators.

(** ** Exceptions *)

Inductive exn : Type :=
| out_of_range          (* thrown by [std::vector::at] *)
| io_error              (* thrown by the image reader *)
| empty_matrix.         (* the assertion of [maxCoeff] on an empty matrix;
                           without assertions the call is undefined *)

Inductive result (A : Type) : Type :=
| Ok (a : A)
| Throw (e : exn).
Arguments Ok {A} a.
Arguments Throw {A} e.

Definition rbind {A B} (m : result A) (k : A -> result B) : result B :=
  match m with
  | Ok a => k a
  | Throw e => Throw e
  end.

Declare Scope result_scope.
Delimit Scope result_scope with res.
Notation "'do' x <- m ; k" := (rbind m (fun x => k))
  (at level 10, x pattern, m at level 100, k at level 200) : result_scope.

(** [v.at(i)] *)
Definition vector_at {A} (v : list A) (i : nat) : result A :=
  match v !! i with
  | Some a => Ok a
  | None => Throw out_of_range
  end.

(** [M = M / M.maxCoeff()].  The maximum of an empty matrix is not
    defined: the division is not reached. *)
Definition normalizeMax {T} `{Scalar T} (M : Matrix T) : result (Matrix T) :=
  match maxCoeff M with
  | Some m => Ok (mdivs M m)
  | None => Throw empty_matrix
  end.

(** Left-to-right loop whose body may throw. *)
Fixpoint forM {A S} (body : S -> A -> result S) (l : list A) (s : S) : result S :=
  match l with
  | [] => Ok s
  | a :: l' => rbind (body s a) (forM body l')
  end.

(** ** Strings and paths (Boost)

    Executable models of the Boost functions used on file names:
    [boost::algorithm::icontains], [fs::path::stem], [fs::extension]
    (Boost.Filesystem version 3 conventions) and of [::tolower] in the C
    locale. *)

Module Boost.
Local Open Scope string_scope.

Definition tolower (c : ascii) : ascii :=
  let n := N_of_ascii c in
  if ((65 <=? n) && (n <=? 90))%N then ascii_of_N (n + 32) else c.

Fixpoint to_lower (s : string) : string :=
  match s with
  | EmptyString => EmptyString
  | String c s' => String (tolower c) (to_lower s')
  end.

Fixpoint contains (s t : string) : bool :=
  String.prefix t s ||
  match s with
  | EmptyString => false
  | String _ s' => contains s' t
  end.

Definition icontains (input test : string) : bool :=
  contains (to_lower input) (to_lower test).

(** Split at the last occurrence of [c]: the text before it, and the text
    from it on. *)
Fixpoint rsplit (c : ascii) (s : string) : option (string * string) :=
  match s with
  | EmptyString => None
  | String a s' =>
      match rsplit c s' with
      | Some (pre, suf) => Some (String a pre, suf)
      | None => if Ascii.eqb a c then Some (EmptyString, s) else None
      end
  end.

Definition filename (p : string) : string :=
  match rsplit "/" p with
  | Some (_, String _ EmptyString) => "."
  | Some (_, String _ rest) => rest
  | _ => p
  end.

Definition is_dot_or_dotdot (f : string) : bool :=
  String.eqb f "." || String.eqb f "..".

Definition extension (p : string) : string :=
  let f := filename p in
  if is_dot_or_dotdot f then ""
  else match rsplit "." f with
       | Some (_, ext) => ext
       | None => ""
       end.

Definition stem (p : string) : string :=
  let f := filename p in
  if is_dot_or_dotdot f then f
  else match rsplit "." f with
       | Some (pre, _) => pre
       | None => f
       end.
End Boost.

(** ** Images *)

Record Rgb (A : Type) : Type := mkRgb { red : A; green : A; blue : A }.
Arguments mkRgb {A}.
Arguments red {A}.
Arguments green {A}.
Arguments blue {A}.

(** [p(ch)] *)
Definition chan {A} (p : Rgb A) (ch : nat) : A :=
  match ch with
  | O => red p
  | S O => green p
  | _ => blue p
  end.

Definition rgb_zip {A B C} (f : A -> B -> C) (p : Rgb A) (q : Rgb B) : Rgb C :=
  mkRgb (f (red p) (red q)) (f (green p) (green q)) (f (blue p) (blue q)).
Definition rgb_list {A} (p : Rgb A) : list A := [red p; green p; blue p].

Abbreviation Image P := (list (list P)).   (* the rows *)

Definition Height {P} (img : Image P) : nat := length img.
Definition Width {P} (img : Image P) : nat := length (default [] (img !! 0%nat)).

(** [rows()] and [cols()] converted to [int]. *)
Definition irows {P} (img : Image P) : Z := wrap_int (Z.of_nat (Height img)).
Definition icols {P} (img : Image P) : Z := wrap_int (Z.of_nat (Width img)).

(** [img(i, j)] for [int] coordinates; [d] is read outside the image, where
    the C++ access is undefined. *)
Definition pixel {P} (d : P) (img : Image P) (i j : Z) : P :=
  if (0 <=? i) && (0 <=? j)
  then default d (row ← img !! Z.to_nat i; row !! Z.to_nat j)
  else d.

(** An image of [h] rows and [w] columns. *)
Definition image_wf {P} (h w : nat) (img : Image P) : Prop :=
  length img = h /\ Forall (fun row => length row = w) img.

(** ** photometricDataIO.cpp *)

Section DataIO.
Context {T : Type} `{Scalar T}.

(** The test [mask(i,j) > 0.7].  The literal is a [double]: the double
    nearest to 0.7 is 3152519739159347 * 2^-52. *)
Definition aboveThreshold (x : T) : bool := sgtDouble x 3152519739159347 (-52).

Definition getIndMask (mask : Image T) (indexes : list Z) : list Z :=
  let nbRows := irows mask in
  let nbCols := icols mask in
  foldl (fun indexes j =>
    foldl (fun indexes i =>
      if aboveThreshold (pixel szero mask i j)
      then let currentIndex := wrap_int (j * nbRows + i) in
           indexes ++ [currentIndex]
      else indexes)
      indexes (seqZ 0 nbRows))
    indexes (seqZ 0 nbCols).

Definition intensityScaling (intensities : Rgb T) (imageToScale : Image (Rgb T))
  : Image (Rgb T) :=
  map (map (fun p => rgb_zip sdiv p intensities)) imageToScale.

Definition rgb_zero : Rgb T := mkRgb szero szero szero.

(** [hasMask]: the mask is not the 1x1 placeholder. *)
Definition isRealMask (mask : Image T) : bool :=
  negb ((Z.of_nat (Height mask) =? 1) && (Z.of_nat (Width mask) =? 1)).

(** [imageOut(ch, index) = v(ch)] for the three channels. *)
Definition setPixelColumn (imageOut : Matrix T) (index : Z) (v : Rgb T) : Matrix T :=
  setCoef (setCoef (setCoef imageOut 0 index (chan v 0)) 1 index (chan v 1))
          2 index (chan v 2).

Definition image2PsMatrix (imageIn : Image (Rgb T)) (mask : Image T)
    (imageOut : Matrix T) : Matrix T :=
  let nbRows := irows imageIn in
  let nbCols := icols imageIn in
  let hasMask := isRealMask mask in
  fst (foldl (fun st j =>
         foldl (fun '(imageOut, index) i =>
           if negb hasMask || aboveThreshold (pixel szero mask i j)
           then (setPixelColumn imageOut index (pixel rgb_zero imageIn i j),
                 wrap_int (index + 1))
           else (imageOut, index))
           st (seqZ 0 nbRows))
         (imageOut, 0) (seqZ 0 nbCols)).

(** Every pixel of [imageOut] is overwritten with the column of
    [matrixIn] at its linear index. *)
Definition reshapeInImage (matrixIn : Matrix T) (imageOut : Image (Rgb T))
  : Image (Rgb T) :=
  let nbRows := irows imageOut in
  let nbCols := icols imageOut in
  imap (fun i row =>
    imap (fun j old =>
      if (Z.of_nat i <? nbRows) && (Z.of_nat j <? nbCols)
      then let c := colZ matrixIn (wrap_int (Z.of_nat j * nbRows + Z.of_nat i)) in
           mkRgb (default szero (c !! 0%nat)) (default szero (c !! 1%nat))
                 (default szero (c !! 2%nat))
      else old) row) imageOut.

(** One pixel of [convertNormalMap2png]: the three values assigned to the
    [unsigned char] channels, after conversion. *)
Definition encodeNormal (n : Rgb T) : Rgb (option Z) :=
  let x := chan n 0 in
  let y := chan n 1 in
  let z := chan n 2 in
  if (((x * x) + (y * y)) + (z * z) =? szero)%sc
  then mkRgb (Some 0) (Some 0) (Some 0)
  else mkRgb (stoUChar (sfloor ((sofZ 255 * (x + sofZ 1)) / sofZ 2)))%sc
             (stoUChar (- sfloor ((sofZ 255 * (y + sofZ 1)) / sofZ 2)))%sc
             (stoUChar (- sfloor (sofZ 255 * z)))%sc.

(** The loops run over the shape of [normalsIm] and write the pixel of
    [normalsImPNG] at the same place. *)
Definition convertNormalMap2png (normalsIm : Image (Rgb T))
    (normalsImPNG : Image (Rgb (option Z))) : Image (Rgb (option Z)) :=
  let nbRows := irows normalsIm in
  let nbCols := icols normalsIm in
  imap (fun i row =>
    imap (fun j old =>
      if (Z.of_nat i <? nbRows) && (Z.of_nat j <? nbCols)
      then encodeNormal (pixel rgb_zero normalsIm (Z.of_nat i) (Z.of_nat j))
      else old) row) normalsImPNG.

(** [image::Image<P>(width, height)] *)
Definition newImage {P} (d : P) (width height : Z) : Image P :=
  replicate (Z.to_nat height) (replicate (Z.to_nat width) d).

(** The conversion part of [writePSResults]. *)
Definition writePSResults_normals (normals : Image (Rgb T)) : Image (Rgb (option Z)) :=
  let pictCols := icols normals in
  let pictRows := irows normals in
  convertNormalMap2png normals (newImage (mkRgb (Some 0) (Some 0) (Some 0)) pictCols pictRows).
End DataIO.

(** ** photometricStereo.cpp: the solver *)

Section Solver.
Context {T : Type} `{Scalar T}.

(** [L.bdcSvd(ComputeThinU | ComputeThinV).solve(B)] (Eigen). *)
Variable solve : Matrix T -> Matrix T -> Matrix T.
(** [image::readImage] without colour conversion, and
    [downscaleImageInplace] on masks and on colour images. *)
Variable readImage : string -> result (Image (Rgb T)).
Variable downscaleMask : Image T -> Z -> Image T.
Variable downscaleRGB : Image (Rgb T) -> Z -> Image (Rgb T).

Local Open Scope result_scope.

(** *** Pixel selection (lines 135-174) *)

Record Selection : Type := mkSelection {
  sel_mask : Image T;          (* the mask, downscaled in place *)
  hasMask : bool;
  indexes : list Z;
  maskSize : nat;
  pictRows : Z;
  pictCols : Z
}.

Definition scaledRGB (img : Image (Rgb T)) (downscale : Z) : Image (Rgb T) :=
  if 1 <? downscale then downscaleRGB img downscale else img.

Definition selectPixels (imageList : list string) (mask : Image T) (downscale : Z)
  : result Selection :=
  if isRealMask mask then
    let mask := if 1 <? downscale then downscaleMask mask downscale else mask in
    let indexes := getIndMask mask [] in
    Ok (mkSelection mask true indexes (length indexes) (irows mask) (icols mask))
  else
    do picturePath <- vector_at imageList 0;
    do imageFloat <- readImage picturePath;
    let imageFloat := scaledRGB imageFloat downscale in
    let pictRows := irows imageFloat in
    let pictCols := icols imageFloat in
    Ok (mkSelection mask false []
          (Z.to_nat (wrap_size_t (wrap_int (pictRows * pictCols))))
          pictRows pictCols).

(** [currentIdx], the index in the picture of the [i]-th solved column. *)
Definition currentIdx (sel : Selection) (i : nat) : result Z :=
  if hasMask sel then vector_at (indexes sel) i
  else Ok (wrap_int (Z.of_nat i)).

(** *** Observation matrices (lines 176-223) *)

Definition ambiantRequested (pathToAmbiant : string) : bool :=
  Boost.icontains (Boost.stem pathToAmbiant) "ambiant".

Definition image_sub (a b : Image (Rgb T)) : Image (Rgb T) :=
  zip_with (zip_with (rgb_zip ssub)) a b.

Definition loadAmbiant (pathToAmbiant : string) (downscale : Z)
  : result (Image (Rgb T)) :=
  if ambiantRequested pathToAmbiant then
    do imageAmbiant <- readImage pathToAmbiant;
    Ok (scaledRGB imageAmbiant downscale)
  else Ok [].

(** Row 0 times 0.2126, plus row 1 times 0.7152, plus row 2 times 0.0722. *)
Definition luminanceRow (currentPicture : Matrix T) : Matrix T :=
  map (fun c =>
    [(((default szero (c !! 0%nat) * slit 2126 10000)
       + (default szero (c !! 1%nat) * slit 7152 10000))
       + (default szero (c !! 2%nat) * slit 722 10000))%sc]) currentPicture.

(** One turn of the reading loop: picture [i] fills rows [3i..3i+2] of
    [imMat] and row [i] of [imMat_gray]. *)
Definition readPicture (imageList : list string) (intList : list (Rgb T))
    (sel : Selection) (pathToAmbiant : string) (downscale : Z)
    (imageAmbiant : Image (Rgb T)) (mats : Matrix T * Matrix T) (i : nat)
  : result (Matrix T * Matrix T) :=
  let '(imMat, imMat_gray) := mats in
  do picturePath <- vector_at imageList i;
  do imageFloat <- readImage picturePath;
  let imageFloat := scaledRGB imageFloat downscale in
  let imageFloat :=
    if ambiantRequested pathToAmbiant then image_sub imageFloat imageAmbiant
    else imageFloat in
  do intensities <- vector_at intList i;
  let imageFloat := intensityScaling intensities imageFloat in
  let currentPicture := image2PsMatrix imageFloat (sel_mask sel) (mZero 3 (maskSize sel)) in
  Ok (setBlockRows imMat (3 * i) currentPicture,
      setBlockRows imMat_gray i (luminanceRow currentPicture)).

(** [imMat] and [imMat_gray] before the division by their maxima. *)
Definition rawObservations (imageList : list string) (intList : list (Rgb T))
    (sel : Selection) (pathToAmbiant : string) (downscale : Z)
  : result (Matrix T * Matrix T) :=
  let n := length imageList in
  do imageAmbiant <- loadAmbiant pathToAmbiant downscale;
  forM (readPicture imageList intList sel pathToAmbiant downscale imageAmbiant)
       (seq 0 n)
       (mZero (3 * n) (maskSize sel), mZero n (maskSize sel)).

Definition observationMatrices (imageList : list string) (intList : list (Rgb T))
    (sel : Selection) (pathToAmbiant : string) (downscale : Z)
  : result (Matrix T * Matrix T) :=
  do raw <- rawObservations imageList intList sel pathToAmbiant downscale;
  let '(imMat, imMat_gray) := raw in
  do imMat <- normalizeMax imMat;
  do imMat_gray <- normalizeMax imMat_gray;
  Ok (imMat, imMat_gray).

(** *** Normals (lines 225-244 and 287-298) *)

Definition pixelCount (sel : Selection) : nat :=
  Z.to_nat (wrap_int (pictRows sel * pictCols sel)).

Definition scatterNormals (sel : Selection) (M_channel normalsVect : Matrix T)
  : result (Matrix T) :=
  forM (fun normalsVect i =>
          do idx <- currentIdx sel i;
          Ok (setCol normalsVect idx
                (vdivs (mcol M_channel i) (vnorm (mcol M_channel i)))))
       (seq 0 (maskSize sel)) normalsVect.

(** *** Robust refinement (lines 246-285) *)

Definition mu : T := slit 1 10.
Definition max_iterations : nat := 1000.
Definition epsilon : T := slit 1 1000.

Record RobustState : Type := mkRobust {
  rs_M : Matrix T;
  rs_E : Matrix T;
  rs_W : Matrix T
}.

(** The body of the loop up to the convergence test; it also returns
    [ecart_relatif]. *)
Definition robustStep (lightMat imMat_gray : Matrix T) (st : RobustState)
  : RobustState * T :=
  let M_kminus1 := rs_M st in
  let newImMat := msub (madd imMat_gray (rs_E st)) (mdivs (rs_W st) mu) in
  let M_channel := solve lightMat newImMat in
  let E := shrink (madd (msub (mat_mul lightMat M_channel) imMat_gray)
                        (mdivs (rs_W st) mu))
                  (sofZ 1 / mu)%sc (rs_E st) in
  let W := madd (rs_W st)
                (mscale mu (msub (msub (mat_mul lightMat M_channel) imMat_gray) E)) in
  let ecart := msub M_kminus1 M_channel in
  let ecart_relatif := (mnorm ecart / mnorm M_channel)%sc in
  (mkRobust M_channel E W, ecart_relatif).

Definition converged (k : nat) (ecart_relatif : T) : bool :=
  (10 <? k)%nat && (ecart_relatif <? epsilon)%sc.

(** [for (k = k0; k < k0 + fuel; ++k)]: returns the state at the exit and
    the index at which "Convergence" was printed, if it was. *)
Fixpoint robustLoop (lightMat imMat_gray : Matrix T) (fuel k : nat)
    (st : RobustState) : RobustState * option nat :=
  match fuel with
  | O => (st, None)
  | S fuel' =>
      let '(st', ecart_relatif) := robustStep lightMat imMat_gray st in
      if converged k ecart_relatif then (st', Some k)
      else robustLoop lightMat imMat_gray fuel' (S k) st'
  end.

Definition robustInit (lightMat imMat_gray M_channel : Matrix T) : RobustState :=
  let E := msub (mat_mul lightMat M_channel) imMat_gray in
  let W := mmap (fun _ => szero) E in
  mkRobust M_channel E W.

Definition robustRefine (lightMat imMat_gray M_channel : Matrix T)
  : RobustState * option nat :=
  robustLoop lightMat imMat_gray max_iterations 0
             (robustInit lightMat imMat_gray M_channel).

(** *** Albedo (lines 301-355) *)

(** [pixelValues_channel]: row [i] is row [ch + 3i] of [imMat]. *)
Definition pixelValues_channel (imMat : Matrix T) (n ch : nat) : Matrix T :=
  map (fun c => map (fun i => default szero (c !! (ch + 3 * i)%nat)) (seq 0 n)) imMat.

Definition robustAlbedoChannel (sel : Selection) (lightMat imMat normalsVect : Matrix T)
    (n : nat) (albedoVect : Matrix T) (ch : nat) : result (Matrix T) :=
  let values := pixelValues_channel imMat n ch in
  forM (fun albedoVect i =>
          do idx <- currentIdx sel i;
          let currentI := mcol values i in
          let currentShading := mat_vec lightMat (colZ normalsVect idx) in
          let result := zip_with smul currentI (map (fun x => (sofZ 1 / x)%sc) currentShading) in
          Ok (match median result with
              | Some m => setCoef albedoVect ch idx m
              | None => albedoVect
              end))
       (seq 0 (maskSize sel)) albedoVect.

Definition plainAlbedoChannel (sel : Selection) (lightMat imMat : Matrix T)
    (n : nat) (albedoVect : Matrix T) (ch : nat) : result (Matrix T) :=
  let values := pixelValues_channel imMat n ch in
  let M_channel := solve lightMat values in
  forM (fun albedoVect i =>
          do idx <- currentIdx sel i;
          Ok (setCoef albedoVect ch idx (vnorm (mcol M_channel i))))
       (seq 0 (maskSize sel)) albedoVect.

(** *** The solve (lines 133-366) *)

Record Solved : Type := mkSolved {
  out_normals : Image (Rgb T);
  out_albedo : Image (Rgb T);
  out_mask : Image T;
  (* intermediate values, kept for the statements below *)
  tr_sel : Selection;
  tr_imMat : Matrix T;
  tr_imMat_gray : Matrix T;
  tr_M : Matrix T;             (* the solved columns the normals come from *)
  tr_normalsVect : Matrix T;
  tr_albedoRaw : Matrix T;     (* [albedoVect] before the division *)
  tr_albedoVect : Matrix T;
  tr_convergence : option nat
}.

Definition photometricStereo (imageList : list string) (intList : list (Rgb T))
    (lightMat : Matrix T) (mask : Image T) (pathToAmbiant : string)
    (isRobust : bool) (downscale : Z) : result Solved :=
  do sel <- selectPixels imageList mask downscale;
  do obs <- observationMatrices imageList intList sel pathToAmbiant downscale;
  let '(imMat, imMat_gray) := obs in
  let normalsVect := mZero (mcols lightMat) (pixelCount sel) in
  let albedoVect := mZero 3 (pixelCount sel) in
  let M_channel := solve lightMat imMat_gray in
  do normalsVect <- scatterNormals sel M_channel normalsVect;
  do est <-
     (if isRobust then
        let '(st, conv) := robustRefine lightMat imMat_gray M_channel in
        do normalsVect <- scatterNormals sel (rs_M st) normalsVect;
        do albedoVect <-
           forM (robustAlbedoChannel sel lightMat imMat normalsVect (length imageList))
                (seq 0 3) albedoVect;
        Ok (rs_M st, normalsVect, albedoVect, conv)
      else
        do albedoVect <-
           forM (plainAlbedoChannel sel lightMat imMat (length imageList))
                (seq 0 3) albedoVect;
        Ok (M_channel, normalsVect, albedoVect, None));
  let '(M_final, normalsVect, albedoVect, conv) := est in
  do albedoNorm <- normalizeMax albedoVect;
  let normalsIm := reshapeInImage normalsVect
                     (newImage rgb_zero (pictCols sel) (pictRows sel)) in
  let albedoIm := reshapeInImage albedoNorm
                     (newImage rgb_zero (pictCols sel) (pictRows sel)) in
  Ok (mkSolved normalsIm albedoIm (sel_mask sel) sel imMat imMat_gray
               M_final normalsVect albedoVect albedoNorm conv).
End Solver.

(** ** photometricStereo.cpp: [getPicturesNames] *)

Definition compareFunction (a b : string) : bool := String.ltb a b.

(** [entries] are the paths the directory iterator yields, in the order it
    yields them; [extensions] is [image::getSupportedExtensions()]. *)
Definition getPicturesNames (extensions : list string) (entries : list string)
    (imageList : list string) : list string :=
  let imageList :=
    foldl (fun imageList currentFilePath =>
      let fileExtension := Boost.to_lower (Boost.extension currentFilePath) in
      if negb (Boost.icontains (Boost.stem currentFilePath) "mask")
         && negb (Boost.icontains (Boost.stem currentFilePath) "ambiant")
      then foldl (fun imageList extension =>
                    if String.eqb fileExtension extension
                    then imageList ++ [currentFilePath]
                    else imageList)
                 imageList extensions
      else imageList)
      imageList entries in
  std_sort compareFunction imageList.

(** ** photometricStereo.cpp: the views of one pose (lines 95-107)

    Pictures whose stem contains "ambiant" are left out of the image list;
    the last of them becomes [pathToAmbiant] when [removeAmbiant] is set. *)
Definition collectViews (removeAmbiant : bool) (views : list string)
    (pathToAmbiant : string) : list string * string :=
  foldl (fun st imagePath =>
           if negb (Boost.icontains (Boost.stem imagePath) "ambiant")
           then (fst st ++ [imagePath], snd st)
           else if removeAmbiant then (fst st, imagePath) else st)
        ([], pathToAmbiant) views.

(** ** photometricStereo.cpp: the ambient picture of a folder (lines 53-65) *)

Definition findAmbiant (removeAmbiant : bool) (imageList : list string) : string :=
  if removeAmbiant
  then foldl (fun pathToAmbiant currentPath =>
                if Boost.icontains (Boost.stem currentPath) "ambiant"
                then currentPath else pathToAmbiant)
             EmptyString imageList
  else EmptyString.

(** ** Notions used in the statements *)

(** Whether the pixel of linear index [k] (column-major, [rows] rows) is
    selected by the mask. *)
Definition selected {T} `{Scalar T} (mask : Image T) (rows k : nat) : bool :=
  aboveThreshold (pixel szero mask (Z.of_nat (k mod rows)) (Z.of_nat (k / rows))).

(** The picture indexes visited by the solver's loops
    [for (i = 0; i < maskSize; ++i) { currentIdx = ...; }], in order. *)
Definition activePixels {T} (sel : Selection (T := T)) : result (list Z) :=
  forM (fun acc i => rbind (currentIdx sel i) (fun idx => Ok (acc ++ [idx])))
       (seq 0 (maskSize sel)) [].

(** The selections built by [selectPixels] hold one index per solved
    column when there is a mask. *)
Definition selection_ok {T} (sel : Selection (T := T)) : Prop :=
  hasMask sel = true -> maskSize sel = length (indexes sel).

(** The picture grid has [R] rows and [C] columns: the shape of the mask
    (downscaled) when there is one, of the first picture otherwise. *)
Definition pictureShape {T} `{Scalar T} (readImage : string -> result (Image (Rgb T)))
    (downscaleMask : Image T -> Z -> Image T)
    (downscaleRGB : Image (Rgb T) -> Z -> Image (Rgb T))
    (imageList : list string) (mask : Image T) (downscale : Z) (R C : nat) : Prop :=
  if isRealMask mask
  then image_wf R C (if 1 <? downscale then downscaleMask mask downscale else mask)
  else exists p img,
         imageList !! 0%nat = Some p /\ readImage p = Ok img
         /\ image_wf R C (scaledRGB downscaleRGB img downscale).

(** What the solver's loops rely on: the picture has [R * C] pixels and the
    active pixels are distinct indexes below [R * C]. *)
Definition layout {T} (sel : Selection (T := T)) (R C : nat) : Prop :=
  pictRows sel = Z.of_nat R
  /\ ((0 < R)%nat -> pictCols sel = Z.of_nat C)
  /\ pixelCount sel = (R * C)%nat
  /\ exists idxs : list nat,
       activePixels sel = Ok (map Z.of_nat idxs)
       /\ length idxs = maskSize sel
       /\ NoDup idxs
       /\ Forall (fun k => (k < R * C)%nat) idxs.

(** A matrix of [rows] x [cols] coefficients. *)
Definition mshape {T} (rows cols : nat) (M : Matrix T) : Prop :=
  length M = cols /\ Forall (fun c => length c = rows) M.

(** The state after [n] turns of the loop body with no exit taken, and the
    relative change [ecart_relatif] measured during turn [k]. *)
Definition robustIterate {T} `{Scalar T} (solve : Matrix T -> Matrix T -> Matrix T)
    (lightMat imMat_gray : Matrix T) (n : nat) (st : RobustState) : RobustState :=
  Nat.iter n (fun st => fst (robustStep solve lightMat imMat_gray st)) st.

Definition ecartAt {T} `{Scalar T} (solve : Matrix T -> Matrix T -> Matrix T)
    (lightMat imMat_gray : Matrix T) (st : RobustState) (k : nat) : T :=
  snd (robustStep solve lightMat imMat_gray (robustIterate solve lightMat imMat_gray k st)).

(** A directory entry is kept when its lower-cased extension is one of the
    supported extensions and its stem contains neither "mask" nor
    "ambiant", whatever the case. *)
Definition keepPicture (extensions : list string) (p : string) : bool :=
  negb (Boost.icontains (Boost.stem p) "mask")
  && negb (Boost.icontains (Boost.stem p) "ambiant")
  && existsb (String.eqb (Boost.to_lower (Boost.extension p))) extensions.

(** The order in which [std::sort] leaves two neighbours: the second is
    not less than the first. *)
Definition notAfter {A} (lt : A -> A -> bool) (a b : A) : Prop := lt b a = false.

(** Ascending order of strings, as [compareFunction] sorts them. *)
Definition pathLe (a b : string) : Prop := String.leb a b = true.

(** A picture of [h] x [w] pixels whose channels are all [+0.0]. *)
Definition blackImage (h w : nat) : Image (Rgb F32.t) :=
  replicate h (replicate w (mkRgb F32.pzero F32.pzero F32.pzero)).

(** ** Definitions that follow the specification's wording *)

(** The colour encoding of a normal as the specification words it: every
    axis through [floor (255 (a + 1) / 2)], the Y and Z axes negated
    first, and the zero vector black. *)
Definition claimedEncoding {T} `{Scalar T} (n : Rgb T) : Rgb (option Z) :=
  let enc a := stoUChar (sfloor ((sofZ 255 * (a + sofZ 1)) / sofZ 2))%sc in
  if (((red n * red n) + (green n * green n)) + (blue n * blue n) =? szero)%sc
  then mkRgb (Some 0) (Some 0) (Some 0)
  else mkRgb (enc (red n)) (enc (- green n)%sc) (enc (- blue n)%sc).


(** ** Sample data *)

Module Sample.
Local Open Scope string_scope.

Definition f (z : Z) : F32.t := sofZ z.
Definition gray (z : Z) : Rgb F32.t := mkRgb (f z) (f z) (f z).

(** Least-squares solve against the 3x3 identity: the right-hand side. *)
Definition I3 : Matrix F32.t := [[f 1; f 0; f 0]; [f 0; f 1; f 0]; [f 0; f 0; f 1]].
Definition solveIdentity (L B : Matrix F32.t) : Matrix F32.t := B.

Definition keepScale {P} (img : Image P) (factor : Z) : Image P := img.

(** A 1x2 picture with a lit pixel and an unlit one, and a black picture. *)
Definition litAndDark : Image (Rgb F32.t) := [[gray 1; gray 0]].
Definition readLitAndDark (p : string) : result (Image (Rgb F32.t)) :=
  if String.eqb p "ambiant.png" then Ok (blackImage 1 2) else Ok litAndDark.

Definition unitIntensities : list (Rgb F32.t) := [gray 1; gray 1; gray 1].
Definition noMask : Image F32.t := [[f 1]].



(** A dim 1x2 picture under a brighter ambient picture (binary32). *)
Definition dimPicture : Image (Rgb F32.t) :=
  [[mkRgb (slit 1 4) (slit 1 4) (slit 1 4); mkRgb (slit 1 2) (slit 1 2) (slit 1 2)]].
Definition brightAmbiant : Image (Rgb F32.t) := [[gray 1; gray 1]].
Definition readDim (p : string) : result (Image (Rgb F32.t)) :=
  if String.eqb p "ambiant.png" then Ok brightAmbiant else Ok dimPicture.

(** An ambient picture of negative zeros, which compare equal to zero, and
    a picture with a lit pixel and a pixel of negative zeros (binary32). *)
Definition negativeZero : Rgb F32.t :=
  mkRgb (S754_zero true) (S754_zero true) (S754_zero true).
Definition negativeZeros : Image (Rgb F32.t) := [[negativeZero; negativeZero]].
Definition litAndNegativeZero : Image (Rgb F32.t) := [[gray 1; negativeZero]].
Definition readNegativeZeros (p : string) : result (Image (Rgb F32.t)) :=
  if String.eqb p "ambiant.png" then Ok negativeZeros else Ok litAndNegativeZero.

(** One real-valued picture of one pixel. *)
Definition onePixel : Image (Rgb R) := [[mkRgb 2%R 2%R 2%R]].
Definition readOnePixel (p : string) : result (Image (Rgb R)) := Ok onePixel.
Definition solveIdentityR (L B : Matrix R) : Matrix R := B.

(** Three real-valued unit lights, and a real-valued picture of two pixels
    under a mask that selects the first one. *)
Definition I3R : Matrix R := [[1%R; 0%R; 0%R]; [0%R; 1%R; 0%R]; [0%R; 0%R; 1%R]].
Definition unitIntensitiesR : list (Rgb R) :=
  [mkRgb 1%R 1%R 1%R; mkRgb 1%R 1%R 1%R; mkRgb 1%R 1%R 1%R].
Definition twoPixels : Image (Rgb R) := [[mkRgb 2%R 2%R 2%R; mkRgb 2%R 2%R 2%R]].
Definition readTwoPixels (p : string) : result (Image (Rgb R)) := Ok twoPixels.
Definition leftMask : Image R := [[1%R; 0%R]].
End Sample.

(** ** photometricDataIO.cpp: the gray overload of [image2PsMatrix] *)

Section GrayMatrix.
Context {T : Type} `{Scalar T}.

(** [imageOut(index) = x] for an [int] index. *)
Definition setVCoef (imageOut : Vector T) (index : Z) (x : T) : Vector T :=
  if 0 <=? index then <[Z.to_nat index := x]> imageOut else imageOut.

(** Lines 246-265.  [index] advances at every pixel, selected or not. *)
Definition image2PsMatrix_gray (imageIn : Image T) (mask : Image T)
    (imageOut : Vector T) : Vector T :=
  let nbRows := irows imageIn in
  let nbCols := icols imageIn in
  let hasMask := isRealMask mask in
  fst (foldl (fun st j =>
         foldl (fun '(imageOut, index) i =>
           ((if negb hasMask || aboveThreshold (pixel szero mask i j)
             then setVCoef imageOut index (pixel szero imageIn i j)
             else imageOut),
            wrap_int (index + 1)))
           st (seqZ 0 nbRows))
         (imageOut, 0) (seqZ 0 nbCols)).
End GrayMatrix.

(** ** More notions used in the statements *)

(** The pixel of linear index [k] of a picture of [rows] rows. *)
Definition pixelOf {P} (d : P) (img : Image P) (rows k : nat) : P :=
  pixel d img (Z.of_nat (k mod rows)) (Z.of_nat (k / rows)).

(** The test of [image2PsMatrix] on the pixel of linear index [k]:
    [(!hasMask) || mask(i,j) > 0.7]. *)
Definition chosen {T} `{Scalar T} (mask : Image T) (rows k : nat) : bool :=
  negb (isRealMask mask) || selected mask rows k.

(** The albedo estimated for channel [ch] of the [i]-th active pixel, of
    picture index [k], before the division by the maximum: the median of
    the ratios of the observations to the shadings in the robust mode (zero
    when the median is not defined), the norm of the solved column
    otherwise. *)
Definition albedoEstimate {T} `{Scalar T} (solve : Matrix T -> Matrix T -> Matrix T)
    (isRobust : bool) (lightMat imMat normalsVect : Matrix T) (n ch i k : nat) : T :=
  if isRobust
  then default szero
         (median (zip_with smul (mcol (pixelValues_channel imMat n ch) i)
                    (map (fun x => (sofZ 1 / x)%sc)
                         (mat_vec lightMat (mcol normalsVect k)))))
  else vnorm (mcol (solve lightMat (pixelValues_channel imMat n ch)) i).

(** The weighted sum of the three channels that [photometricStereo] stores
    in [imMat_gray] (line 219). *)
Definition luminance {T} `{Scalar T} (p : Rgb T) : T :=
  (((red p * slit 2126 10000) + (green p * slit 7152 10000))
   + (blue p * slit 722 10000))%sc.

(** Picture [i] as it is handed to [image2PsMatrix] (lines 197-212): read,
    downscaled, the ambient picture subtracted when one is requested, and
    divided by the intensities of its light. *)
Definition preparedPicture {T} `{Scalar T}
    (readImage : string -> result (Image (Rgb T)))
    (downscaleRGB : Image (Rgb T) -> Z -> Image (Rgb T))
    (imageList : list string) (intList : list (Rgb T))
    (pathToAmbiant : string) (downscale : Z) (imageAmbiant : Image (Rgb T)) (i : nat)
  : result (Image (Rgb T)) :=
  rbind (vector_at imageList i) (fun picturePath =>
  rbind (readImage picturePath) (fun imageFloat =>
  rbind (vector_at intList i) (fun intensities =>
    Ok (intensityScaling intensities
          (if ambiantRequested pathToAmbiant
           then image_sub (scaledRGB downscaleRGB imageFloat downscale) imageAmbiant
           else scaledRGB downscaleRGB imageFloat downscale))))).

(** ** photometricDataIO.cpp: the text files of the lights

    What a loader can end with, besides a value. *)

Inductive failure : Type :=
| runtime_error (what : string)   (* [std::runtime_error], thrown by the loaders *)
| ptree_error                     (* thrown by Boost.PropertyTree *)
| thrown (e : exn)                (* what ends the solve without a result *)
| undefined_behaviour.            (* an array written past its end, an
                                     indeterminate value read *)

Inductive outcome (A : Type) : Type :=
| Done (a : A)
| Failed (f : failure).
Arguments Done {A} a.
Arguments Failed {A} f.

Definition obind {A B} (m : outcome A) (k : A -> outcome B) : outcome B :=
  match m with
  | Done a => k a
  | Failed f => Failed f
  end.

Definition ofResult {A} (m : result A) : outcome A :=
  match m with
  | Ok a => Done a
  | Throw e => Failed (thrown e)
  end.

(** The values of [line] over the turns of
    [while (!f.eof()) { std::getline(f, line); ... }] on a file that holds
    [text]: the text before each newline, then what follows the last
    newline, which is empty when the file is empty or ends with a newline.
    Reading that last one reaches the end of the file and sets [eofbit]. *)
Fixpoint linesRead (text : string) : list string :=
  match text with
  | EmptyString => [EmptyString]
  | String c text' =>
      if Ascii.eqb c "010"%char then EmptyString :: linesRead text'
      else match linesRead text' with
           | line :: lines => String c line :: lines
           | [] => [String c EmptyString]
           end
  end.

Definition cantOpen (fileName : string) : failure :=
  runtime_error ("Can't open '" ++ fileName ++ "' !")%string.

Section LightFiles.
Context {T : Type} `{Scalar T}.

(** The file system and the stream library, as the loaders use them:
    - [openText name] is the text of the file when [std::fstream::open]
      succeeds;
    - [extract line vars] gives the values of the variables after
      [stream.clear(); stream.str(line); stream >> v1 >> ... >> vn], from
      their values before: a variable whose extraction does not succeed
      keeps its value or is set to zero, as the library decides;
    - [extractFloat text] is [matFile >> item] on a good stream with [text]
      left: the value stored in [item], and what is left of the file when
      the stream is still good after it ([None] when the extraction set
      [failbit]). *)
Variable openText : string -> option string.
Variable extract : string -> list T -> list T.
Variable extractFloat : string -> T * option string.

(** [M(row, col) = x] for an [int] row. *)
Definition setCoefAt (M : Matrix T) (row : Z) (col : nat) (x : T) : Matrix T :=
  if 0 <=? row then alter (fun c => <[Z.to_nat row := x]> c) col M else M.

(** [M(row, 0) = v0; M(row, 1) = v1; ...] *)
Definition setRowAt (M : Matrix T) (row : Z) (values : list T) : Matrix T :=
  foldl (fun M cv => setCoefAt M row (fst cv) (snd cv)) M (imap pair values).

Definition var (vars : list T) (n : nat) : T := default szero (vars !! n).

(** Lines 21-50.  [xyz] holds the values of [x], [y], [z] before the
    first extraction: they are not initialised. *)
Definition loadLightIntensities (intFileName : string) (xyz : list T)
    (intList : list (Rgb T)) : outcome (list (Rgb T)) :=
  match openText intFileName with
  | None => Failed (cantOpen intFileName)
  | Some text =>
      let st :=
        foldl (fun st line =>
                 let xyz := extract line (fst st) in
                 (xyz, snd st ++ [mkRgb (var xyz 0) (var xyz 1) (var xyz 2)]))
              (xyz, intList) (linesRead text) in
      Done (removelast (snd st))
  end.

(** The loop shared by [loadLightDirections] and [loadLightHS]: each line
    read is extracted, and fills row [lineNumber] while there is one. *)
Definition fillRows (rowOf : list T -> list T) (text : string) (vars : list T)
    (lightMat : Matrix T) : Matrix T :=
  let st :=
    foldl (fun st line =>
             let '(vars, lightMat, lineNumber) := st in
             let vars := extract line vars in
             if lineNumber <? Z.of_nat (mrows lightMat)
             then (vars, setRowAt lightMat lineNumber (rowOf vars), wrap_int (lineNumber + 1))
             else (vars, lightMat, lineNumber))
          (vars, lightMat, 0) (linesRead text) in
  snd (fst st).

(** The row written by [loadLightDirections] (lines 80-82). *)
Definition convertedDirection (convertionMatrix : Matrix T) (xyz : list T) : list T :=
  map (fun r => (((coef convertionMatrix r 0 * var xyz 0)
                  + (coef convertionMatrix r 1 * var xyz 1))
                 + (coef convertionMatrix r 2 * var xyz 2))%sc)
      [0; 1; 2]%nat.

(** Lines 52-88. *)
Definition loadLightDirections (dirFileName : string) (convertionMatrix : Matrix T)
    (xyz : list T) (lightMat : Matrix T) : outcome (Matrix T) :=
  match openText dirFileName with
  | None => Failed (cantOpen dirFileName)
  | Some text => Done (fillRows (convertedDirection convertionMatrix) text xyz lightMat)
  end.

(** The row written by [loadLightHS] (lines 117-125): [y] and [z] change
    sign. *)
Definition harmonicsRow (vars : list T) : list T :=
  [var vars 0; (- var vars 1)%sc; (- var vars 2)%sc; var vars 3; var vars 4;
   var vars 5; var vars 6; var vars 7; var vars 8].

(** Lines 90-131. *)
Definition loadLightHS (dirFileName : string) (vars : list T) (lightMat : Matrix T)
  : outcome (Matrix T) :=
  match openText dirFileName with
  | None => Failed (cantOpen dirFileName)
  | Some text => Done (fillRows harmonicsRow text vars lightMat)
  end.

(** [float item = 0.0; matFile >> item;] on a stream that is either good,
    with some text left, or failed: nothing is extracted from a failed
    stream. *)
Definition readItem (stream : option string) : T * option string :=
  match stream with
  | Some text => extractFloat text
  | None => (szero, None)
  end.

(** Lines 309-331.  A file that cannot be opened leaves the matrix as it
    is. *)
Definition readMatrix (fileName : string) (matrix : Matrix T) : Matrix T :=
  let nbRows := wrap_int (Z.of_nat (mrows matrix)) in
  let nbCols := wrap_int (Z.of_nat (mcols matrix)) in
  match openText fileName with
  | Some text =>
      fst (foldl (fun st row =>
             foldl (fun st col =>
                      let '(item, stream) := readItem (snd st) in
                      (setCoefAt (fst st) row (Z.to_nat col) item, stream))
                   st (seqZ 0 nbCols))
             (matrix, Some text) (seqZ 0 nbRows))
  | None => matrix
  end.
End LightFiles.

(** ** photometricStereo.cpp: [loadPSData] (lines 368-395) *)

Section LoadPSData.
Context {T : Type} `{Scalar T}.
Variable openText : string -> option string.
Variable extract : string -> list T -> list T.
Variable extractFloat : string -> T * option string.
(** [fs::exists] *)
Variable fileExists : string -> bool.

(** [Eigen::Matrix<float, 3, 3>::Identity()] *)
Definition identity3 : Matrix T :=
  [[sofZ 1; sofZ 0; sofZ 0]; [sofZ 0; sofZ 1; sofZ 0]; [sofZ 0; sofZ 0; sofZ 1]].

(** [xyzInt], [xyzDir] and [varsHS] hold the values, not initialised, of
    the variables of the three loaders before their first extraction. *)
Definition loadPSData (folderPath : string) (HS_order : Z)
    (xyzInt xyzDir varsHS : list T) (intList : list (Rgb T)) (lightMat : Matrix T)
  : outcome (list (Rgb T) * Matrix T) :=
  let intFileName := (folderPath ++ "/light_intensities.txt")%string in
  obind (loadLightIntensities openText extract intFileName xyzInt intList) (fun intList =>
  let convertionMatrix := identity3 in
  let pathToCM := (folderPath ++ "/convertionMatrix.txt")%string in
  let convertionMatrix :=
    if fileExists pathToCM
    then readMatrix openText extractFloat pathToCM convertionMatrix
    else convertionMatrix in
  if HS_order =? 0 then
    let dirFileName := (folderPath ++ "/light_directions.txt")%string in
    obind (loadLightDirections openText extract dirFileName convertionMatrix xyzDir lightMat)
          (fun lightMat => Done (intList, lightMat))
  else if HS_order =? 2 then
    let dirFileName := (folderPath ++ "/light_directions_HS.txt")%string in
    obind (loadLightHS openText extract dirFileName varsHS lightMat)
          (fun lightMat => Done (intList, lightMat))
  else Done (intList, lightMat)).
End LoadPSData.

(** ** More notions used in the statements *)

(** The text of a file made of the given lines, each ended by a newline. *)
Definition unlines (lines : list string) : string :=
  foldr (fun line text => (line ++ String "010"%char text)%string) EmptyString lines.

Fixpoint hasNewline (s : string) : bool :=
  match s with
  | EmptyString => false
  | String c s' => Ascii.eqb c "010"%char || hasNewline s'
  end.

(** The values of the variables after the extraction of each line in
    turn. *)
Fixpoint extracted {T} (extract : string -> list T -> list T) (vars : list T)
    (lines : list string) : list (list T) :=
  match lines with
  | [] => []
  | line :: lines' =>
      let vars := extract line vars in vars :: extracted extract vars lines'
  end.

(** The successive extractions from a good stream with [text] left store
    the [numbers], the last of them possibly while failing, and leave the
    stream in the state [final]. *)
Fixpoint extracts {T} (extractFloat : string -> T * option string) (text : string)
    (numbers : list T) (final : option string) : Prop :=
  match numbers with
  | [] => final = Some text
  | v :: vs =>
      exists stream, extractFloat text = (v, stream)
        /\ match stream with
           | Some rest => extracts extractFloat rest vs final
           | None => vs = [] /\ final = None
           end
  end.

(** The values stored in [item] by [n] successive [matFile >> item]. *)
Fixpoint itemsRead {T} `{Scalar T} (extractFloat : string -> T * option string)
    (n : nat) (stream : option string) : list T :=
  match n with
  | O => []
  | S n' => let '(item, stream') := readItem extractFloat stream in
            item :: itemsRead extractFloat n' stream'
  end.

(** ** photometricDataIO.cpp: [buildLigtMatFromJSON] and [loadMask] *)

(** A light of the JSON file: the key of a child of ["lights"], and its
    children ["intensity"] and ["direction"].  A child is [None] when it
    is missing, so that [get_child] throws; a value is [None] when it
    cannot be converted, so that [get_value<float>] throws. *)
Record Light (T : Type) : Type := mkLight {
  lightName : string;
  intensity : option (list (option T));
  direction : option (list (option T))
}.
Arguments mkLight {T}.
Arguments lightName {T}.
Arguments intensity {T}.
Arguments direction {T}.

(** Left-to-right loop whose body may fail. *)
Fixpoint oforM {A St} (body : St -> A -> outcome St) (l : list A) (s : St) : outcome St :=
  match l with
  | [] => Done s
  | a :: l' => obind (body s a) (oforM body l')
  end.

(** [get_child] and [get_value]. *)
Definition getChild {A} (child : option A) : outcome A :=
  match child with
  | Some a => Done a
  | None => Failed ptree_error
  end.

Section Json.
Context {T : Type} `{Scalar T}.

(** [bpt::read_json(fileName, fileTree)], which throws when the file is
    not read, then the child ["lights"] of the tree, if there is one. *)
Variable read_json : string -> option (option (list (Light T))).

(** [std::array<float, 3> currentIntensities], whose entries are
    indeterminate until they are written: [currentIntensities[cpt] = x]
    is undefined outside the array, and copying the array is undefined
    while an entry is indeterminate. *)
Definition writeArray (a : list (option T)) (cpt : Z) (x : T) : outcome (list (option T)) :=
  if (0 <=? cpt) && (cpt <? 3)
  then Done (<[Z.to_nat cpt := Some x]> a)
  else Failed undefined_behaviour.

Definition readArray (a : list (option T)) : outcome (Rgb T) :=
  match a with
  | [Some x; Some y; Some z] => Done (mkRgb x y z)
  | _ => Failed undefined_behaviour
  end.

(** Lines 147-166: one light against one picture.  The state holds
    [lightMat], [intList], [lineNumber] and [cpt]; [cpt] is set to zero
    after the intensities, not before them. *)
Definition matchLight (currentImPath : string)
    (st : Matrix T * list (Rgb T) * Z * Z) (light : Light T)
  : outcome (Matrix T * list (Rgb T) * Z * Z) :=
  let '(lightMat, intList, lineNumber, cpt) := st in
  if Boost.icontains (Boost.stem currentImPath) (lightName light) then
    obind (getChild (intensity light)) (fun intensities =>
    obind (oforM (fun ac value =>
                    obind (getChild value) (fun x =>
                    obind (writeArray (fst ac) (snd ac) x) (fun arr =>
                    Done (arr, wrap_int (snd ac + 1)))))
                 intensities (replicate 3 None, cpt)) (fun ac =>
    obind (readArray (fst ac)) (fun currentIntensities =>
    let intList := intList ++ [currentIntensities] in
    obind (getChild (direction light)) (fun directions =>
    obind (oforM (fun mc value =>
                    obind (getChild value) (fun x =>
                    Done (setCoefAt (fst mc) lineNumber (Z.to_nat (snd mc)) x,
                          wrap_int (snd mc + 1))))
                 directions (lightMat, 0)) (fun mc =>
    Done (fst mc, intList, wrap_int (lineNumber + 1), snd mc))))))
  else Done st.

(** Lines 133-169. *)
Definition buildLigtMatFromJSON (fileName : string) (imageList : list string)
    (lightMat : Matrix T) (intList : list (Rgb T))
  : outcome (Matrix T * list (Rgb T)) :=
  obind (getChild (read_json fileName)) (fun fileTree =>
  obind (oforM (fun st currentImPath =>
                  let '(lightMat, intList, lineNumber) := st in
                  obind (getChild fileTree) (fun lights =>
                  obind (oforM (matchLight currentImPath) lights
                               (lightMat, intList, lineNumber, 0)) (fun st' =>
                  Done (fst st'))))
               imageList (lightMat, intList, 0)) (fun st =>
  Done (fst st))).

(** Lines 171-185.  [fileExists] is [fs::exists] and [readMask] the image
    reader for a gray picture. *)
Definition loadMask (fileExists : string -> bool)
    (readMask : string -> result (Image T)) (maskName : string) : result (Image T) :=
  if fileExists maskName then readMask maskName else Ok [[sofZ 1]].
End Json.

(** ** photometricStereo.cpp: the entry points *)

(** A view of the scene, as the entry points read it. *)
Record View : Type := mkView {
  getViewId : Z;
  getPoseId : Z;
  getImagePath : string
}.

(** [sfmData.getViews()]: the entries of the map of the views, each a key
    and the view it holds, in the order of the iteration. *)
Abbreviation Views := (list (Z * View)).

(** [viewsPerPoseId[pose].push_back(view)] on a [std::map], kept as the
    list of its entries in the order of the keys. *)
Fixpoint mapPush (pose view : Z) (m : list (Z * list Z)) : list (Z * list Z) :=
  match m with
  | [] => [(pose, [view])]
  | (pose', views) :: m' =>
      if pose <? pose' then (pose, [view]) :: m
      else if pose =? pose' then (pose', views ++ [view]) :: m'
      else (pose', views) :: mapPush pose view m'
  end.

(** Lines 84-87. *)
Definition viewsPerPoseId (views : Views) : list (Z * list Z) :=
  foldl (fun m viewIt => mapPush (getPoseId (snd viewIt)) (getViewId (snd viewIt)) m) [] views.

(** [sfmData.getView(viewId)]: the view that the map holds under the key
    [viewId]; it throws when the map has no such key. *)
Definition getView (views : Views) (viewId : Z) : outcome View :=
  match List.find (fun viewIt => fst viewIt =? viewId) views with
  | Some viewIt => Done (snd viewIt)
  | None => Failed (thrown out_of_range)
  end.

(** [s.erase(0, 3)] *)
Definition erase3 (s : string) : string :=
  match s with
  | String _ (String _ (String _ s')) => s'
  | _ => EmptyString
  end.

(** What one call of the solve received and returned. *)
Record Solve (T : Type) : Type := mkSolve {
  sv_poseId : Z;
  sv_imageList : list string;
  sv_pathToAmbiant : string;
  sv_maskName : string;
  sv_solved : Solved (T := T)
}.
Arguments mkSolve {T}.
Arguments sv_poseId {T}.
Arguments sv_imageList {T}.
Arguments sv_pathToAmbiant {T}.
Arguments sv_maskName {T}.
Arguments sv_solved {T}.

Section EntryPoints.
Context {T : Type} `{Scalar T}.
Variable solve : Matrix T -> Matrix T -> Matrix T.
Variable readImage : string -> result (Image (Rgb T)).
Variable downscaleMask : Image T -> Z -> Image T.
Variable downscaleRGB : Image (Rgb T) -> Z -> Image (Rgb T).
Variable openText : string -> option string.
Variable extract : string -> list T -> list T.
Variable extractFloat : string -> T * option string.
Variable fileExists : string -> bool.
Variable read_json : string -> option (option (list (Light T))).
Variable readMask : string -> result (Image T).
(** [fs::is_directory]; the paths that [fs::directory_iterator] yields for
    a folder, in its order; [image::getSupportedExtensions()];
    [fs::path::remove_filename]; the name of the folder of a file,
    [fs::path(p).parent_path().filename()]. *)
Variable is_directory : string -> bool.
Variable directoryEntries : string -> list string.
Variable supportedExtensions : list string.
Variable remove_filename : string -> string.
Variable folderName : string -> string.
(** The content of an Eigen matrix of the given numbers of rows and
    columns that is declared without initial value, and the values of the
    variables of the loaders before their first extraction. *)
Variable uninitialised : nat -> nat -> Matrix T.
Variables xyzInt xyzDir varsHS : list T.
(** [buildLigtMatFromModel], called by [RTI]; it is not defined in these
    files. *)
Variable buildLigtMatFromModel :
  string -> Matrix T -> list (Rgb T) -> outcome (Matrix T * list (Rgb T)).

Definition lightDim (HS_order : Z) : nat := if HS_order =? 2 then 9%nat else 3%nat.

(** Lines 36-46 and 109-119. *)
Definition loadLights (lightData : string) (HS_order : Z) (imageList : list string)
  : outcome (list (Rgb T) * Matrix T) :=
  let lightMat := uninitialised (length imageList) (lightDim HS_order) in
  if is_directory lightData
  then loadPSData openText extract extractFloat fileExists lightData HS_order
                  xyzInt xyzDir varsHS [] lightMat
  else obind (buildLigtMatFromJSON read_json lightData imageList lightMat [])
             (fun li => Done (snd li, fst li)).

Definition runSolve (poseId : Z) (imageList : list string) (intList : list (Rgb T))
    (lightMat : Matrix T) (maskName pathToAmbiant : string) (isRobust : bool)
    (downscale : Z) : outcome (Solve T) :=
  obind (ofResult (loadMask fileExists readMask maskName)) (fun mask =>
  obind (ofResult (photometricStereo solve readImage downscaleMask downscaleRGB
                     imageList intList lightMat mask pathToAmbiant isRobust downscale))
        (fun solved => Done (mkSolve poseId imageList pathToAmbiant maskName solved))).

(** Lines 24-71: the pictures of a folder.  The results are written by the
    caller of this model. *)
Definition photometricStereo_folder (inputPath lightData : string) (HS_order : Z)
    (removeAmbiant isRobust : bool) (downscale : Z) : outcome (Solve T) :=
  let pictureFolder := (inputPath ++ "/PS_Pictures/")%string in
  let imageList := getPicturesNames supportedExtensions (directoryEntries pictureFolder) [] in
  obind (loadLights lightData HS_order imageList) (fun il =>
  let maskName := (remove_filename lightData ++ "/mask.png")%string in
  let pathToAmbiant := findAmbiant removeAmbiant imageList in
  runSolve 0 imageList (fst il) (snd il) maskName pathToAmbiant isRobust downscale).

(** Lines 89-130: one pose.  [pathToAmbiant] is declared before the loop
    over the poses and is handed from one pose to the next. *)
Definition solvePose (views : Views) (lightData maskPath : string) (HS_order : Z)
    (removeAmbiant isRobust : bool) (downscale : Z)
    (st : string * list (Solve T)) (pose : Z * list Z)
  : outcome (string * list (Solve T)) :=
  let '(poseId, viewIds) := pose in
  obind (oforM (fun paths viewId =>
                  obind (getView views viewId) (fun view =>
                  Done (paths ++ [getImagePath view])))
               viewIds []) (fun paths =>
  let collected := collectViews removeAmbiant paths (fst st) in
  let imageList := fst collected in
  let pathToAmbiant := snd collected in
  obind (loadLights lightData HS_order imageList) (fun il =>
  obind (getView views (default 0 (viewIds !! 0%nat))) (fun first =>
  let pictureFolderName := folderName (getImagePath first) in
  let currentMaskPath := (maskPath ++ "/" ++ erase3 pictureFolderName ++ ".png")%string in
  obind (runSolve poseId imageList (fst il) (snd il) currentMaskPath pathToAmbiant
                  isRobust downscale) (fun done =>
  Done (pathToAmbiant, snd st ++ [done]))))).

(** Lines 73-131: the views of a scene, pose after pose. *)
Definition photometricStereo_sfm (views : Views) (lightData maskPath : string)
    (HS_order : Z) (removeAmbiant isRobust : bool) (downscale : Z)
  : outcome (list (Solve T)) :=
  obind (oforM (solvePose views lightData maskPath HS_order removeAmbiant isRobust downscale)
               (viewsPerPoseId views) (EmptyString, []))
        (fun st => Done (snd st)).

(** Lines 453-481. *)
Definition RTI (views : Views) (lightData maskPath : string) : outcome (Solve T) :=
  let imageList :=
    std_sort String.ltb
      (List.filter (fun imagePath => negb (Boost.icontains (Boost.stem imagePath) "ambiant"))
                   (map (fun viewIt => getImagePath (snd viewIt)) views)) in
  let lightMat := uninitialised (length imageList) 3 in
  obind (buildLigtMatFromModel lightData lightMat []) (fun li =>
  runSolve 0 imageList (snd li) (fst li) maskPath EmptyString false 1).
End EntryPoints.


(** The image paths of the views that the map holds under the given keys,
    in the order of the keys. *)
Definition groupPaths (views : Views) (viewIds : list Z) : list string :=
  omap (fun viewId =>
          option_map (fun viewIt => getImagePath (snd viewIt))
                     (List.find (fun viewIt => fst viewIt =? viewId) views))
       viewIds.

(** The entry of a pose in the map of the views by pose. *)
Definition groupOf (m : list (Z * list Z)) (pose : Z) : list Z :=
  match List.find (fun e => fst e =? pose) m with
  | Some e => snd e
  | None => []
  end.


(** A scene of two poses for the examples: the first pose has an ambient
    picture, the second has none.  The lights are named after the
    pictures. *)
Module Scene.
Local Open Scope string_scope.

Definition views : Views :=
  [(1, mkView 1 10 "ps_001/a.png"); (2, mkView 2 10 "ps_001/ambiant.png");
   (3, mkView 3 10 "ps_001/b.png"); (4, mkView 4 10 "ps_001/c.png");
   (5, mkView 5 20 "ps_002/d.png"); (6, mkView 6 20 "ps_002/e.png");
   (7, mkView 7 20 "ps_002/f.png")].

Definition light (name : string) (x y z : Z) : Light F32.t :=
  mkLight name (Some [Some (Sample.f 1); Some (Sample.f 1); Some (Sample.f 1)])
          (Some [Some (Sample.f x); Some (Sample.f y); Some (Sample.f z)]).

Definition lights : list (Light F32.t) :=
  [light "a" 1 0 0; light "b" 0 1 0; light "c" 0 0 1;
   light "d" 1 0 0; light "e" 0 1 0; light "f" 0 0 1].

Definition read_json (fileName : string) : option (option (list (Light F32.t))) :=
  Some (Some lights).

Definition zeros (rows cols : nat) : Matrix F32.t := replicate cols (replicate rows (Sample.f 0)).

(** No text file, no directory and no mask file. *)
Definition openText (fileName : string) : option string := None.
Definition extract (line : string) (vars : list F32.t) : list F32.t := vars.
Definition extractFloat (text : string) : F32.t * option string := (Sample.f 0, None).
Definition absent (path : string) : bool := false.
Definition readMask (maskName : string) : result (Image F32.t) := Throw io_error.
Definition folderName (path : string) : string := "ps_001".

(** A light model that gives the three unit lights. *)
Definition lightsOfModel (lightData : string) (lightMat : Matrix F32.t)
    (intList : list (Rgb F32.t)) : outcome (Matrix F32.t * list (Rgb F32.t)) :=
  Done (Sample.I3, Sample.unitIntensities).
End Scene.


(** ** Notions for the lights of a JSON file *)

(** The lights whose name occurs in the stem of a picture, in the order of
    the file. *)
Definition matchingLights {T} (lights : list (Light T)) (currentImPath : string)
  : list (Light T) :=
  List.filter (fun light => Boost.icontains (Boost.stem currentImPath) (lightName light))
              lights.

(** Whether a child holds three values, each of them a number. *)
Definition hasThree {T} (child : option (list (option T))) : bool :=
  match child with
  | Some [Some _; Some _; Some _] => true
  | _ => false
  end.

(** A light with three intensities and three directions. *)
Definition wellFormed {T} (light : Light T) : bool :=
  hasThree (intensity light) && hasThree (direction light).

(** The numbers of a child. *)
Definition valuesOf {T} (child : option (list (option T))) : list T :=
  omap (fun value => value) (default [] child).

Definition rgbOf {T} `{Scalar T} (values : list T) : Rgb T :=
  mkRgb (var values 0) (var values 1) (var values 2).

(** * Properties *)

Local Open Scope R_scope.

Lemma Rideal_ltb_true a b : Rideal.ltb a b = true <-> a < b.
Proof. unfold Rideal.ltb. destruct (Rlt_dec a b); split; intros; (done || lra). Qed.

Lemma Rideal_std_max a b : std_max (T := R) a b = Rmax a b.
Proof.
  unfold std_max, Rmax. simpl. unfold Rideal.ltb.
  destruct (Rlt_dec a b), (Rle_dec a b); lra.
Qed.

Lemma shrink_coeff_R x t :
  0 <= t -> shrink_coeff (T := R) x t = Rideal.sgn x * Rmax (Rabs x - t) 0.
Proof.
  intros Ht. unfold shrink_coeff, Rideal.sgn, szero. simpl.
  rewrite Rideal_std_max. unfold Rideal.ltb.
  destruct (Rlt_dec 0 x) as [Hx|Hx]; [lra|].
  destruct (Rlt_dec x 0) as [Hx'|Hx']; [lra|].
  assert (x = 0) by lra. subst x. rewrite Rabs_R0.
  unfold Rmax. destruct (Rle_dec (0 - t) 0); lra.
Qed.

Lemma shrink_coeff_R_abs x t :
  0 <= t -> Rabs (shrink_coeff (T := R) x t) = Rmax (Rabs x - t) 0.
Proof.
  intros Ht. unfold shrink_coeff, szero. simpl. rewrite Rideal_std_max.
  assert (0 <= Rmax (Rabs x - t) 0) by apply Rmax_r.
  destruct (Rideal.ltb 0 x).
  - by apply Rabs_pos_eq.
  - rewrite Rabs_Ropp. by apply Rabs_pos_eq.
Qed.

Lemma coef_shrink {T} `{Scalar T} (mat E : Matrix T) rho i j :
  (i < length (mcol E j))%nat ->
  coef (shrink mat rho E) i j = shrink_coeff (coef mat i j) rho.
Proof.
  intros Hi. unfold mcol in Hi.
  destruct (E !! j) as [c|] eqn:Ec; simpl in Hi; [|lia].
  destruct (lookup_lt_is_Some_2 c i Hi) as [y Hy].
  assert (Hc : mcol (shrink mat rho E) j
               = imap (fun i _ => shrink_coeff (coef mat i j) rho) c).
  { unfold mcol, shrink. by rewrite list_lookup_imap, Ec. }
  unfold coef at 1. rewrite Hc, list_lookup_imap, Hy. done.
Qed.

(** ** C8: the shrink operator *)

(** C8.  Over the reals and for a threshold [t >= 0], every coefficient of
    the matrix written by [shrink] is [sgn x * max (|x| - t) 0], where [x]
    is the coefficient of the input at the same place; it is [0] when [x]
    is [0]; and its absolute value is monotone non-decreasing in [|x|]. *)
Theorem shrink_soft_threshold (mat E : Matrix R) (t : R) :
  0 <= t ->
  forall i j, (i < length (mcol E j))%nat ->
    let x := coef mat i j in
    let y := coef (shrink mat t E) i j in
    y = Rideal.sgn x * Rmax (Rabs x - t) 0
    /\ (x = 0 -> y = 0)
    /\ (forall i' j', (i' < length (mcol E j'))%nat ->
          Rabs x <= Rabs (coef mat i' j') ->
          Rabs y <= Rabs (coef (shrink mat t E) i' j')).
Proof.
  intros Ht i j Hij x y. subst x y.
  rewrite coef_shrink by done. repeat split.
  - by apply shrink_coeff_R.
  - intros Hx. rewrite shrink_coeff_R, Hx by done.
    unfold Rideal.sgn. destruct (Rlt_dec 0 0), (Rlt_dec 0 0); lra.
  - intros i' j' Hij' Hle. rewrite coef_shrink by done.
    rewrite !shrink_coeff_R_abs by done.
    apply Rle_max_compat_r. lra.
Qed.

Lemma shrink_soft_threshold_witness :
  coef (shrink (T := R) [[5; -3]] 1 [[0; 0]]) 1 0
  = Rideal.sgn (coef (T := R) [[5; -3]] 1 0)
    * Rmax (Rabs (coef (T := R) [[5; -3]] 1 0) - 1) 0.
Proof.
  refine (proj1 (shrink_soft_threshold [[5; -3]] [[0; 0]] 1 _ 1%nat 0%nat _)).
  - lra.
  - simpl. lia.
Defined.

(** ** C2: the median operator *)

Local Open Scope Z_scope.

Lemma sort_insert_length {A} (lt : A -> A -> bool) x l :
  length (sort_insert lt x l) = S (length l).
Proof. induction l as [|y l IH]; simpl; [done|]. destruct (lt x y); simpl; congruence. Qed.

Lemma std_sort_length {A} (lt : A -> A -> bool) l :
  length (std_sort lt l) = length l.
Proof.
  induction l as [|x l IH]; simpl; [done|].
  by rewrite sort_insert_length, IH.
Qed.

Lemma sort_insert_Permutation {A} (lt : A -> A -> bool) x l :
  sort_insert lt x l ≡ₚ x :: l.
Proof.
  induction l as [|y l IH]; simpl; [done|].
  destruct (lt x y); [done|]. rewrite IH. apply Permutation_swap.
Qed.

Lemma std_sort_Permutation {A} (lt : A -> A -> bool) l : std_sort lt l ≡ₚ l.
Proof.
  induction l as [|x l IH]; simpl; [done|].
  by rewrite sort_insert_Permutation, IH.
Qed.

Lemma vcoef_nat {T} (v : Vector T) (k : nat) :
  (k < length v)%nat -> vcoef v (Z.of_nat k) = v !! k.
Proof.
  intros Hk. unfold vcoef.
  destruct (Z.leb_spec 0 (Z.of_nat k)); [|lia].
  destruct (Z.ltb_spec (Z.of_nat k) (Z.of_nat (length v))); [|lia].
  simpl. by rewrite Nat2Z.id.
Qed.

Section MedianShape.
Context {T : Type} `{Scalar T}.

(** Odd length [2k+1]: the coefficient of rank [k] of the sorted storage. *)
Lemma median_odd (d : Vector T) (k : nat) :
  length d = (2 * k + 1)%nat ->
  median d = std_sort sltb d !! k.
Proof.
  intros Hlen. unfold median. rewrite std_sort_length, Hlen.
  replace (Z.of_nat (2 * k + 1)) with (1 + Z.of_nat k * 2) by lia.
  rewrite Z_mod_plus_full, Z_div_plus_full by lia. simpl.
  apply vcoef_nat. rewrite std_sort_length. lia.
Qed.

(** Even length [2k+2]: the sum of the coefficients of ranks [k] and
    [k+1] of the sorted storage; no division by two follows. *)
Lemma median_even (d : Vector T) (k : nat) (a b : T) :
  length d = (2 * k + 2)%nat ->
  Z.of_nat (length d) < 2 ^ 64 - 1 ->
  std_sort sltb d !! k = Some a ->
  std_sort sltb d !! S k = Some b ->
  median d = Some (a + b)%sc.
Proof.
  intros Hlen Hsz Ha Hb. unfold median. rewrite std_sort_length.
  replace (Z.of_nat (length d) mod 2) with 0
    by (rewrite Hlen; replace (Z.of_nat (2 * k + 2)) with (0 + (Z.of_nat k + 1) * 2) by lia;
        by rewrite Z_mod_plus_full).
  simpl. unfold wrap_size_t. rewrite !Z.mod_small by lia. rewrite Hlen.
  replace ((Z.of_nat (2 * k + 2) - 1) / 2) with (Z.of_nat k)
    by (replace (Z.of_nat (2 * k + 2) - 1) with (1 + Z.of_nat k * 2) by lia;
        rewrite Z_div_plus_full by lia; done).
  replace ((Z.of_nat (2 * k + 2) + 1) / 2) with (Z.of_nat (S k))
    by (replace (Z.of_nat (2 * k + 2) + 1) with (1 + Z.of_nat (S k) * 2) by lia;
        rewrite Z_div_plus_full by lia; done).
  rewrite !vcoef_nat by (rewrite std_sort_length; lia).
  by rewrite Ha, Hb.
Qed.
End MedianShape.

(** C2.  On binary32 vectors of sizes 3 and 5, [median] returns the middle
    sorted element.  On the vector (3, 1, 4, 2) of size 4 it returns 5, the
    sum 2 + 3 of the two middle sorted elements, and not their average
    5/2. *)
Theorem median_even_size_returns_sum :
  median (T := F32.t) (map sofZ [3; 1; 2]) = Some (sofZ 2)
  /\ median (T := F32.t) (map sofZ [3; 1; 2; 5; 4]) = Some (sofZ 3)
  /\ median (T := F32.t) (map sofZ [3; 1; 4; 2]) = Some (sofZ 5)
  /\ ((sofZ 2 + sofZ 3) / sofZ 2)%sc = slit (T := F32.t) 5 2
  /\ sofZ (T := F32.t) 5 <> slit 5 2.
Proof. repeat split; try (vm_compute; reflexivity). vm_compute. discriminate. Qed.

(** ** Integers and images: basic facts *)

Lemma wrap_int_small z : - 2 ^ 31 <= z < 2 ^ 31 -> wrap_int z = z.
Proof. intros Hz. unfold wrap_int. rewrite Z.mod_small; lia. Qed.

Lemma wrap_int_nat (n : nat) : Z.of_nat n <= INT_MAX -> wrap_int (Z.of_nat n) = Z.of_nat n.
Proof. unfold INT_MAX. intros Hn. apply wrap_int_small. lia. Qed.

Lemma image_wf_row {P} (h w : nat) (img : Image P) (i : nat) :
  image_wf h w img -> (i < h)%nat ->
  exists row, img !! i = Some row /\ length row = w.
Proof.
  intros [Hh Hw] Hi.
  destruct (lookup_lt_is_Some_2 img i) as [row Hrow]; [lia|].
  exists row. split; [done|].
  rewrite Forall_forall in Hw. apply Hw. eapply list_elem_of_lookup_2, Hrow.
Qed.

Lemma image_wf_Height {P} (h w : nat) (img : Image P) :
  image_wf h w img -> Height img = h.
Proof. by intros [Hh _]. Qed.

Lemma image_wf_Width {P} (h w : nat) (img : Image P) :
  image_wf h w img -> (0 < h)%nat -> Width img = w.
Proof.
  intros Hwf Hh. destruct (image_wf_row h w img 0%nat Hwf Hh) as (row & Hrow & Hlen).
  unfold Width. by rewrite Hrow.
Qed.

Lemma pixel_lookup {P} (d : P) (img : Image P) (i j : nat) row p :
  img !! i = Some row -> row !! j = Some p ->
  pixel d img (Z.of_nat i) (Z.of_nat j) = p.
Proof.
  intros Hrow Hp. unfold pixel.
  destruct (Z.leb_spec 0 (Z.of_nat i)); [|lia].
  destruct (Z.leb_spec 0 (Z.of_nat j)); [|lia].
  simpl. rewrite !Nat2Z.id, Hrow. simpl. by rewrite Hp.
Qed.

Lemma newImage_wf {P} (d : P) (h w : nat) :
  image_wf h w (newImage d (Z.of_nat w) (Z.of_nat h)).
Proof.
  unfold newImage. rewrite !Nat2Z.id. split; [apply length_replicate|].
  apply Forall_replicate, length_replicate.
Qed.

(** ** C3: the colour encoding of the normal map *)

Section Encoding.
Context {T : Type} `{Scalar T}.

Lemma convertNormalMap2png_pixel (normalsIm : Image (Rgb T))
    (normalsImPNG : Image (Rgb (option Z))) (h w i j : nat) d :
  image_wf h w normalsIm -> image_wf h w normalsImPNG ->
  Z.of_nat h <= INT_MAX -> Z.of_nat w <= INT_MAX ->
  (i < h)%nat -> (j < w)%nat ->
  pixel d (convertNormalMap2png normalsIm normalsImPNG) (Z.of_nat i) (Z.of_nat j)
  = encodeNormal (pixel rgb_zero normalsIm (Z.of_nat i) (Z.of_nat j)).
Proof.
  intros Hn Hp Hh Hw Hi Hj.
  destruct (image_wf_row h w normalsImPNG i Hp Hi) as (row & Hrow & Hlen).
  destruct (lookup_lt_is_Some_2 row j) as [old Hold]; [lia|].
  unfold convertNormalMap2png, irows, icols.
  rewrite (image_wf_Height h w), (image_wf_Width h w) by (done || lia).
  rewrite !wrap_int_nat by done.
  erewrite pixel_lookup.
  2:{ rewrite list_lookup_imap, Hrow. reflexivity. }
  2:{ rewrite list_lookup_imap, Hold. reflexivity. }
  destruct (Z.ltb_spec (Z.of_nat i) (Z.of_nat h)); [|lia].
  destruct (Z.ltb_spec (Z.of_nat j) (Z.of_nat w)); [|lia].
  done.
Qed.

(** C3 (as the code has it).  In the image written by [writePSResults], a
    pixel whose normal has a zero sum of squares is black; otherwise its X
    channel is [floor (255 (x + 1) / 2)] and its Z channel is the
    conversion to [unsigned char] of [- floor (255 z)].  (The Y channel is
    not part of the statement.) *)
Theorem normal_map_encoding (normals : Image (Rgb T)) (h w i j : nat) :
  image_wf h w normals ->
  Z.of_nat h <= INT_MAX -> Z.of_nat w <= INT_MAX ->
  (i < h)%nat -> (j < w)%nat ->
  let n := pixel rgb_zero normals (Z.of_nat i) (Z.of_nat j) in
  let out := pixel (mkRgb None None None) (writePSResults_normals normals)
                   (Z.of_nat i) (Z.of_nat j) in
  if (((red n * red n) + (green n * green n)) + (blue n * blue n) =? szero)%sc
  then out = mkRgb (Some 0) (Some 0) (Some 0)
  else red out = stoUChar (sfloor ((sofZ 255 * (red n + sofZ 1)) / sofZ 2))%sc
       /\ blue out = stoUChar (- sfloor (sofZ 255 * blue n))%sc.
Proof.
  intros Hwf Hh Hw Hi Hj n out. subst out.
  unfold writePSResults_normals, irows, icols.
  rewrite (image_wf_Height h w), (image_wf_Width h w) by (done || lia).
  rewrite !wrap_int_nat by done.
  rewrite (convertNormalMap2png_pixel _ _ h w) by (done || apply newImage_wf).
  fold n. unfold encodeNormal. simpl.
  destruct (_ =? _)%sc; done.
Qed.
End Encoding.

Lemma normal_map_encoding_witness :
  let n := pixel rgb_zero [[mkRgb (sofZ (T := F32.t) 0) (sofZ (-1)) (sofZ 0)]] 0 0 in
  let out := pixel (mkRgb None None None)
               (writePSResults_normals [[mkRgb (sofZ (T := F32.t) 0) (sofZ (-1)) (sofZ 0)]])
               0 0 in
  if (((red n * red n) + (green n * green n)) + (blue n * blue n) =? szero)%sc
  then out = mkRgb (Some 0) (Some 0) (Some 0)
  else red out = stoUChar (sfloor ((sofZ 255 * (red n + sofZ 1)) / sofZ 2))%sc
       /\ blue out = stoUChar (- sfloor (sofZ 255 * blue n))%sc.
Proof.
  apply (normal_map_encoding
           [[mkRgb (sofZ (T := F32.t) 0) (sofZ (-1)) (sofZ 0)]] 1 1 0 0).
  - split; [reflexivity|]. repeat constructor.
  - vm_compute. discriminate.
  - vm_compute. discriminate.
  - lia.
  - lia.
Defined.

(** The unit normal (0, -1, 0) is encoded as (127, 0, 0); the encoding the
    specification describes gives (127, 255, 127). *)
Lemma normal_map_encoding_counterexample :
  let normals := [[mkRgb (sofZ (T := F32.t) 0) (sofZ (-1)) (sofZ 0)]] in
  pixel (mkRgb None None None) (writePSResults_normals normals) 0 0
  = mkRgb (Some 127) (Some 0) (Some 0)
  /\ claimedEncoding (pixel rgb_zero normals 0 0)
     = mkRgb (Some 127) (Some 255) (Some 127)
  /\ pixel (mkRgb None None None) (writePSResults_normals normals) 0 0
     <> claimedEncoding (pixel rgb_zero normals 0 0).
Proof. vm_compute. repeat split; discriminate. Qed.

(** ** C6: the active pixels *)

Lemma foldl_push_if {A B} (P : A -> bool) (g : A -> B) (l : list A) (acc : list B) :
  foldl (fun acc i => if P i then acc ++ [g i] else acc) acc l
  = acc ++ map g (List.filter P l).
Proof.
  revert acc. induction l as [|a l IH]; intros acc; simpl.
  - by rewrite app_nil_r.
  - rewrite IH. destruct (P a); simpl; [|done]. by rewrite <- app_assoc.
Qed.

Lemma foldl_push_all {A B} (F : A -> list B) (l : list A) (acc : list B) :
  foldl (fun acc j => acc ++ F j) acc l = acc ++ concat (map F l).
Proof.
  revert acc. induction l as [|a l IH]; intros acc; simpl.
  - by rewrite app_nil_r.
  - by rewrite IH, app_assoc.
Qed.

Lemma foldl_ext_in {A B} (f g : B -> A -> B) (l : list A) (b : B) :
  (forall b a, a ∈ l -> f b a = g b a) -> foldl f b l = foldl g b l.
Proof.
  revert b. induction l as [|a l IH]; intros b Hfg; simpl; [done|].
  rewrite Hfg by left. apply IH. intros b' a' Ha'. apply Hfg. by right.
Qed.

Lemma seqZ_nat (n : nat) : seqZ 0 (Z.of_nat n) = map Z.of_nat (seq 0 n).
Proof.
  unfold seqZ. rewrite Nat2Z.id. apply map_ext. intros a. lia.
Qed.

Lemma filter_map_comm {A B} (f : A -> B) (P : B -> bool) (l : list A) :
  List.filter P (map f l) = map f (List.filter (fun a => P (f a)) l).
Proof.
  induction l as [|a l IH]; simpl; [done|].
  destruct (P (f a)); simpl; by rewrite IH.
Qed.

Lemma seq_shift_map (a n : nat) : seq a n = map (fun i => (a + i)%nat) (seq 0 n).
Proof.
  revert a. induction n as [|n IH]; intros a; simpl; [done|].
  f_equal; [lia|]. rewrite (IH (S a)), (IH 1%nat), map_map.
  apply map_ext. intros i. lia.
Qed.

(** Column [c] of a column-major enumeration: the indexes [c * rows + i]. *)
Lemma filter_column (P : nat -> bool) (rows c : nat) :
  List.filter P (seq (c * rows) rows)
  = map (fun i => (c * rows + i)%nat) (List.filter (fun i => P (c * rows + i)%nat) (seq 0 rows)).
Proof. by rewrite (seq_shift_map (c * rows)), filter_map_comm. Qed.

Lemma filter_columns (P : nat -> bool) (rows cols : nat) :
  concat (map (fun c => map (fun i => (c * rows + i)%nat)
                          (List.filter (fun i => P (c * rows + i)%nat) (seq 0 rows)))
              (seq 0 cols))
  = List.filter P (seq 0 (rows * cols)).
Proof.
  induction cols as [|cols IH].
  - by rewrite Nat.mul_0_r.
  - rewrite seq_S, map_app, concat_app, IH. simpl. rewrite app_nil_r.
    replace (rows * S cols)%nat with (rows * cols + rows)%nat by lia.
    rewrite seq_app, List.filter_app. simpl. f_equal.
    replace (rows * cols)%nat with (cols * rows)%nat by lia.
    symmetry. apply filter_column.
Qed.

Section ActivePixels.
Context {T : Type} `{Scalar T}.

Lemma image_wf_irows (h w : nat) {P} (img : Image P) :
  image_wf h w img -> Z.of_nat h <= INT_MAX -> irows img = Z.of_nat h.
Proof.
  intros Hwf Hh. unfold irows. rewrite (image_wf_Height h w) by done.
  by apply wrap_int_nat.
Qed.

Lemma image_wf_icols (h w : nat) {P} (img : Image P) :
  image_wf h w img -> (0 < h)%nat -> Z.of_nat w <= INT_MAX -> icols img = Z.of_nat w.
Proof.
  intros Hwf Hh Hw. unfold icols. rewrite (image_wf_Width h w) by done.
  by apply wrap_int_nat.
Qed.

Lemma image_wf_icols_empty (w : nat) {P} (img : Image P) :
  image_wf 0 w img -> icols img = 0.
Proof. intros [Hh _]. destruct img; [done|discriminate]. Qed.

(** [getIndMask] on a mask of [rows] x [cols]: the selected linear indexes,
    in increasing order. *)
Lemma getIndMask_filter (mask : Image T) (rows cols : nat) (acc : list Z) :
  image_wf rows cols mask ->
  Z.of_nat rows <= INT_MAX -> Z.of_nat cols <= INT_MAX ->
  Z.of_nat (rows * cols) <= INT_MAX ->
  getIndMask mask acc
  = acc ++ map Z.of_nat (List.filter (selected mask rows) (seq 0 (rows * cols))).
Proof.
  intros Hwf Hr Hc Hrc. unfold getIndMask.
  rewrite (image_wf_irows rows cols) by done.
  destruct (Nat.eq_dec rows 0%nat) as [->|Hpos].
  { rewrite (image_wf_icols_empty cols) by done. simpl. by rewrite app_nil_r. }
  rewrite (image_wf_icols rows cols) by (done || lia).
  rewrite !seqZ_nat.
  rewrite (foldl_ext_in _ (fun acc j => acc ++
             map Z.of_nat (map (fun i => (Z.to_nat j * rows + i)%nat)
               (List.filter (fun i => selected mask rows (Z.to_nat j * rows + i)%nat)
                            (seq 0 rows))))).
  - rewrite foldl_push_all, map_map. f_equal.
    rewrite <- (filter_columns (selected mask rows) rows cols), concat_map, map_map.
    f_equal. apply map_ext. intros c. by rewrite Nat2Z.id.
  - intros acc' j Hj. apply list_elem_of_In, in_map_iff in Hj as (c & <- & Hc').
    apply in_seq in Hc'. rewrite Nat2Z.id.
    rewrite foldl_push_if. f_equal. rewrite !filter_map_comm, !map_map.
    assert (Hsel : forall i, In i (seq 0 rows) ->
              aboveThreshold (pixel szero mask (Z.of_nat i) (Z.of_nat c))
              = selected mask rows (c * rows + i)%nat).
    { intros i Hi. apply in_seq in Hi. unfold selected.
      rewrite Nat.add_comm, Nat.Div0.mod_add, Nat.div_add, Nat.mod_small, Nat.div_small by lia.
      done. }
    rewrite (List.filter_ext_in _ _ _ Hsel).
    apply map_ext_in. intros i Hi. apply filter_In in Hi as [Hi _]. apply in_seq in Hi.
    rewrite wrap_int_small; [lia|]. unfold INT_MAX in *. nia.
Qed.
End ActivePixels.

Lemma forM_collect {A B} (f : A -> result B) (l : list A) (ys acc : list B) :
  Forall2 (fun a y => f a = Ok y) l ys ->
  forM (fun acc a => rbind (f a) (fun y => Ok (acc ++ [y]))) l acc = Ok (acc ++ ys).
Proof.
  intros Hall. revert acc. induction Hall as [|a y l ys Hay _ IH]; intros acc; simpl.
  - by rewrite app_nil_r.
  - rewrite Hay. simpl. rewrite IH. by rewrite <- app_assoc.
Qed.

Lemma vector_at_seq {A} (v : list A) :
  Forall2 (fun i y => vector_at v i = Ok y) (seq 0 (length v)) v.
Proof.
  apply Forall2_same_length_lookup_2; [by rewrite length_seq|].
  intros i k y Hk Hy. apply lookup_seq in Hk as [-> _].
  simpl. unfold vector_at. by rewrite Hy.
Qed.

Section ActiveList.
Context {T : Type} `{Scalar T}.

Lemma activePixels_mask (sel : Selection (T := T)) :
  hasMask sel = true -> maskSize sel = length (indexes sel) ->
  activePixels sel = Ok (indexes sel).
Proof.
  intros Hm Hsz. unfold activePixels. rewrite Hsz.
  rewrite (forM_collect (currentIdx sel) _ (indexes sel) []); [done|].
  eapply Forall2_impl; [apply vector_at_seq|].
  intros i y Hy. unfold currentIdx. by rewrite Hm.
Qed.

Lemma activePixels_nomask (sel : Selection (T := T)) :
  hasMask sel = false -> Z.of_nat (maskSize sel) <= INT_MAX ->
  activePixels sel = Ok (map Z.of_nat (seq 0 (maskSize sel))).
Proof.
  intros Hm Hsz. unfold activePixels.
  rewrite (forM_collect (currentIdx sel) _ (map Z.of_nat (seq 0 (maskSize sel))) []); [done|].
  apply Forall2_fmap_r, Forall_Forall2_diag, Forall_forall.
  intros i Hi. apply list_elem_of_In, in_seq in Hi.
  unfold currentIdx. rewrite Hm. f_equal. apply wrap_int_nat. lia.
Qed.

Lemma image_wf_area {P} (h w : nat) (img : Image P) :
  image_wf h w img ->
  Z.of_nat h <= INT_MAX -> Z.of_nat w <= INT_MAX -> Z.of_nat (h * w) <= INT_MAX ->
  Z.to_nat (wrap_int (irows img * icols img)) = (h * w)%nat.
Proof.
  intros Hwf Hh Hw Hhw. rewrite (image_wf_irows h w) by done.
  destruct (Nat.eq_dec h 0%nat) as [->|Hpos].
  - rewrite (image_wf_icols_empty w) by done. done.
  - rewrite (image_wf_icols h w) by (done || lia).
    rewrite <- Nat2Z.inj_mul, wrap_int_nat, Nat2Z.id by done. done.
Qed.

Variable readImage : string -> result (Image (Rgb T)).
Variable downscaleMask : Image T -> Z -> Image T.
Variable downscaleRGB : Image (Rgb T) -> Z -> Image (Rgb T).

Lemma selectPixels_with_mask (imageList : list string) (mask : Image T)
    (downscale : Z) (R C : nat) :
  Z.of_nat R <= INT_MAX -> Z.of_nat C <= INT_MAX -> Z.of_nat (R * C) <= INT_MAX ->
  isRealMask mask = true ->
  let mask' := if 1 <? downscale then downscaleMask mask downscale else mask in
  image_wf R C mask' ->
  exists sel,
    selectPixels readImage downscaleMask downscaleRGB imageList mask downscale = Ok sel
    /\ indexes sel = map Z.of_nat (List.filter (selected mask' R) (seq 0 (R * C)))
    /\ activePixels sel = Ok (indexes sel).
Proof.
  intros HR HC HRC Hreal mask' Hwf. unfold selectPixels. rewrite Hreal. fold mask'.
  pose proof (getIndMask_filter mask' R C [] Hwf HR HC HRC) as Hind.
  rewrite app_nil_l in Hind.
  eexists. split; [reflexivity|]. split; [exact Hind|].
  by apply activePixels_mask.
Qed.

Lemma selectPixels_without_mask (imageList : list string) (mask : Image T)
    (downscale : Z) (R C : nat) :
  Z.of_nat R <= INT_MAX -> Z.of_nat C <= INT_MAX -> Z.of_nat (R * C) <= INT_MAX ->
  isRealMask mask = false ->
  forall p img, imageList !! 0%nat = Some p -> readImage p = Ok img ->
  image_wf R C (scaledRGB downscaleRGB img downscale) ->
  exists sel,
    selectPixels readImage downscaleMask downscaleRGB imageList mask downscale = Ok sel
    /\ maskSize sel = (R * C)%nat
    /\ activePixels sel = Ok (map Z.of_nat (seq 0 (R * C))).
Proof.
  intros HR HC HRC Hreal p img Hp Himg Hwf. unfold selectPixels. rewrite Hreal.
  unfold vector_at. rewrite Hp. simpl. rewrite Himg. simpl.
  eexists. split; [reflexivity|].
  assert (Hsz : Z.to_nat (wrap_size_t (wrap_int
                  (irows (scaledRGB downscaleRGB img downscale)
                   * icols (scaledRGB downscaleRGB img downscale)))) = (R * C)%nat).
  { pose proof (image_wf_area R C _ Hwf HR HC HRC) as Harea.
    assert (Hnn : 0 <= wrap_int (irows (scaledRGB downscaleRGB img downscale)
                                * icols (scaledRGB downscaleRGB img downscale)) <= INT_MAX).
    { rewrite (image_wf_irows R C) by done.
      destruct (Nat.eq_dec R 0%nat) as [->|Hpos].
      - rewrite (image_wf_icols_empty C) by done. vm_compute. split; discriminate.
      - rewrite (image_wf_icols R C) by (done || lia).
        rewrite <- Nat2Z.inj_mul, wrap_int_nat by done. lia. }
    unfold wrap_size_t. rewrite Z.mod_small; [done|]. unfold INT_MAX in Hnn. lia. }
  rewrite Hsz. split; [done|].
  by apply (activePixels_nomask (mkSelection _ _ _ _ _ _)).
Qed.

(** C6.  With a real mask (not the 1x1 placeholder) of [R] rows and [C]
    columns, the index list is exactly the list of the linear indexes
    [col * R + row] whose mask value exceeds the threshold, in increasing
    order, and the solver visits the pixels in that order.  With the 1x1
    placeholder, the solver visits all [R * C] pixels of the first picture
    in the identity order [0, 1, ..., R * C - 1]. *)
Theorem active_pixel_list (imageList : list string) (mask : Image T)
    (downscale : Z) (R C : nat) :
  Z.of_nat R <= INT_MAX -> Z.of_nat C <= INT_MAX -> Z.of_nat (R * C) <= INT_MAX ->
  (isRealMask mask = true ->
   let mask' := if 1 <? downscale then downscaleMask mask downscale else mask in
   image_wf R C mask' ->
   exists sel,
     selectPixels readImage downscaleMask downscaleRGB imageList mask downscale = Ok sel
     /\ indexes sel = map Z.of_nat (List.filter (selected mask' R) (seq 0 (R * C)))
     /\ activePixels sel = Ok (indexes sel))
  /\
  (isRealMask mask = false ->
   forall p img, imageList !! 0%nat = Some p -> readImage p = Ok img ->
   image_wf R C (scaledRGB downscaleRGB img downscale) ->
   exists sel,
     selectPixels readImage downscaleMask downscaleRGB imageList mask downscale = Ok sel
     /\ maskSize sel = (R * C)%nat
     /\ activePixels sel = Ok (map Z.of_nat (seq 0 (R * C)))).
Proof.
  intros HR HC HRC. split.
  - intros Hreal mask' Hwf. by apply selectPixels_with_mask.
  - intros Hreal p img Hp Himg Hwf. by eapply selectPixels_without_mask.
Qed.
End ActiveList.

Lemma active_pixel_list_witness :
  let mask : Image F32.t := [[sofZ 1; sofZ 0]; [sofZ 0; sofZ 1]; [sofZ 1; sofZ 1]] in
  exists sel,
    selectPixels (fun _ => Throw io_error) (fun m _ => m) (fun m _ => m) [] mask 1 = Ok sel
    /\ indexes sel = [0; 2; 4; 5]
    /\ activePixels sel = Ok [0; 2; 4; 5].
Proof.
  intros mask.
  destruct (active_pixel_list (fun _ => Throw io_error) (fun m _ => m) (fun m _ => m)
              [] mask 1 3 2) as [Hmask _].
  - vm_compute. discriminate.
  - vm_compute. discriminate.
  - vm_compute. discriminate.
  - destruct Hmask as (sel & Hsel & Hidx & Hact).
    + reflexivity.
    + split; [reflexivity|]. repeat constructor.
    + exists sel. split; [exact Hsel|]. split; [exact Hidx|].
      rewrite Hact. f_equal. exact Hidx.
Defined.

(** ** C5: the iteration budget of the robust refinement *)

Section RobustLoop.
Context {T : Type} `{Scalar T}.
Variable solve : Matrix T -> Matrix T -> Matrix T.
Variables lightMat imMat_gray : Matrix T.

Local Abbreviation step := (robustStep solve lightMat imMat_gray).
Local Abbreviation iterate := (robustIterate solve lightMat imMat_gray).
Local Abbreviation ecart := (ecartAt solve lightMat imMat_gray).

Lemma robustIterate_S n st : iterate (S n) st = iterate n (fst (step st)).
Proof. unfold robustIterate. by rewrite Nat.iter_succ_r. Qed.

Lemma ecartAt_S st k : ecart st (S k) = ecart (fst (step st)) k.
Proof. unfold ecartAt. by rewrite robustIterate_S. Qed.

Lemma ecartAt_0 st : ecart st 0 = snd (step st).
Proof. reflexivity. Qed.

Lemma robustLoop_S fuel k st :
  robustLoop solve lightMat imMat_gray (S fuel) k st
  = let '(st', e) := step st in
    if converged k e then (st', Some k)
    else robustLoop solve lightMat imMat_gray fuel (S k) st'.
Proof. reflexivity. Qed.

(** The loop started at index [k] with [fuel] turns left. *)
Lemma robustLoop_exit (fuel k : nat) (st : RobustState) :
  match robustLoop solve lightMat imMat_gray fuel k st with
  | (st', Some j) =>
      (k <= j < k + fuel)%nat
      /\ converged j (ecart st (j - k)) = true
      /\ (forall i, (k <= i < j)%nat -> converged i (ecart st (i - k)) = false)
      /\ st' = iterate (S (j - k)) st
  | (st', None) =>
      (forall i, (k <= i < k + fuel)%nat -> converged i (ecart st (i - k)) = false)
      /\ st' = iterate fuel st
  end.
Proof.
  revert k st. induction fuel as [|fuel IH]; intros k st.
  - simpl. split; [lia|done].
  - rewrite robustLoop_S.
    destruct (step st) as [st1 e] eqn:Hstep.
    assert (He : ecart st 0 = e) by (by rewrite ecartAt_0, Hstep).
    assert (Hst : fst (step st) = st1) by by rewrite Hstep.
    destruct (converged k e) eqn:Hconv.
    + rewrite Nat.sub_diag, He. repeat split; [lia|lia|done|lia|].
      by rewrite robustIterate_S, Hst.
    + specialize (IH (S k) st1).
      destruct (robustLoop solve lightMat imMat_gray fuel (S k) st1) as [st' [j|]].
      * destruct IH as (Hj & Hcj & Hbefore & Hst').
        assert (Hjk : (j - k = S (j - S k))%nat) by lia.
        repeat split; [lia|lia| | |].
        -- by rewrite Hjk, ecartAt_S, Hst.
        -- intros i Hi. destruct (Nat.eq_dec i k) as [->|Hne].
           ++ by rewrite Nat.sub_diag, He.
           ++ replace (i - k)%nat with (S (i - S k)) by lia.
              rewrite ecartAt_S, Hst. apply Hbefore. lia.
        -- by rewrite Hjk, robustIterate_S, Hst.
      * destruct IH as (Hbefore & Hst'). split.
        -- intros i Hi. destruct (Nat.eq_dec i k) as [->|Hne].
           ++ by rewrite Nat.sub_diag, He.
           ++ replace (i - k)%nat with (S (i - S k)) by lia.
              rewrite ecartAt_S, Hst. apply Hbefore. lia.
        -- by rewrite robustIterate_S, Hst.
Qed.

(** C5.  The relative change measured at turn [k] is the Frobenius norm of
    the difference between the estimates before and after the turn, over
    the norm of the new estimate.  The loop of the robust refinement runs
    [n <= 1000] turns and returns the estimate reached after these [n]
    turns.  It stops early at index [k] exactly when [k] is the first
    index with [k > 10] and a relative change below [epsilon]; if there is
    no such index below 1000 it runs the 1000 turns and returns the
    current estimate. *)
Theorem robust_loop_budget (M_channel : Matrix T) :
  let st0 := robustInit lightMat imMat_gray M_channel in
  let run := robustRefine solve lightMat imMat_gray M_channel in
  (forall k,
     ecart st0 k
     = (mnorm (msub (rs_M (iterate k st0)) (rs_M (iterate (S k) st0)))
        / mnorm (rs_M (iterate (S k) st0)))%sc)
  /\ exists n : nat,
    (n <= 1000)%nat
    /\ fst run = iterate n st0
    /\ match snd run with
       | Some k =>
           n = S k /\ (10 < k < 1000)%nat
           /\ (ecart st0 k <? epsilon)%sc = true
           /\ (forall j, (j < k)%nat ->
                 ~ ((10 < j)%nat /\ (ecart st0 j <? epsilon)%sc = true))
       | None =>
           n = 1000%nat
           /\ (forall j, (j < 1000)%nat ->
                 ~ ((10 < j)%nat /\ (ecart st0 j <? epsilon)%sc = true))
       end.
Proof.
  intros st0 run. subst run. unfold robustRefine. fold st0.
  split; [intros k; reflexivity|].
  pose proof (robustLoop_exit max_iterations 0 st0) as Hexit.
  assert (Hnot : forall j e, converged j e = false ->
            ~ ((10 < j)%nat /\ (e <? epsilon)%sc = true)).
  { intros j e Hc [Hj He]. unfold converged in Hc. rewrite He in Hc.
    apply Nat.ltb_lt in Hj. rewrite Hj in Hc. discriminate. }
  destruct (robustLoop solve lightMat imMat_gray max_iterations 0 st0) as [st' [k|]]; simpl.
  - destruct Hexit as (Hk & Hck & Hbefore & Hst').
    rewrite Nat.sub_0_r in *. unfold max_iterations in Hk.
    unfold converged in Hck. apply andb_prop in Hck as [Hk10 He].
    apply Nat.ltb_lt in Hk10.
    exists (S k). repeat split; [lia|done|lia|lia|done|].
    intros j Hj. apply Hnot. specialize (Hbefore j). rewrite Nat.sub_0_r in Hbefore.
    apply Hbefore. lia.
  - destruct Hexit as (Hbefore & Hst'). unfold max_iterations in *.
    exists 1000%nat. repeat split; [lia|done|].
    intros j Hj. apply Hnot. specialize (Hbefore j). rewrite Nat.sub_0_r in Hbefore.
    apply Hbefore. lia.
Qed.
End RobustLoop.

(** ** C10: the picture list *)

Section SortCorrect.
Context {A : Type} (lt : A -> A -> bool).
Hypothesis lt_asym : forall x y, lt x y = true -> lt y x = false.

Local Abbreviation le := (notAfter lt).

Lemma sort_insert_HdRel x a l :
  le a x -> HdRel le a l -> HdRel le a (sort_insert lt x l).
Proof.
  intros Hax Hal. destruct l as [|y l]; simpl; [by constructor|].
  destruct (lt x y); constructor; [done|]. by inversion Hal.
Qed.

Lemma sort_insert_Sorted x l : Sorted le l -> Sorted le (sort_insert lt x l).
Proof.
  induction l as [|y l IH]; intros Hs; simpl.
  - repeat constructor.
  - destruct (lt x y) eqn:Hxy.
    + constructor; [done|]. constructor. by apply lt_asym.
    + inversion Hs; subst. constructor; [by apply IH|].
      by apply sort_insert_HdRel.
Qed.

Lemma std_sort_Sorted l : Sorted le (std_sort lt l).
Proof.
  induction l as [|x l IH]; simpl; [constructor|].
  by apply sort_insert_Sorted.
Qed.
End SortCorrect.

Lemma string_ltb_lt a b :
  String.ltb a b = true <-> OrderedTypeEx.String_as_OT.lt a b.
Proof.
  rewrite <- OrderedTypeEx.String_as_OT.cmp_lt.
  unfold String.ltb, OrderedTypeEx.String_as_OT.cmp.
  destruct (String.compare a b); split; congruence.
Qed.

Lemma string_ltb_asym a b : String.ltb a b = true -> String.ltb b a = false.
Proof.
  unfold String.ltb. rewrite (String.compare_antisym a b).
  destruct (String.compare b a); simpl; congruence.
Qed.

Lemma string_ltb_leb a b : String.ltb b a = false <-> pathLe a b.
Proof.
  unfold pathLe, String.ltb, String.leb. rewrite (String.compare_antisym a b).
  destruct (String.compare b a); simpl; split; congruence.
Qed.

Lemma pathLe_cases a b : pathLe a b <-> a = b \/ String.ltb a b = true.
Proof.
  unfold pathLe, String.leb, String.ltb.
  destruct (String.compare a b) eqn:Hc; split; try tauto; try congruence.
  - intros _. left. by apply String.compare_eq_iff.
  - intros [->|?]; [|congruence].
    pose proof (String.compare_antisym b b) as Ha. rewrite Hc in Ha. discriminate.
Qed.

#[local] Instance pathLe_trans : Transitive pathLe.
Proof.
  intros a b c Hab Hbc. apply pathLe_cases in Hab, Hbc. apply pathLe_cases.
  destruct Hab as [->|Hab]; [done|]. destruct Hbc as [<-|Hbc]; [by right|].
  right. apply string_ltb_lt. apply string_ltb_lt in Hab, Hbc.
  eapply OrderedTypeEx.String_as_OT.lt_trans; eassumption.
Qed.

#[local] Instance pathLe_antisym : AntiSymm (=) pathLe.
Proof. intros a b Hab Hba. by apply String.leb_antisym. Qed.

Lemma Sorted_weaken {A} (R R' : A -> A -> Prop) l :
  (forall a b, R a b -> R' a b) -> Sorted R l -> Sorted R' l.
Proof.
  intros HR. induction 1 as [|a l Hs IH Hhd]; constructor; [done|].
  destruct Hhd; constructor. by apply HR.
Qed.

Lemma std_sort_paths_sorted l : StronglySorted pathLe (std_sort compareFunction l).
Proof.
  apply Sorted_StronglySorted; [apply pathLe_trans|].
  eapply Sorted_weaken.
  2:{ apply (std_sort_Sorted compareFunction). intros x y. apply string_ltb_asym. }
  intros a b. simpl. apply string_ltb_leb.
Qed.

Lemma std_sort_paths_perm l1 l2 :
  l1 ≡ₚ l2 -> std_sort compareFunction l1 = std_sort compareFunction l2.
Proof.
  intros Hp. apply (StronglySorted_unique pathLe); try apply std_sort_paths_sorted.
  by rewrite !std_sort_Permutation.
Qed.

(** The list pushed by the directory loop, before sorting. *)
Lemma getPicturesNames_pushed (extensions entries imageList : list string) :
  getPicturesNames extensions entries imageList
  = std_sort compareFunction
      (imageList ++
       flat_map (fun p =>
         if negb (Boost.icontains (Boost.stem p) "mask")
            && negb (Boost.icontains (Boost.stem p) "ambiant")
         then map (fun _ => p)
                  (List.filter (String.eqb (Boost.to_lower (Boost.extension p))) extensions)
         else []) entries).
Proof.
  unfold getPicturesNames. f_equal.
  rewrite flat_map_concat_map, <- foldl_push_all.
  apply foldl_ext_in. intros acc p _.
  destruct (_ && _); [|by rewrite app_nil_r].
  apply foldl_push_if.
Qed.

Lemma existsb_filter_nil {A} (f : A -> bool) l :
  existsb f l = false -> List.filter f l = [].
Proof.
  induction l as [|a l IH]; simpl; [done|].
  destruct (f a); simpl; [discriminate|done].
Qed.

Lemma filter_eqb_NoDup (x : string) l :
  NoDup l -> existsb (String.eqb x) l = true -> List.filter (String.eqb x) l = [x].
Proof.
  induction 1 as [|a l Hnotin Hnd IH]; simpl; [discriminate|].
  destruct (String.eqb_spec x a) as [->|Hne]; simpl.
  - intros _. f_equal. apply existsb_filter_nil.
    destruct (existsb (String.eqb a) l) eqn:He; [|done].
    apply existsb_exists in He as (y & Hy & Heq).
    apply String.eqb_eq in Heq as <-. by apply list_elem_of_In in Hy.
  - done.
Qed.

Lemma pushed_once (extensions : list string) (q : string) :
  NoDup extensions ->
  (if negb (Boost.icontains (Boost.stem q) "mask")
      && negb (Boost.icontains (Boost.stem q) "ambiant")
   then map (fun _ => q)
            (List.filter (String.eqb (Boost.to_lower (Boost.extension q))) extensions)
   else [])
  = if keepPicture extensions q then [q] else [].
Proof.
  intros Hnd. unfold keepPicture.
  destruct (negb (Boost.icontains (Boost.stem q) "mask")
            && negb (Boost.icontains (Boost.stem q) "ambiant")); simpl; [|done].
  destruct (existsb (String.eqb (Boost.to_lower (Boost.extension q))) extensions) eqn:Hext.
  - by rewrite filter_eqb_NoDup.
  - by rewrite existsb_filter_nil.
Qed.

Lemma pushed_elem (extensions entries : list string) (p : string) :
  p ∈ flat_map (fun p =>
        if negb (Boost.icontains (Boost.stem p) "mask")
           && negb (Boost.icontains (Boost.stem p) "ambiant")
        then map (fun _ => p)
                 (List.filter (String.eqb (Boost.to_lower (Boost.extension p))) extensions)
        else []) entries
  <-> p ∈ entries /\ keepPicture extensions p = true.
Proof.
  rewrite list_elem_of_In, in_flat_map. split.
  - intros (q & Hq & Hp). unfold keepPicture.
    destruct (negb (Boost.icontains (Boost.stem q) "mask")
              && negb (Boost.icontains (Boost.stem q) "ambiant")) eqn:Hok; [|done].
    apply in_map_iff in Hp as (e & -> & He). rewrite Hok. simpl.
    apply filter_In in He as [He Heq].
    split; [by apply list_elem_of_In|]. apply existsb_exists. by exists e.
  - intros [Hin Hkeep]. exists p. split; [by apply list_elem_of_In|].
    unfold keepPicture in Hkeep. apply andb_prop in Hkeep as [Hok Hext]. rewrite Hok.
    apply existsb_exists in Hext as (e & He & Heq).
    apply in_map_iff. exists e. split; [done|]. by apply filter_In.
Qed.

Lemma getPicturesNames_elem (extensions entries : list string) (p : string) :
  p ∈ getPicturesNames extensions entries []
  <-> p ∈ entries /\ keepPicture extensions p = true.
Proof.
  rewrite getPicturesNames_pushed. simpl. rewrite std_sort_Permutation.
  apply pushed_elem.
Qed.

(** In the folder entry point the image list comes from [getPicturesNames],
    which holds no "ambiant" picture: no ambient picture is ever found,
    whatever [removeAmbiant]. *)
Lemma folder_entry_finds_no_ambiant (removeAmbiant : bool)
    (extensions entries : list string) :
  findAmbiant removeAmbiant (getPicturesNames extensions entries []) = EmptyString.
Proof.
  unfold findAmbiant. destruct removeAmbiant; [|done].
  assert (Hall : Forall (fun p => Boost.icontains (Boost.stem p) "ambiant" = false)
                        (getPicturesNames extensions entries [])).
  { apply Forall_forall. intros p Hp. apply getPicturesNames_elem in Hp as [_ Hkeep].
    unfold keepPicture in Hkeep.
    apply andb_prop in Hkeep as [Hok _]. apply andb_prop in Hok as [_ Hamb].
    by apply negb_true_iff in Hamb. }
  induction Hall as [|p l Hp _ IH]; simpl; [done|]. by rewrite Hp.
Qed.

(** C10.  The list returned by [getPicturesNames] (called on an empty list)
    contains exactly the directory entries that [keepPicture] keeps, once
    each when the supported extensions are listed without repetition; it
    is sorted in ascending order of the full path; and it does not depend
    on the order in which the directory is enumerated. *)
Theorem getPicturesNames_sorted_selection (extensions entries : list string) :
  let names := getPicturesNames extensions entries [] in
  (forall p, p ∈ names <-> p ∈ entries /\ keepPicture extensions p = true)
  /\ (NoDup extensions -> names ≡ₚ List.filter (keepPicture extensions) entries)
  /\ StronglySorted pathLe names
  /\ (forall entries', entries' ≡ₚ entries ->
        getPicturesNames extensions entries' [] = names).
Proof.
  intros names. subst names.
  split; [intros p; apply getPicturesNames_elem|].
  rewrite getPicturesNames_pushed. simpl.
  split; [|split].
  - intros Hnd. rewrite std_sort_Permutation.
    induction entries as [|q entries IH]; [done|].
    cbn [flat_map List.filter]. rewrite pushed_once by done.
    destruct (keepPicture extensions q); simpl; [by constructor|done].
  - apply std_sort_paths_sorted.
  - intros entries' Hperm. rewrite getPicturesNames_pushed. simpl.
    apply std_sort_paths_perm. by apply Permutation_flat_map.
Qed.

(** ** C9: subtracting a zero ambient picture *)

Lemma f32_sub_pzero (x : F32.t) : (x - F32.pzero)%sc = x.
Proof. destruct x as [[]|[]| |[] m e]; reflexivity. Qed.

(** The same subtraction with negative zeros: [-0.0 - -0.0] is [+0.0]. *)
Lemma f32_sub_nzero :
  (S754_zero true - S754_zero true)%sc = F32.pzero :> F32.t.
Proof. reflexivity. Qed.

Lemma zip_with_replicate_r {A B} (f : A -> B -> A) (z : B) (l : list A) (n : nat) :
  (forall a, f a z = a) -> length l = n -> zip_with f l (replicate n z) = l.
Proof.
  intros Hf. revert n. induction l as [|a l IH]; intros [|n] Hn; simpl in *; try done.
  rewrite Hf, IH; [done|lia].
Qed.

Lemma forM_ext {A S} (f g : S -> A -> result S) (l : list A) (s : S) :
  (forall s a, a ∈ l -> f s a = g s a) -> forM f l s = forM g l s.
Proof.
  revert s. induction l as [|a l IH]; intros s Hfg; simpl; [done|].
  rewrite Hfg by left. destruct (g s a); simpl; [|done].
  apply IH. intros s' a' Ha'. apply Hfg. by right.
Qed.

Lemma collectViews_fst (b : bool) (views : list string) (acc : list string) (p : string) :
  fst (foldl (fun st imagePath =>
                if negb (Boost.icontains (Boost.stem imagePath) "ambiant")
                then (fst st ++ [imagePath], snd st)
                else if b then (fst st, imagePath) else st) (acc, p) views)
  = acc ++ List.filter (fun v => negb (Boost.icontains (Boost.stem v) "ambiant")) views.
Proof.
  revert acc p. induction views as [|v views IH]; intros acc p; simpl.
  - by rewrite app_nil_r.
  - destruct (negb (Boost.icontains (Boost.stem v) "ambiant")); simpl.
    + by rewrite IH, <- app_assoc.
    + destruct b; simpl; apply IH.
Qed.

Lemma collectViews_off_snd (views : list string) (acc : list string) (p : string) :
  snd (foldl (fun st imagePath =>
                if negb (Boost.icontains (Boost.stem imagePath) "ambiant")
                then (fst st ++ [imagePath], snd st)
                else if false then (fst st, imagePath) else st) (acc, p) views)
  = p.
Proof.
  revert acc. induction views as [|v views IH]; intros acc; simpl; [done|].
  destruct (negb (Boost.icontains (Boost.stem v) "ambiant")); simpl; apply IH.
Qed.

Lemma collectViews_images (b : bool) (views : list string) (p : string) :
  fst (collectViews b views p)
  = List.filter (fun v => negb (Boost.icontains (Boost.stem v) "ambiant")) views.
Proof. unfold collectViews. by rewrite collectViews_fst. Qed.

Lemma collectViews_off (views : list string) (p : string) :
  snd (collectViews false views p) = p.
Proof. unfold collectViews. apply collectViews_off_snd. Qed.

Section ZeroAmbiant.
Variable solve : Matrix F32.t -> Matrix F32.t -> Matrix F32.t.
Variable readImage : string -> result (Image (Rgb F32.t)).
Variable downscaleMask : Image F32.t -> Z -> Image F32.t.
Variable downscaleRGB : Image (Rgb F32.t) -> Z -> Image (Rgb F32.t).

Lemma image_sub_black (img : Image (Rgb F32.t)) (h w : nat) :
  image_wf h w img -> image_sub img (blackImage h w) = img.
Proof.
  intros [Hh Hw]. unfold image_sub, blackImage. revert h Hh.
  induction Hw as [|row img Hrow _ IH]; intros [|h] Hh; simpl in *; try done.
  rewrite IH by lia. f_equal.
  apply zip_with_replicate_r; [|done].
  intros [r g b]. unfold rgb_zip. cbn [red green blue]. f_equal; apply f32_sub_pzero.
Qed.

Lemma observations_zero_ambiant (imageList : list string) (intList : list (Rgb F32.t))
    (sel : Selection) (pathToAmbiant : string) (downscale : Z) (h w : nat) :
  (ambiantRequested pathToAmbiant = true ->
   exists amb, readImage pathToAmbiant = Ok amb
               /\ scaledRGB downscaleRGB amb downscale = blackImage h w) ->
  (forall p img, p ∈ imageList -> readImage p = Ok img ->
     image_wf h w (scaledRGB downscaleRGB img downscale)) ->
  observationMatrices readImage downscaleRGB imageList intList sel pathToAmbiant downscale
  = observationMatrices readImage downscaleRGB imageList intList sel "" downscale.
Proof.
  intros Hamb Hdims. unfold observationMatrices, rawObservations, loadAmbiant.
  change (ambiantRequested "") with false.
  destruct (ambiantRequested pathToAmbiant) eqn:Hreq.
  - destruct (Hamb eq_refl) as (amb & Hread & Hzero).
    rewrite Hread. simpl. rewrite Hzero. f_equal. apply forM_ext.
    intros [imMat imMat_gray] i Hi. unfold readPicture.
    change (ambiantRequested "") with false. rewrite Hreq.
    unfold vector_at. destruct (imageList !! i) as [p|] eqn:Hp; simpl; [|done].
    destruct (readImage p) as [img|e] eqn:Himg; simpl; [|done].
    rewrite image_sub_black; [done|].
    eapply Hdims; [|exact Himg]. by eapply list_elem_of_lookup_2.
  - simpl. f_equal. apply forM_ext.
    intros [imMat imMat_gray] i Hi. unfold readPicture.
    change (ambiantRequested "") with false. by rewrite Hreq.
Qed.

(** C9 (as the code has it).  For the views of a pose: when the ambient
    picture (if the views hold one) is readable, is, after downscaling, of
    the size of the pictures and has every channel of every pixel equal to
    [+0.0], the solve with ambient removal works on the same image list
    and produces bit-identical observation matrices, and so the same
    result, as the solve without ambient removal. *)
Theorem zero_ambiant_same_observations (views : list string)
    (intList : list (Rgb F32.t)) (lightMat : Matrix F32.t) (mask : Image F32.t)
    (isRobust : bool) (downscale : Z) (h w : nat) :
  let on := collectViews true views "" in
  let off := collectViews false views "" in
  (ambiantRequested (snd on) = true ->
   exists amb, readImage (snd on) = Ok amb
               /\ scaledRGB downscaleRGB amb downscale = blackImage h w) ->
  (forall p img, p ∈ fst on -> readImage p = Ok img ->
     image_wf h w (scaledRGB downscaleRGB img downscale)) ->
  fst on = fst off
  /\ snd off = ""%string
  /\ (forall sel,
        observationMatrices readImage downscaleRGB (fst on) intList sel (snd on) downscale
        = observationMatrices readImage downscaleRGB (fst off) intList sel (snd off) downscale)
  /\ photometricStereo solve readImage downscaleMask downscaleRGB
       (fst on) intList lightMat mask (snd on) isRobust downscale
     = photometricStereo solve readImage downscaleMask downscaleRGB
       (fst off) intList lightMat mask (snd off) isRobust downscale.
Proof.
  intros on off Hamb Hdims.
  assert (Hfst : fst on = fst off).
  { subst on off. by rewrite !collectViews_images. }
  assert (Hsnd : snd off = ""%string).
  { subst off. apply collectViews_off. }
  assert (Hobs : forall sel,
    observationMatrices readImage downscaleRGB (fst on) intList sel (snd on) downscale
    = observationMatrices readImage downscaleRGB (fst off) intList sel (snd off) downscale).
  { intros sel. rewrite <- Hfst, Hsnd. by eapply observations_zero_ambiant. }
  split; [exact Hfst|]. split; [exact Hsnd|]. split; [exact Hobs|].
  unfold photometricStereo. rewrite <- Hfst.
  destruct (selectPixels _ _ _ _ _ _) as [sel|e]; [|reflexivity].
  cbn [rbind]. rewrite <- Hfst in Hobs. rewrite Hobs. reflexivity.
Qed.
End ZeroAmbiant.

Lemma zero_ambiant_same_observations_witness :
  let views := ["a.png"; "ambiant.png"; "b.png"; "c.png"]%string in
  photometricStereo Sample.solveIdentity Sample.readLitAndDark Sample.keepScale Sample.keepScale
    (fst (collectViews true views "")) Sample.unitIntensities Sample.I3 Sample.noMask
    (snd (collectViews true views "")) false 1
  = photometricStereo Sample.solveIdentity Sample.readLitAndDark Sample.keepScale Sample.keepScale
    (fst (collectViews false views "")) Sample.unitIntensities Sample.I3 Sample.noMask
    (snd (collectViews false views "")) false 1.
Proof.
  intros views.
  refine (proj2 (proj2 (proj2 (zero_ambiant_same_observations
            Sample.solveIdentity Sample.readLitAndDark Sample.keepScale Sample.keepScale
            views Sample.unitIntensities Sample.I3 Sample.noMask false 1 1 2 _ _)))).
  - intros _. exists (blackImage 1 2). split; reflexivity.
  - intros p img _ Hread. unfold Sample.readLitAndDark in Hread.
    destruct (String.eqb p "ambiant.png"); injection Hread as <-;
      (split; [reflexivity|repeat constructor]).
Defined.

(** An ambient picture whose channels are all [-0.0], and so all equal to
    zero for [==]: a pixel [-0.0] of a picture becomes [+0.0] when the
    ambient picture is subtracted and stays [-0.0] when it is not, so the
    observation matrices differ. *)
Lemma negative_zero_ambiant_changes_observations :
  let views := ["a.png"; "ambiant.png"; "b.png"; "c.png"]%string in
  let on := collectViews true views "" in
  let off := collectViews false views "" in
  exists amb sel,
    Sample.readNegativeZeros (snd on) = Ok amb
    /\ Forall (Forall (fun px => (red px =? szero)%sc = true
                                 /\ (green px =? szero)%sc = true
                                 /\ (blue px =? szero)%sc = true)) amb
    /\ fst on = fst off
    /\ selectPixels Sample.readNegativeZeros Sample.keepScale Sample.keepScale
         (fst on) Sample.noMask 1 = Ok sel
    /\ observationMatrices Sample.readNegativeZeros Sample.keepScale
         (fst on) Sample.unitIntensities sel (snd on) 1
       <> observationMatrices Sample.readNegativeZeros Sample.keepScale
            (fst off) Sample.unitIntensities sel (snd off) 1.
Proof.
  intros views on off. eexists. eexists.
  split; [vm_compute; reflexivity|].
  split; [repeat constructor|].
  split; [reflexivity|].
  split; [vm_compute; reflexivity|].
  vm_compute. intros Heq. discriminate Heq.
Qed.

(** ** C4: no check of the rank of the light matrix *)

Lemma forM_ok {A S} (f : S -> A -> result S) (l : list A) (s : S) :
  (forall s a, a ∈ l -> exists s', f s a = Ok s') -> exists s', forM f l s = Ok s'.
Proof.
  revert s. induction l as [|a l IH]; intros s Hf; simpl; [by eexists|].
  destruct (Hf s a) as [s1 Hs1]; [left|]. rewrite Hs1. simpl.
  apply IH. intros s' a' Ha'. apply Hf. by right.
Qed.

Section Totality.
Context {T : Type} `{Scalar T}.
Variable solve : Matrix T -> Matrix T -> Matrix T.
Variable readImage : string -> result (Image (Rgb T)).
Variable downscaleMask : Image T -> Z -> Image T.
Variable downscaleRGB : Image (Rgb T) -> Z -> Image (Rgb T).

Lemma selectPixels_ok imageList mask downscale sel :
  selectPixels readImage downscaleMask downscaleRGB imageList mask downscale = Ok sel ->
  selection_ok sel.
Proof.
  unfold selectPixels. destruct (isRealMask mask).
  - intros [= <-]. by intros _.
  - destruct (vector_at imageList 0) as [p|]; simpl; [|done].
    destruct (readImage p); simpl; [|done]. intros [= <-]. by intros ?.
Qed.

Lemma currentIdx_ok (sel : Selection (T := T)) i :
  selection_ok sel -> (i < maskSize sel)%nat -> exists idx, currentIdx sel i = Ok idx.
Proof.
  intros Hsel Hi. unfold currentIdx. destruct (hasMask sel) eqn:Hm; [|by eexists].
  rewrite (Hsel Hm) in Hi. unfold vector_at.
  destruct (lookup_lt_is_Some_2 (indexes sel) i Hi) as [idx ->]. by eexists.
Qed.

Lemma forM_pixels_ok {S} (sel : Selection (T := T)) (g : S -> nat -> Z -> S) (s : S) :
  selection_ok sel ->
  exists s', forM (fun s i => rbind (currentIdx sel i) (fun idx => Ok (g s i idx)))
                  (seq 0 (maskSize sel)) s = Ok s'.
Proof.
  intros Hsel. apply forM_ok. intros s0 i Hi. apply list_elem_of_In, in_seq in Hi.
  destruct (currentIdx_ok sel i Hsel) as [idx ->]; [lia|]. by eexists.
Qed.

Lemma scatterNormals_total (sel : Selection (T := T)) M normalsVect :
  selection_ok sel -> exists nv, scatterNormals sel M normalsVect = Ok nv.
Proof.
  intros Hsel.
  apply (forM_pixels_ok sel
           (fun nv i idx => setCol nv idx (vdivs (mcol M i) (vnorm (mcol M i))))).
  done.
Qed.

Lemma rawObservations_total imageList intList (sel : Selection (T := T)) pathToAmbiant
    downscale :
  (forall p, p ∈ imageList -> exists img, readImage p = Ok img) ->
  (ambiantRequested pathToAmbiant = true -> exists img, readImage pathToAmbiant = Ok img) ->
  (length imageList <= length intList)%nat ->
  exists raw,
    rawObservations readImage downscaleRGB imageList intList sel pathToAmbiant downscale
    = Ok raw.
Proof.
  intros Hread Hamb Hint. unfold rawObservations.
  assert (exists amb, loadAmbiant readImage downscaleRGB pathToAmbiant downscale = Ok amb)
    as [amb ->].
  { unfold loadAmbiant. destruct (ambiantRequested pathToAmbiant); [|by eexists].
    destruct Hamb as [img ->]; [done|]. by eexists. }
  cbn [rbind]. apply forM_ok.
  intros [imMat imMat_gray] i Hi. apply list_elem_of_In, in_seq in Hi.
  unfold readPicture, vector_at.
  destruct (lookup_lt_is_Some_2 imageList i) as [p Hp]; [lia|]. rewrite Hp. simpl.
  destruct (Hread p) as [img ->]; [by eapply list_elem_of_lookup_2|]. simpl.
  destruct (lookup_lt_is_Some_2 intList i) as [int ->]; [lia|]. simpl. by eexists.
Qed.
End Totality.


(** ** C7: the normalisation by the maximum *)

Lemma normalizeMax_Ok {T} `{Scalar T} (M N : Matrix T) :
  normalizeMax M = Ok N <-> exists m, maxCoeff M = Some m /\ N = mdivs M m.
Proof.
  unfold normalizeMax. destruct (maxCoeff M) as [m|]; split.
  - intros [= <-]. by exists m.
  - by intros (m' & [= <-] & ->).
  - done.
  - by intros (m' & ? & _).
Qed.

Section RealMax.
Local Open Scope R_scope.

Lemma foldl_std_max_ge (l : list R) (x : R) : x <= foldl (std_max (T := R)) x l.
Proof.
  revert x. induction l as [|a l IH]; intros x; simpl; [lra|].
  etransitivity; [|apply IH]. rewrite Rideal_std_max. apply Rmax_l.
Qed.

Lemma foldl_std_max_bound (l : list R) (x : R) :
  Forall (fun a => a <= foldl (std_max (T := R)) x l) l.
Proof.
  revert x. induction l as [|a l IH]; intros x; simpl; constructor.
  - etransitivity; [|apply foldl_std_max_ge]. rewrite Rideal_std_max. apply Rmax_r.
  - apply IH.
Qed.

Lemma foldl_std_max_in (l : list R) (x : R) :
  foldl (std_max (T := R)) x l = x \/ foldl (std_max (T := R)) x l ∈ l.
Proof.
  revert x. induction l as [|a l IH]; intros x; simpl; [by left|].
  destruct (IH (std_max x a)) as [->|Hin].
  - rewrite Rideal_std_max. unfold Rmax. destruct (Rle_dec x a); [right; left|by left].
  - right. by right.
Qed.

(** Over the reals [maxCoeff] is the greatest coefficient. *)
Lemma maxCoeff_greatest (M : Matrix R) (m : R) :
  maxCoeff M = Some m <-> m ∈ concat M /\ Forall (fun x => x <= m) (concat M).
Proof.
  unfold maxCoeff. destruct (concat M) as [|x l] eqn:Hl.
  - split; [done|]. intros [Hin _]. by apply elem_of_nil in Hin.
  - split.
    + intros [= <-]. split.
      * destruct (foldl_std_max_in l x) as [->|Hin]; [left|by right].
      * constructor; [apply foldl_std_max_ge|apply foldl_std_max_bound].
    + intros [Hin Hall]. f_equal. apply Rle_antisym.
      * destruct (foldl_std_max_in l x) as [->|Hin'].
        -- by inversion Hall.
        -- inversion Hall as [|? ? _ Hall']; subst.
           rewrite Forall_forall in Hall'. by apply Hall'.
      * apply elem_of_cons in Hin as [->|Hin]; [apply foldl_std_max_ge|].
        pose proof (foldl_std_max_bound l x) as Hb. rewrite Forall_forall in Hb.
        by apply Hb.
Qed.

Lemma concat_mmap (f : R -> R) (M : Matrix R) : concat (mmap f M) = map f (concat M).
Proof.
  unfold mmap. induction M as [|c M IH]; simpl; [done|].
  by rewrite IH, map_app.
Qed.

(** Dividing by a positive maximum brings the maximum to one. *)
Lemma normalizeMax_one (M N : Matrix R) (m : R) :
  normalizeMax M = Ok N -> maxCoeff M = Some m -> 0 < m -> maxCoeff N = Some 1.
Proof.
  intros Hnorm Hmax Hpos. unfold normalizeMax in Hnorm. rewrite Hmax in Hnorm.
  injection Hnorm as <-.
  apply maxCoeff_greatest in Hmax as [Hin Hall].
  apply maxCoeff_greatest. unfold mdivs. rewrite concat_mmap. split.
  - apply list_elem_of_In, in_map_iff. exists m. split; [|by apply list_elem_of_In].
    simpl. field. lra.
  - apply Forall_map. eapply Forall_impl; [exact Hall|].
    intros x Hx. simpl. unfold Rdiv. apply (Rmult_le_reg_r m); [lra|].
    rewrite Rmult_assoc, Rinv_l by lra. lra.
Qed.
End RealMax.

(** ** The layout of the pictures *)

Section Layout.
Context {T : Type} `{Scalar T}.

Lemma colZ_nat (M : Matrix T) (k : nat) : colZ M (Z.of_nat k) = mcol M k.
Proof.
  unfold colZ, mcol. destruct (Z.leb_spec 0 (Z.of_nat k)); [|lia]. by rewrite Nat2Z.id.
Qed.

Lemma reshapeInImage_pixel (M : Matrix T) (R C i j : nat) (d d0 : Rgb T) :
  Z.of_nat R <= INT_MAX -> Z.of_nat C <= INT_MAX -> Z.of_nat (R * C) <= INT_MAX ->
  (i < R)%nat -> (j < C)%nat ->
  pixel d (reshapeInImage M (newImage d0 (Z.of_nat C) (Z.of_nat R))) (Z.of_nat i) (Z.of_nat j)
  = let c := mcol M (j * R + i) in
    mkRgb (default szero (c !! 0%nat)) (default szero (c !! 1%nat))
          (default szero (c !! 2%nat)).
Proof.
  intros HR HC HRC Hi Hj.
  pose proof (newImage_wf d0 R C) as Hwf.
  destruct (image_wf_row R C _ i Hwf Hi) as (row & Hrow & Hlen).
  destruct (lookup_lt_is_Some_2 row j) as [old Hold]; [lia|].
  unfold reshapeInImage.
  rewrite (image_wf_irows R C), (image_wf_icols R C) by (done || lia).
  erewrite pixel_lookup.
  2:{ rewrite list_lookup_imap, Hrow. reflexivity. }
  2:{ rewrite list_lookup_imap, Hold. reflexivity. }
  destruct (Z.ltb_spec (Z.of_nat i) (Z.of_nat R)); [|lia].
  destruct (Z.ltb_spec (Z.of_nat j) (Z.of_nat C)); [|lia].
  simpl. rewrite <- Nat2Z.inj_mul, <- Nat2Z.inj_add.
  rewrite wrap_int_nat, colZ_nat; [done|]. unfold INT_MAX in *. nia.
Qed.

Variable readImage : string -> result (Image (Rgb T)).
Variable downscaleMask : Image T -> Z -> Image T.
Variable downscaleRGB : Image (Rgb T) -> Z -> Image (Rgb T).

Lemma NoDup_filter_seq (P : nat -> bool) (n : nat) : NoDup (List.filter P (seq 0 n)).
Proof. apply NoDup_ListNoDup, List.NoDup_filter, seq_NoDup. Qed.

Lemma selectPixels_layout (imageList : list string) (mask : Image T)
    (downscale : Z) (R C : nat) (sel : Selection) :
  Z.of_nat R <= INT_MAX -> Z.of_nat C <= INT_MAX -> Z.of_nat (R * C) <= INT_MAX ->
  pictureShape readImage downscaleMask downscaleRGB imageList mask downscale R C ->
  selectPixels readImage downscaleMask downscaleRGB imageList mask downscale = Ok sel ->
  layout sel R C.
Proof.
  intros HR HC HRC Hshape Hsel. unfold pictureShape in Hshape.
  destruct (isRealMask mask) eqn:Hreal.
  - destruct (selectPixels_with_mask readImage downscaleMask downscaleRGB imageList mask
                downscale R C HR HC HRC Hreal Hshape) as (sel' & Hsel' & Hidx & Hact).
    rewrite Hsel in Hsel'. injection Hsel' as <-.
    unfold selectPixels in Hsel. rewrite Hreal in Hsel. injection Hsel as <-.
    unfold layout, pixelCount. simpl.
    split; [by apply (image_wf_irows R C)|].
    split; [intros HR0; by apply (image_wf_icols R C)|].
    split; [by apply (image_wf_area R C)|].
    simpl in Hidx, Hact.
    eexists. split; [rewrite Hact; f_equal; exact Hidx|].
    split; [by rewrite Hidx, length_map|].
    split; [apply NoDup_filter_seq|].
    apply Forall_forall. intros k Hk. apply list_elem_of_In, filter_In in Hk as [Hk _].
    apply in_seq in Hk. lia.
  - destruct Hshape as (p & img & Hp & Himg & Hwf).
    destruct (selectPixels_without_mask readImage downscaleMask downscaleRGB imageList mask
                downscale R C HR HC HRC Hreal p img Hp Himg Hwf) as (sel' & Hsel' & Hsz & Hact).
    rewrite Hsel in Hsel'. injection Hsel' as <-.
    unfold selectPixels, vector_at in Hsel. rewrite Hreal, Hp in Hsel. simpl in Hsel.
    rewrite Himg in Hsel. simpl in Hsel. injection Hsel as <-.
    unfold layout, pixelCount. simpl.
    split; [by apply (image_wf_irows R C)|].
    split; [intros HR0; by apply (image_wf_icols R C)|].
    split; [by apply (image_wf_area R C)|].
    exists (seq 0 (R * C)). split; [exact Hact|].
    split; [by rewrite length_seq|].
    split; [apply NoDup_ListNoDup, seq_NoDup|].
    apply Forall_forall. intros k Hk. apply list_elem_of_In, in_seq in Hk. lia.
Qed.
End Layout.

(** ** The steps of the solve *)

Lemma rbind_Ok {A B} (m : result A) (k : A -> result B) (b : B) :
  rbind m k = Ok b -> exists a, m = Ok a /\ k a = Ok b.
Proof. destruct m as [a|e]; simpl; [|done]. intros Hk. by exists a. Qed.

Lemma forM_invariant {A S} (P : S -> Prop) (f : S -> A -> result S) (l : list A) (s s' : S) :
  (forall s a s', a ∈ l -> P s -> f s a = Ok s' -> P s') ->
  P s -> forM f l s = Ok s' -> P s'.
Proof.
  revert s. induction l as [|a l IH]; intros s Hf Hs; simpl.
  - by intros [= <-].
  - intros Hrun. apply rbind_Ok in Hrun as (s1 & Hs1 & Hrun).
    apply (IH s1); [|by eapply Hf; [left|exact Hs|exact Hs1]|done].
    intros s2 a2 s3 Ha2. apply Hf. by right.
Qed.

Section Steps.
Context {T : Type} `{Scalar T}.
Variable solve : Matrix T -> Matrix T -> Matrix T.
Variable readImage : string -> result (Image (Rgb T)).
Variable downscaleMask : Image T -> Z -> Image T.
Variable downscaleRGB : Image (Rgb T) -> Z -> Image (Rgb T).

Lemma photometricStereo_steps (imageList : list string) (intList : list (Rgb T))
    (lightMat : Matrix T) (mask : Image T) (pathToAmbiant : string)
    (isRobust : bool) (downscale : Z) (r : Solved) :
  photometricStereo solve readImage downscaleMask downscaleRGB
    imageList intList lightMat mask pathToAmbiant isRobust downscale = Ok r ->
  let sel := tr_sel r in
  let first := solve lightMat (tr_imMat_gray r) in
  selectPixels readImage downscaleMask downscaleRGB imageList mask downscale = Ok sel
  /\ observationMatrices readImage downscaleRGB imageList intList sel pathToAmbiant downscale
     = Ok (tr_imMat r, tr_imMat_gray r)
  /\ (exists nv0,
        scatterNormals sel first (mZero (mcols lightMat) (pixelCount sel)) = Ok nv0
        /\ if isRobust
           then tr_M r = rs_M (fst (robustRefine solve lightMat (tr_imMat_gray r) first))
                /\ scatterNormals sel (tr_M r) nv0 = Ok (tr_normalsVect r)
           else tr_M r = first /\ tr_normalsVect r = nv0)
  /\ (if isRobust
      then forM (robustAlbedoChannel sel lightMat (tr_imMat r) (tr_normalsVect r)
                   (length imageList)) (seq 0 3) (mZero 3 (pixelCount sel))
           = Ok (tr_albedoRaw r)
      else forM (plainAlbedoChannel solve sel lightMat (tr_imMat r) (length imageList))
                (seq 0 3) (mZero 3 (pixelCount sel))
           = Ok (tr_albedoRaw r))
  /\ normalizeMax (tr_albedoRaw r) = Ok (tr_albedoVect r)
  /\ out_normals r
     = reshapeInImage (tr_normalsVect r) (newImage rgb_zero (pictCols sel) (pictRows sel))
  /\ out_albedo r
     = reshapeInImage (tr_albedoVect r) (newImage rgb_zero (pictCols sel) (pictRows sel)).
Proof.
  unfold photometricStereo. intros Hrun.
  apply rbind_Ok in Hrun as (sel & Hsel & Hrun).
  apply rbind_Ok in Hrun as ([imMat imMat_gray] & Hobs & Hrun).
  apply rbind_Ok in Hrun as (nv0 & Hnv0 & Hrun).
  apply rbind_Ok in Hrun as ([[[M_final nv] alb] conv] & Hest & Hrun).
  apply rbind_Ok in Hrun as (albedoNorm & Hnorm & Hrun).
  injection Hrun as <-.
  cbn [tr_sel tr_imMat tr_imMat_gray tr_M tr_normalsVect tr_albedoRaw tr_albedoVect
       out_normals out_albedo].
  split; [exact Hsel|]. split; [exact Hobs|].
  destruct isRobust.
  - destruct (robustRefine solve lightMat imMat_gray (solve lightMat imMat_gray))
      as [st conv'] eqn:Hrob.
    apply rbind_Ok in Hest as (nv' & Hnv' & Hest).
    apply rbind_Ok in Hest as (alb' & Halb & Hest).
    injection Hest as <- <- <- <-.
    split; [exists nv0; split; [exact Hnv0|]; split; [reflexivity|exact Hnv']|].
    split; [exact Halb|]. split; [exact Hnorm|]. split; reflexivity.
  - apply rbind_Ok in Hest as (alb' & Halb & Hest).
    injection Hest as <- <- <- <-.
    split; [exists nv0; split; [exact Hnv0|]; split; reflexivity|].
    split; [exact Halb|]. split; [exact Hnorm|]. split; reflexivity.
Qed.
End Steps.

Section Shapes.
Context {T : Type} `{Scalar T}.

Lemma mZero_shape (rows cols : nat) : mshape rows cols (mZero (T := T) rows cols).
Proof.
  unfold mZero. split; [apply length_replicate|].
  apply Forall_replicate, length_replicate.
Qed.

Lemma setCoef_shape (rows cols : nat) (M : Matrix T) (i : nat) (idx : Z) (x : T) :
  mshape rows cols M -> mshape rows cols (setCoef M i idx x).
Proof.
  intros [Hlen Hall]. unfold setCoef. destruct (0 <=? idx); [|done]. split.
  - by rewrite length_alter.
  - apply Forall_alter; [done|]. intros c _ Hc. by rewrite length_insert.
Qed.

Lemma mmap_shape (rows cols : nat) (f : T -> T) (M : Matrix T) :
  mshape rows cols M -> mshape rows cols (mmap f M).
Proof.
  intros [Hlen Hall]. unfold mmap. split; [by rewrite length_map|].
  apply Forall_map. eapply Forall_impl; [exact Hall|].
  intros c Hc. simpl. by rewrite length_map.
Qed.

Lemma normalizeMax_shape (rows cols : nat) (M N : Matrix T) :
  mshape rows cols M -> normalizeMax M = Ok N -> mshape rows cols N.
Proof.
  intros HM HN. apply normalizeMax_Ok in HN as (m & _ & ->). by apply mmap_shape.
Qed.

(** A matrix with a coefficient has a maximum. *)
Lemma maxCoeff_some (rows cols : nat) (M : Matrix T) :
  mshape rows cols M -> (0 < rows)%nat -> (0 < cols)%nat -> exists m, maxCoeff M = Some m.
Proof.
  intros [Hlen Hall] Hrows Hcols. unfold maxCoeff.
  destruct M as [|c M]; [simpl in Hlen; lia|].
  apply Forall_cons in Hall as [Hc _]. destruct c as [|x c]; [simpl in Hc; lia|].
  simpl. by eexists.
Qed.

Lemma albedo_channels_shape {A} (sel : Selection (T := T)) (rows cols : nat)
    (g : Matrix T -> nat -> nat -> Z -> Matrix T) (l : list A) (chOf : A -> nat)
    (alb alb' : Matrix T) :
  (forall M ch i idx, mshape rows cols M -> mshape rows cols (g M ch i idx)) ->
  mshape rows cols alb ->
  forM (fun alb a =>
          forM (fun alb i => rbind (currentIdx sel i) (fun idx => Ok (g alb (chOf a) i idx)))
               (seq 0 (maskSize sel)) alb) l alb = Ok alb' ->
  mshape rows cols alb'.
Proof.
  intros Hg Halb Hrun.
  eapply (forM_invariant (mshape rows cols)); [|exact Halb|exact Hrun].
  intros M a M' _ HM Hch.
  eapply (forM_invariant (mshape rows cols)); [|exact HM|exact Hch].
  intros M1 i M2 _ HM1 Hi. apply rbind_Ok in Hi as (idx & _ & [= <-]). by apply Hg.
Qed.

Variable solve : Matrix T -> Matrix T -> Matrix T.

Lemma robustAlbedo_shape sel lightMat imMat normalsVect n cols alb alb' :
  mshape 3 cols alb ->
  forM (robustAlbedoChannel sel lightMat imMat normalsVect n) (seq 0 3) alb = Ok alb' ->
  mshape 3 cols alb'.
Proof.
  intros Halb Hrun.
  eapply (albedo_channels_shape sel 3 cols
            (fun M ch i idx =>
               match median (zip_with smul (mcol (pixelValues_channel imMat n ch) i)
                       (map (fun x => (sofZ 1 / x)%sc)
                            (mat_vec lightMat (colZ normalsVect idx)))) with
               | Some m => setCoef M ch idx m
               | None => M
               end) (seq 0 3) (fun ch : nat => ch)); [|exact Halb|exact Hrun].
  intros M ch i idx HM. destruct (median _); [by apply setCoef_shape|done].
Qed.

Lemma plainAlbedo_shape sel lightMat imMat n cols alb alb' :
  mshape 3 cols alb ->
  forM (plainAlbedoChannel solve sel lightMat imMat n) (seq 0 3) alb = Ok alb' ->
  mshape 3 cols alb'.
Proof.
  intros Halb Hrun.
  eapply (albedo_channels_shape sel 3 cols
            (fun M ch i idx =>
               setCoef M ch idx
                 (vnorm (mcol (solve lightMat (pixelValues_channel imMat n ch)) i)))
            (seq 0 3) (fun ch : nat => ch)); [|exact Halb|exact Hrun].
  intros M ch i idx HM. by apply setCoef_shape.
Qed.
End Shapes.

Section NormalizedMaxima.
Local Open Scope R_scope.
Variable solve : Matrix R -> Matrix R -> Matrix R.
Variable readImage : string -> result (Image (Rgb R)).
Variable downscaleMask : Image R -> Z -> Image R.
Variable downscaleRGB : Image (Rgb R) -> Z -> Image (Rgb R).

Lemma chan_rgb_lookup (M : Matrix R) (k : nat) (c : list R) (ch : nat) (x : R) :
  M !! k = Some c -> c !! ch = Some x -> (ch < 3)%nat ->
  chan (mkRgb (default szero (mcol M k !! 0%nat)) (default szero (mcol M k !! 1%nat))
              (default szero (mcol M k !! 2%nat))) ch = x.
Proof.
  intros Hc Hx Hch. unfold mcol. rewrite Hc.
  destruct ch as [|[|[|ch]]]; simpl; try lia; by rewrite Hx.
Qed.

(** Where the maximum of a normalised 3 x (R C) matrix is one, the picture
    reshaped from it has all its channels at most one and one of them
    equal to one. *)
Lemma reshaped_max_one (M : Matrix R) (rows cols : nat) :
  (Z.of_nat rows <= INT_MAX)%Z -> (Z.of_nat cols <= INT_MAX)%Z ->
  (Z.of_nat (rows * cols) <= INT_MAX)%Z ->
  mshape 3 (rows * cols) M -> maxCoeff M = Some 1 ->
  let img := reshapeInImage M (newImage rgb_zero (Z.of_nat cols) (Z.of_nat rows)) in
  (forall i j ch, (i < rows)%nat -> (j < cols)%nat -> (ch < 3)%nat ->
     chan (pixel rgb_zero img (Z.of_nat i) (Z.of_nat j)) ch <= 1)
  /\ (exists i j ch, (i < rows)%nat /\ (j < cols)%nat /\ (ch < 3)%nat
        /\ chan (pixel rgb_zero img (Z.of_nat i) (Z.of_nat j)) ch = 1).
Proof.
  intros Hr Hc Hrc [Hlen Hcols] Hmax img. subst img.
  apply maxCoeff_greatest in Hmax as [Hin Hall].
  rewrite Forall_forall in Hall. rewrite Forall_forall in Hcols. split.
  - intros i j ch Hi Hj Hch. rewrite reshapeInImage_pixel by done. cbv zeta.
    assert (Hk : (j * rows + i < length M)%nat) by (rewrite Hlen; nia).
    destruct (lookup_lt_is_Some_2 M _ Hk) as [c Hcol].
    assert (Hlc : length c = 3%nat) by (apply Hcols; by eapply list_elem_of_lookup_2).
    destruct (lookup_lt_is_Some_2 c ch) as [x Hx]; [lia|].
    rewrite (chan_rgb_lookup M _ c ch x) by done.
    apply Hall. apply list_elem_of_In, in_concat. exists c.
    split; apply list_elem_of_In; by eapply list_elem_of_lookup_2.
  - apply list_elem_of_In, in_concat in Hin as (c & Hc' & Hone).
    apply list_elem_of_In, list_elem_of_lookup in Hc' as [k Hk].
    apply list_elem_of_In, list_elem_of_lookup in Hone as [ch Hch].
    assert (Hklt : (k < rows * cols)%nat) by (rewrite <- Hlen; by eapply lookup_lt_Some).
    assert (Hlc : length c = 3%nat) by (apply Hcols; by eapply list_elem_of_lookup_2).
    assert (Hchlt : (ch < 3)%nat) by (rewrite <- Hlc; by eapply lookup_lt_Some).
    assert (Hrpos : (0 < rows)%nat) by (destruct rows; simpl in Hklt; lia).
    exists (k mod rows)%nat, (k / rows)%nat, ch.
    assert (Hi : (k mod rows < rows)%nat) by (apply Nat.mod_upper_bound; lia).
    assert (Hj : (k / rows < cols)%nat) by (apply Nat.Div0.div_lt_upper_bound; lia).
    repeat split; try done.
    rewrite reshapeInImage_pixel by done. cbv zeta.
    replace (k / rows * rows + k mod rows)%nat with k
      by (rewrite (Nat.div_mod_eq k rows) at 1; lia).
    by apply (chan_rgb_lookup M k c).
Qed.

(** C7 (as the code has it).  Over the reals, each normalised matrix whose
    maximum before the division is strictly positive has maximum one: the colour and the
    luminance observation matrices, and the albedo, whose picture handed
    back then has all channels at most one and one channel equal to one. *)
Theorem normalized_maximum_is_one (imageList : list string) (intList : list (Rgb R))
    (lightMat : Matrix R) (mask : Image R) (pathToAmbiant : string)
    (isRobust : bool) (downscale : Z) (rows cols : nat) (r : Solved)
    (rawColor rawGray : Matrix R) :
  (Z.of_nat rows <= INT_MAX)%Z -> (Z.of_nat cols <= INT_MAX)%Z ->
  (Z.of_nat (rows * cols) <= INT_MAX)%Z ->
  pictureShape readImage downscaleMask downscaleRGB imageList mask downscale rows cols ->
  photometricStereo solve readImage downscaleMask downscaleRGB
    imageList intList lightMat mask pathToAmbiant isRobust downscale = Ok r ->
  rawObservations readImage downscaleRGB imageList intList (tr_sel r) pathToAmbiant downscale
    = Ok (rawColor, rawGray) ->
  (forall m, maxCoeff rawColor = Some m -> 0 < m -> maxCoeff (tr_imMat r) = Some 1)
  /\ (forall m, maxCoeff rawGray = Some m -> 0 < m -> maxCoeff (tr_imMat_gray r) = Some 1)
  /\ (forall m, maxCoeff (tr_albedoRaw r) = Some m -> 0 < m ->
        maxCoeff (tr_albedoVect r) = Some 1
        /\ (forall i j ch, (i < rows)%nat -> (j < cols)%nat -> (ch < 3)%nat ->
              chan (pixel rgb_zero (out_albedo r) (Z.of_nat i) (Z.of_nat j)) ch <= 1)
        /\ (exists i j ch, (i < rows)%nat /\ (j < cols)%nat /\ (ch < 3)%nat
              /\ chan (pixel rgb_zero (out_albedo r) (Z.of_nat i) (Z.of_nat j)) ch = 1)).
Proof.
  intros Hr Hc Hrc Hshape Hrun Hraw.
  apply photometricStereo_steps in Hrun
    as (Hsel & Hobs & _ & Halb & Hnorm & _ & Himg).
  unfold observationMatrices in Hobs. rewrite Hraw in Hobs. cbn [rbind] in Hobs.
  apply rbind_Ok in Hobs as (imMat & HimMat & Hobs).
  apply rbind_Ok in Hobs as (imMat_gray & Hgray & Hobs).
  injection Hobs as -> ->.
  split; [|split].
  - intros m Hm Hpos. by eapply normalizeMax_one.
  - intros m Hm Hpos. by eapply normalizeMax_one.
  - intros m Hm Hpos.
    pose proof (selectPixels_layout readImage downscaleMask downscaleRGB imageList mask
                  downscale rows cols (tr_sel r) Hr Hc Hrc Hshape Hsel)
      as (Hrows & Hcols & Hcount & _).
    assert (Hone : maxCoeff (tr_albedoVect r) = Some 1)
      by (by eapply normalizeMax_one).
    split; [done|].
    assert (Hraw_shape : mshape 3 (rows * cols) (tr_albedoRaw r)).
    { rewrite <- Hcount. destruct isRobust.
      - eapply robustAlbedo_shape; [apply mZero_shape|exact Halb].
      - eapply plainAlbedo_shape; [apply mZero_shape|exact Halb]. }
    assert (Hpos_rows : (0 < rows)%nat).
    { destruct rows; [|lia]. destruct Hraw_shape as [Hlen _]. simpl in Hlen.
      apply maxCoeff_greatest in Hm as [Hin _].
      destruct (tr_albedoRaw r); [by apply elem_of_nil in Hin|done]. }
    rewrite Himg, Hrows, (Hcols Hpos_rows).
    apply reshaped_max_one; try done.
    by eapply normalizeMax_shape.
Qed.
End NormalizedMaxima.

Lemma normalized_maximum_is_one_witness :
  exists r,
    photometricStereo Sample.solveIdentityR Sample.readOnePixel Sample.keepScale Sample.keepScale
      ["a.png"%string] [mkRgb 1%R 1%R 1%R] [[1%R]] [[1%R]] "" false 1 = Ok r
    /\ maxCoeff (tr_imMat r) = Some 1%R.
Proof.
  eexists. split; [reflexivity|].
  eassert (Hraw : rawObservations Sample.readOnePixel Sample.keepScale
                    ["a.png"%string] [mkRgb 1%R 1%R 1%R] _ "" 1 = Ok (_, _)).
  { reflexivity. }
  eapply (proj1 (normalized_maximum_is_one
                   Sample.solveIdentityR Sample.readOnePixel Sample.keepScale Sample.keepScale
                   ["a.png"%string] [mkRgb 1%R 1%R 1%R] [[1%R]] [[1%R]] "" false 1 1 1
                   _ _ _ _ _ _ _ eq_refl Hraw)).
  - reflexivity.
  - lazy. assert (Hinv : (/ R1 = R1)%R) by (change (/ 1 = 1)%R; apply Rinv_1).
    rewrite !Hinv. repeat destruct (Rlt_dec _ _); lra.
  Unshelve.
  all: try (vm_compute; discriminate).
  exists "a.png"%string, Sample.onePixel. repeat split; repeat constructor.
Defined.

(** Pictures darker than the ambient picture: every observation is
    negative, the maximum before the division is -1/2, and the maximum of
    the normalised colour matrix is 3/2. *)
Lemma normalized_maximum_counterexample :
  exists r rawColor rawGray,
    photometricStereo Sample.solveIdentity Sample.readDim Sample.keepScale Sample.keepScale
      ["a.png"; "b.png"; "c.png"]%string Sample.unitIntensities Sample.I3 Sample.noMask
      "ambiant.png" false 1 = Ok r
    /\ rawObservations Sample.readDim Sample.keepScale
         ["a.png"; "b.png"; "c.png"]%string Sample.unitIntensities (tr_sel r)
         "ambiant.png" 1 = Ok (rawColor, rawGray)
    /\ maxCoeff rawColor = Some (slit (-1) 2)
    /\ maxCoeff (tr_imMat r) = Some (slit 3 2)
    /\ slit (T := F32.t) 3 2 <> sofZ 1.
Proof.
  eexists. eexists. eexists.
  split; [vm_compute; reflexivity|].
  split; [vm_compute; reflexivity|].
  split; [vm_compute; reflexivity|].
  split; [vm_compute; reflexivity|].
  vm_compute. discriminate.
Qed.

(** In binary32 a strictly positive maximum is not enough either: with a
    light whose blue intensity is zero the blue observations are [+inf],
    the maximum before the division is [+inf], and after the division the
    colour matrix holds zeros and NaN and has the maximum 0, the luminance
    matrix the maximum NaN. *)
Lemma infinite_maximum_in_binary32 :
  let noBlue := mkRgb (Sample.f 1) (Sample.f 1) (Sample.f 0) in
  exists r rawColor rawGray,
    photometricStereo Sample.solveIdentity Sample.readDim Sample.keepScale Sample.keepScale
      ["a.png"; "b.png"; "c.png"]%string [noBlue; noBlue; noBlue] Sample.I3 Sample.noMask
      "" false 1 = Ok r
    /\ rawObservations Sample.readDim Sample.keepScale
         ["a.png"; "b.png"; "c.png"]%string [noBlue; noBlue; noBlue] (tr_sel r) "" 1
       = Ok (rawColor, rawGray)
    /\ maxCoeff rawColor = Some (S754_infinity false)
    /\ (szero <? S754_infinity false)%sc = true
    /\ maxCoeff (tr_imMat r) = Some F32.pzero
    /\ maxCoeff (tr_imMat_gray r) = Some F32.nan.
Proof.
  eexists. eexists. eexists.
  split; [vm_compute; reflexivity|].
  split; [vm_compute; reflexivity|].
  repeat split; vm_compute; reflexivity.
Qed.

(** ** C1: the normals *)

Lemma forM_collected {A B} (f : A -> result B) (l : list A) (acc out : list B) :
  forM (fun acc a => rbind (f a) (fun y => Ok (acc ++ [y]))) l acc = Ok out ->
  exists ys, out = acc ++ ys /\ Forall2 (fun a y => f a = Ok y) l ys.
Proof.
  revert acc. induction l as [|a l IH]; intros acc; simpl.
  - intros [= <-]. exists []. by rewrite app_nil_r.
  - intros Hrun. apply rbind_Ok in Hrun as (acc1 & Hstep & Hrun).
    apply rbind_Ok in Hstep as (y & Hy & [= <-]).
    apply IH in Hrun as (ys & -> & Hall).
    exists (y :: ys). rewrite <- app_assoc. split; [done|]. by constructor.
Qed.

Section Scatter.
Context {T : Type} `{Scalar T}.

(** The loop [for i: M.col(currentIdx) = g i], once the indexes are known:
    every visited column receives its vector, the others are untouched. *)
Lemma scatter_columns (sel : Selection (T := T)) (g : nat -> Vector T)
    (pos ks : list nat) (nv nv' : Matrix T) :
  Forall2 (fun i k => currentIdx sel i = Ok (Z.of_nat k)) pos ks ->
  NoDup ks -> Forall (fun k => (k < length nv)%nat) ks ->
  forM (fun nv i => rbind (currentIdx sel i) (fun idx => Ok (setCol nv idx (g i)))) pos nv
  = Ok nv' ->
  length nv' = length nv
  /\ (forall j i k, pos !! j = Some i -> ks !! j = Some k -> nv' !! k = Some (g i))
  /\ (forall k, k ∉ ks -> nv' !! k = nv !! k).
Proof.
  intros Hall. revert nv. induction Hall as [|i k pos' ks' Hik _ IH]; intros nv Hnd Hlt; simpl.
  - intros [= <-]. split; [done|]. split; [|done]. intros j i k Hj. by destruct j.
  - rewrite Hik. simpl. intros Hrun.
    apply NoDup_cons in Hnd as [Hk Hnd]. apply Forall_cons in Hlt as [Hklt Hlt].
    assert (Hset : setCol nv (Z.of_nat k) (g i) = <[k := g i]> nv).
    { unfold setCol. destruct (Z.leb_spec 0 (Z.of_nat k)); [|lia]. by rewrite Nat2Z.id. }
    rewrite Hset in Hrun.
    apply IH in Hrun as (Hlen & Hin & Hout); [|done|].
    2:{ eapply Forall_impl; [exact Hlt|]. intros k' Hk'. by rewrite length_insert. }
    rewrite length_insert in Hlen. split; [done|]. split.
    + intros [|j] i0 k0 Hi0 Hk0; simpl in *.
      * injection Hi0 as <-. injection Hk0 as <-.
        rewrite Hout by done. by apply list_lookup_insert_eq.
      * by eapply Hin.
    + intros k0 Hk0. apply not_elem_of_cons in Hk0 as [Hne Hk0].
      rewrite Hout by done. by apply list_lookup_insert_ne.
Qed.

Lemma activePixels_currentIdx (sel : Selection (T := T)) (ks : list nat) :
  activePixels sel = Ok (map Z.of_nat ks) ->
  Forall2 (fun i k => currentIdx sel i = Ok (Z.of_nat k)) (seq 0 (maskSize sel)) ks.
Proof.
  intros Hact. unfold activePixels in Hact.
  apply forM_collected in Hact as (ys & Hys & Hall). simpl in Hys. subst ys.
  by apply Forall2_fmap_r in Hall.
Qed.

Lemma scatterNormals_columns (sel : Selection (T := T)) (rows cols : nat)
    (ks : list nat) (M nv nv' : Matrix T) :
  activePixels sel = Ok (map Z.of_nat ks) ->
  NoDup ks -> Forall (fun k => (k < rows * cols)%nat) ks ->
  length nv = (rows * cols)%nat ->
  scatterNormals sel M nv = Ok nv' ->
  length nv' = (rows * cols)%nat
  /\ (forall i k, ks !! i = Some k ->
        nv' !! k = Some (vdivs (mcol M i) (vnorm (mcol M i))))
  /\ (forall k, k ∉ ks -> nv' !! k = nv !! k).
Proof.
  intros Hact Hnd Hlt Hlen Hrun. unfold scatterNormals in Hrun.
  pose proof (activePixels_currentIdx sel ks Hact) as Hall.
  eapply (scatter_columns sel (fun i => vdivs (mcol M i) (vnorm (mcol M i)))) in Hrun
    as (Hlen' & Hin & Hout); [|exact Hall|done|by rewrite Hlen].
  split; [by rewrite Hlen', Hlen|]. split; [|done].
  intros i k Hk. eapply Hin; [|exact Hk].
  apply lookup_seq. split; [done|].
  apply Forall2_length in Hall. rewrite length_seq in Hall. rewrite Hall.
  by eapply lookup_lt_Some.
Qed.
End Scatter.

Section ScatteredNormals.
Context {T : Type} `{Scalar T}.
Variable solve : Matrix T -> Matrix T -> Matrix T.
Variable readImage : string -> result (Image (Rgb T)).
Variable downscaleMask : Image T -> Z -> Image T.
Variable downscaleRGB : Image (Rgb T) -> Z -> Image (Rgb T).

Lemma mZero_lookup (rows cols k : nat) :
  (k < cols)%nat -> mZero (T := T) rows cols !! k = Some (replicate rows szero).
Proof. intros Hk. unfold mZero. by apply lookup_replicate_2. Qed.

(** Whatever the arithmetic: the column of [normalsVect] of the [i]-th
    active pixel is the solved column [i] divided by its norm, the column
    of any other pixel is zero, and each pixel of the normal map holds the
    first three coefficients of its column. *)
Lemma normals_scattered (imageList : list string) (intList : list (Rgb T))
    (lightMat : Matrix T) (mask : Image T) (pathToAmbiant : string)
    (isRobust : bool) (downscale : Z) (rows cols : nat) (r : Solved) :
  (Z.of_nat rows <= INT_MAX)%Z -> (Z.of_nat cols <= INT_MAX)%Z ->
  (Z.of_nat (rows * cols) <= INT_MAX)%Z ->
  pictureShape readImage downscaleMask downscaleRGB imageList mask downscale rows cols ->
  photometricStereo solve readImage downscaleMask downscaleRGB
    imageList intList lightMat mask pathToAmbiant isRobust downscale = Ok r ->
  exists active : list nat,
    activePixels (tr_sel r) = Ok (map Z.of_nat active)
    /\ Forall (fun k => (k < rows * cols)%nat) active
    /\ (forall i k, active !! i = Some k ->
          mcol (tr_normalsVect r) k
          = vdivs (mcol (tr_M r) i) (vnorm (mcol (tr_M r) i)))
    /\ (forall k, (k < rows * cols)%nat -> k ∉ active ->
          mcol (tr_normalsVect r) k = replicate (mcols lightMat) szero)
    /\ (forall i j, (i < rows)%nat -> (j < cols)%nat ->
          let normal := mcol (tr_normalsVect r) (j * rows + i) in
          pixel rgb_zero (out_normals r) (Z.of_nat i) (Z.of_nat j)
          = mkRgb (default szero (normal !! 0%nat)) (default szero (normal !! 1%nat))
                  (default szero (normal !! 2%nat))).
Proof.
  intros Hr Hc Hrc Hshape Hrun.
  apply photometricStereo_steps in Hrun
    as (Hsel & _ & (nv0 & Hnv0 & Hrob) & _ & _ & Himg & _).
  pose proof (selectPixels_layout readImage downscaleMask downscaleRGB imageList mask
                downscale rows cols (tr_sel r) Hr Hc Hrc Hshape Hsel)
    as (Hrows & Hcols & Hcount & active & Hact & _ & Hnd & Hlt).
  assert (Hfinal : length (tr_normalsVect r) = (rows * cols)%nat
            /\ (forall i k, active !! i = Some k ->
                  tr_normalsVect r !! k
                  = Some (vdivs (mcol (tr_M r) i) (vnorm (mcol (tr_M r) i))))
            /\ (forall k, (k < rows * cols)%nat -> k ∉ active ->
                  tr_normalsVect r !! k = Some (replicate (mcols lightMat) szero))).
  { assert (Hlen0 : length (mZero (T := T) (mcols lightMat) (pixelCount (tr_sel r)))
                    = (rows * cols)%nat)
      by (rewrite Hcount; apply (mZero_shape (mcols lightMat) (rows * cols))).
    eapply (scatterNormals_columns _ rows cols active) in Hnv0
      as (Hlen1 & Hin1 & Hout1); [|done..].
    destruct isRobust.
    - destruct Hrob as [_ Hnv].
      eapply (scatterNormals_columns _ rows cols active) in Hnv
        as (Hlen2 & Hin2 & Hout2); [|done..].
      split; [done|]. split; [done|].
      intros k Hk Hnot. rewrite Hout2, Hout1, Hcount by done. by apply mZero_lookup.
    - destruct Hrob as [-> ->].
      split; [done|]. split; [done|].
      intros k Hk Hnot. rewrite Hout1, Hcount by done. by apply mZero_lookup. }
  destruct Hfinal as (Hlen & Hin & Hout).
  exists active. split; [done|]. split; [done|]. split; [|split].
  - intros i k Hk. unfold mcol at 1. by rewrite (Hin i k Hk).
  - intros k Hk Hnot. unfold mcol. by rewrite (Hout k Hk Hnot).
  - intros i j Hi Hj normal. subst normal.
    rewrite Himg, Hrows, Hcols by lia. by rewrite reshapeInImage_pixel.
Qed.
End ScatteredNormals.

Section UnitNormals.
Local Open Scope R_scope.

Lemma foldl_Rplus_shift (l : list R) (a : R) : foldl Rplus a l = a + foldl Rplus 0 l.
Proof.
  revert a. induction l as [|x l IH]; intros a; simpl; [lra|].
  rewrite (IH (a + x)), (IH (0 + x)). lra.
Qed.

Lemma sum_squares_nonneg (v : list R) : 0 <= foldl Rplus 0 (map (fun x => x * x) v).
Proof.
  induction v as [|x v IH]; simpl; [lra|].
  rewrite foldl_Rplus_shift. nra.
Qed.

Lemma sum_squares_scaled (v : list R) (n : R) :
  n <> 0 ->
  foldl Rplus 0 (map (fun x => x / n * (x / n)) v)
  = foldl Rplus 0 (map (fun x => x * x) v) / (n * n).
Proof.
  intros Hn. induction v as [|x v IH]; simpl; [field; done|].
  rewrite foldl_Rplus_shift, IH, (foldl_Rplus_shift _ (0 + x * x)). by field.
Qed.

Lemma vnorm_R (v : list R) : vnorm v = sqrt (foldl Rplus 0 (map (fun x => x * x) v)).
Proof. reflexivity. Qed.

(** A vector divided by its nonzero norm has norm one. *)
Lemma vnorm_vdivs_unit (v : list R) : vnorm v <> 0 -> vnorm (vdivs v (vnorm v)) = 1.
Proof.
  intros Hn. unfold vdivs. rewrite (vnorm_R (map _ v)), map_map.
  change (fun x : R => (x / vnorm v * (x / vnorm v))%sc)
    with (fun x : R => x / vnorm v * (x / vnorm v)).
  rewrite sum_squares_scaled by done.
  rewrite (vnorm_R v) in *. rewrite sqrt_sqrt by apply sum_squares_nonneg.
  replace (_ / _) with 1; [apply sqrt_1|].
  field. intros Hz. apply Hn. rewrite Hz. apply sqrt_0.
Qed.

Variable solve : Matrix R -> Matrix R -> Matrix R.
Variable readImage : string -> result (Image (Rgb R)).
Variable downscaleMask : Image R -> Z -> Image R.
Variable downscaleRGB : Image (Rgb R) -> Z -> Image (Rgb R).

(** C1 (as the code has it).  Over the reals, for a picture grid of [rows]
    x [cols] pixels: the column of [normalsVect] of the [i]-th active pixel
    is the solved column [i] divided by its norm, and has norm one when
    that norm is not zero; the pixel of the normal map holds the first
    three coefficients of that column, so a unit vector when the light
    model has three coefficients; the column and the pixel of a pixel that
    is not active are zero. *)
Theorem normals_unit_or_zero (imageList : list string) (intList : list (Rgb R))
    (lightMat : Matrix R) (mask : Image R) (pathToAmbiant : string)
    (isRobust : bool) (downscale : Z) (rows cols : nat) (r : Solved) :
  (Z.of_nat rows <= INT_MAX)%Z -> (Z.of_nat cols <= INT_MAX)%Z ->
  (Z.of_nat (rows * cols) <= INT_MAX)%Z ->
  pictureShape readImage downscaleMask downscaleRGB imageList mask downscale rows cols ->
  photometricStereo solve readImage downscaleMask downscaleRGB
    imageList intList lightMat mask pathToAmbiant isRobust downscale = Ok r ->
  let stored k := pixel rgb_zero (out_normals r)
                    (Z.of_nat (k mod rows)) (Z.of_nat (k / rows)) in
  exists active : list nat,
    activePixels (tr_sel r) = Ok (map Z.of_nat active)
    /\ (forall i k, active !! i = Some k ->
          let column := mcol (tr_M r) i in
          let normal := mcol (tr_normalsVect r) k in
          normal = vdivs column (vnorm column)
          /\ stored k = mkRgb (default 0 (normal !! 0%nat)) (default 0 (normal !! 1%nat))
                              (default 0 (normal !! 2%nat))
          /\ (vnorm column <> 0 -> vnorm normal = 1)
          /\ (vnorm column <> 0 -> length column = 3%nat ->
                vnorm (rgb_list (stored k)) = 1))
    /\ (forall k, (k < rows * cols)%nat -> k ∉ active ->
          mcol (tr_normalsVect r) k = replicate (mcols lightMat) 0
          /\ stored k = mkRgb 0 0 0).
Proof.
  intros Hr Hc Hrc Hshape Hrun stored.
  destruct (normals_scattered solve readImage downscaleMask downscaleRGB
              imageList intList lightMat mask pathToAmbiant isRobust downscale
              rows cols r Hr Hc Hrc Hshape Hrun)
    as (active & Hact & Hlt & Hin & Hout & Hpixel).
  assert (Hstored : forall k, (k < rows * cols)%nat ->
            stored k
            = mkRgb (default 0 (mcol (tr_normalsVect r) k !! 0%nat))
                    (default 0 (mcol (tr_normalsVect r) k !! 1%nat))
                    (default 0 (mcol (tr_normalsVect r) k !! 2%nat))).
  { intros k Hk. subst stored. cbv beta.
    assert (Hrpos : (0 < rows)%nat) by (destruct rows; simpl in Hk; lia).
    rewrite Hpixel.
    2:{ apply Nat.mod_upper_bound. lia. }
    2:{ apply Nat.Div0.div_lt_upper_bound. lia. }
    cbv zeta.
    replace (k / rows * rows + k mod rows)%nat with k
      by (rewrite (Nat.div_mod_eq k rows) at 1; lia).
    reflexivity. }
  exists active. split; [done|]. split.
  - intros i k Hk column normal.
    assert (Hklt : (k < rows * cols)%nat).
    { rewrite Forall_forall in Hlt. apply Hlt. by eapply list_elem_of_lookup_2. }
    assert (Hnormal : normal = vdivs column (vnorm column)) by apply (Hin i k Hk).
    split; [done|]. split; [by apply Hstored|]. split.
    + intros Hnz. rewrite Hnormal. by apply vnorm_vdivs_unit.
    + intros Hnz Hlen3. rewrite Hstored by done. fold normal.
      unfold rgb_list. cbn [red green blue].
      assert (Hunit : vnorm normal = 1) by (rewrite Hnormal; by apply vnorm_vdivs_unit).
      assert (Hl : length normal = 3%nat)
        by (rewrite Hnormal; unfold vdivs; by rewrite length_map).
      destruct normal as [|a [|b [|c [|? ?]]]]; try discriminate. exact Hunit.
  - intros k Hk Hnot. split; [by apply Hout|].
    rewrite Hstored by done. rewrite (Hout k Hk Hnot).
    destruct (mcols lightMat) as [|[|[|n]]]; reflexivity.
Qed.
End UnitNormals.

(** A pixel that is dark in every picture: its solved column is (0, 0, 0),
    of norm exactly zero, and the normal stored for it is (NaN, NaN, NaN),
    not the zero vector. *)
Lemma zero_norm_column_stores_nan :
  exists r,
    photometricStereo Sample.solveIdentity Sample.readLitAndDark Sample.keepScale Sample.keepScale
      ["a.png"; "b.png"; "c.png"]%string Sample.unitIntensities Sample.I3 Sample.noMask
      "" false 1 = Ok r
    /\ activePixels (tr_sel r) = Ok [0; 1]
    /\ mcol (tr_M r) 1 = [F32.pzero; F32.pzero; F32.pzero]
    /\ vnorm (mcol (tr_M r) 1) = F32.pzero
    /\ pixel rgb_zero (out_normals r) 0 1 = mkRgb F32.nan F32.nan F32.nan
    /\ pixel rgb_zero (out_normals r) 0 1 <> mkRgb F32.pzero F32.pzero F32.pzero.
Proof.
  eexists. split; [vm_compute; reflexivity|].
  repeat split; try (vm_compute; reflexivity).
  vm_compute. discriminate.
Qed.

(** In binary32 a column of nonzero norm need not give a unit vector: the
    square of 2^-75 underflows to zero, so the norm of (2^-70, 2^-75, 0)
    is computed as 2^-70 and the quotient (1, 2^-5, 0) has a norm above
    1.0004. *)
Lemma unit_length_fails_in_binary32 :
  let tiny (e : Z) : F32.t := S754_finite false 8388608 (e - 23) in
  let column := [tiny (-70); tiny (-75); F32.pzero] in
  vnorm column = tiny (-70)
  /\ (vnorm column =? szero)%sc = false
  /\ vdivs column (vnorm column) = [sofZ 1; tiny (-5); F32.pzero]
  /\ (slit 10004 10000 <? vnorm (vdivs column (vnorm column)))%sc = true.
Proof. repeat split; vm_compute; reflexivity. Qed.

(** ** The picture matrices of [image2PsMatrix] *)

Lemma foldl_grid {St} (f : St -> nat -> nat -> St) (rows cols : nat) (s : St) :
  foldl (fun s j => foldl (fun s i => f s i j) s (seq 0 rows)) s (seq 0 cols)
  = foldl (fun s k => f s (k mod rows)%nat (k / rows)%nat) s (seq 0 (rows * cols)).
Proof.
  induction cols as [|cols IH].
  - by rewrite Nat.mul_0_r.
  - rewrite seq_S, foldl_app, IH. simpl.
    replace (rows * S cols)%nat with (rows * cols + rows)%nat by lia.
    rewrite seq_app, foldl_app. simpl.
    rewrite (seq_shift_map (rows * cols)), foldl_fmap.
    apply foldl_ext_in. intros s' i Hi. apply list_elem_of_In, in_seq in Hi.
    replace (rows * cols + i)%nat with (i + cols * rows)%nat by lia.
    rewrite Nat.Div0.mod_add, Nat.div_add, Nat.mod_small, Nat.div_small by lia.
    done.
Qed.

(** The two loops over the columns and the rows of a picture of [R] x [C]
    pixels visit the linear indexes [0 .. R * C - 1] in order. *)
Lemma foldl_picture {St P} (img : Image P) (R C : nat) (f : St -> Z -> Z -> St) (s : St) :
  image_wf R C img ->
  Z.of_nat R <= INT_MAX -> Z.of_nat C <= INT_MAX ->
  foldl (fun s j => foldl (fun s i => f s i j) s (seqZ 0 (irows img))) s (seqZ 0 (icols img))
  = foldl (fun s k => f s (Z.of_nat (k mod R)) (Z.of_nat (k / R))) s (seq 0 (R * C)).
Proof.
  intros Hwf HR HC. rewrite (image_wf_irows R C) by done.
  destruct (Nat.eq_dec R 0%nat) as [->|Hpos].
  { rewrite (image_wf_icols_empty C) by done. done. }
  rewrite (image_wf_icols R C) by (done || lia).
  rewrite !seqZ_nat, foldl_fmap.
  rewrite <- (foldl_grid (fun s i j => f s (Z.of_nat i) (Z.of_nat j)) R C).
  apply foldl_ext_in. intros s' j _. by rewrite foldl_fmap.
Qed.

Section PictureMatrix.
Context {T : Type} `{Scalar T}.

Lemma setPixelColumn_app (cols rest : Matrix T) (c : Vector T) (v : Rgb T) :
  length c = 3%nat ->
  setPixelColumn (cols ++ c :: rest) (Z.of_nat (length cols)) v
  = cols ++ rgb_list v :: rest.
Proof.
  intros Hc. destruct c as [|a [|b [|c' [|? ?]]]]; try discriminate.
  unfold setPixelColumn, setCoef.
  destruct (Z.leb_spec 0 (Z.of_nat (length cols))); [|lia].
  rewrite Nat2Z.id.
  replace (length cols) with (length cols + 0)%nat by lia.
  rewrite !alter_app_r. by destruct v.
Qed.

(** The selected pixels are packed, in order, in the leading columns. *)
Lemma pack_columns (P : nat -> bool) (px : nat -> Rgb T) (l : list nat)
    (cols rest : Matrix T) :
  Forall (fun c => length c = 3%nat) rest ->
  (length (List.filter P l) <= length rest)%nat ->
  Z.of_nat (length cols + length (List.filter P l)) <= INT_MAX ->
  foldl (fun st k => if P k
                     then (setPixelColumn (fst st) (snd st) (px k), wrap_int (snd st + 1))
                     else st)
        (cols ++ rest, Z.of_nat (length cols)) l
  = (cols ++ map (fun k => rgb_list (px k)) (List.filter P l)
          ++ drop (length (List.filter P l)) rest,
     Z.of_nat (length cols + length (List.filter P l))).
Proof.
  revert cols rest. induction l as [|k l IH]; intros cols rest Hrest Hlen Hmax; simpl.
  - by rewrite Nat.add_0_r.
  - simpl in Hlen, Hmax. destruct (P k) eqn:Hk; [|by apply IH].
    simpl in Hlen, Hmax. destruct rest as [|c rest]; [simpl in Hlen; lia|].
    apply Forall_cons in Hrest as [Hc Hrest]. simpl in Hlen.
    cbn [fst snd]. rewrite setPixelColumn_app by done.
    replace (wrap_int (Z.of_nat (length cols) + 1))
      with (Z.of_nat (length (cols ++ [rgb_list (px k)]))).
    2:{ rewrite length_app. simpl. rewrite Nat2Z.inj_add.
        symmetry. apply wrap_int_small. unfold INT_MAX in Hmax. lia. }
    replace (cols ++ rgb_list (px k) :: rest)
      with ((cols ++ [rgb_list (px k)]) ++ rest) by (by rewrite <- app_assoc).
    rewrite IH; [|done|lia|rewrite length_app; simpl; lia].
    rewrite length_app. simpl. rewrite <- app_assoc. simpl.
    do 2 f_equal. lia.
Qed.

Lemma image2PsMatrix_packed (imageIn : Image (Rgb T)) (mask : Image T)
    (imageOut : Matrix T) (R C : nat) :
  Z.of_nat R <= INT_MAX -> Z.of_nat C <= INT_MAX -> Z.of_nat (R * C) <= INT_MAX ->
  image_wf R C imageIn ->
  mshape 3 (length (List.filter (chosen mask R) (seq 0 (R * C)))) imageOut ->
  image2PsMatrix imageIn mask imageOut
  = map (fun k => rgb_list (pixelOf rgb_zero imageIn R k))
        (List.filter (chosen mask R) (seq 0 (R * C))).
Proof.
  intros HR HC HRC Hwf [Hlen Hcols]. unfold image2PsMatrix.
  rewrite (foldl_ext_in _
     (fun st j => foldl
        (fun st i => if negb (isRealMask mask) || aboveThreshold (pixel szero mask i j)
                     then (setPixelColumn (fst st) (snd st) (pixel rgb_zero imageIn i j),
                           wrap_int (snd st + 1))
                     else st) st (seqZ 0 (irows imageIn)))).
  2:{ intros st j _. apply foldl_ext_in. by intros [M index] i _. }
  rewrite (foldl_picture imageIn R C
             (fun st i j => if negb (isRealMask mask) || aboveThreshold (pixel szero mask i j)
                            then (setPixelColumn (fst st) (snd st) (pixel rgb_zero imageIn i j),
                                  wrap_int (snd st + 1))
                            else st)) by done.
  pose proof (pack_columns (chosen mask R) (pixelOf rgb_zero imageIn R)
                (seq 0 (R * C)) [] imageOut Hcols) as Hpack.
  cbn [length app Nat.add] in Hpack. change (Z.of_nat 0) with 0 in Hpack.
  unfold chosen, selected, pixelOf in *. rewrite Hpack.
  - cbn [fst app]. by rewrite <- Hlen, drop_all, app_nil_r.
  - by rewrite Hlen.
  - pose proof (List.filter_length_le
                  (fun k => negb (isRealMask mask)
                            || aboveThreshold (pixel szero mask (Z.of_nat (k mod R))
                                                     (Z.of_nat (k / R))))
                  (seq 0 (R * C))) as Hle.
    rewrite length_seq in Hle. lia.
Qed.

(** X1.  With a real mask, the picture matrix is, column for column, the list
    of the pixels at the indexes that [getIndMask] returns: the result does
    not depend on what [imageOut] held. *)
Theorem image2PsMatrix_follows_indexes (imageIn : Image (Rgb T)) (mask : Image T)
    (imageOut : Matrix T) (R C : nat) :
  Z.of_nat R <= INT_MAX -> Z.of_nat C <= INT_MAX -> Z.of_nat (R * C) <= INT_MAX ->
  image_wf R C imageIn -> image_wf R C mask -> isRealMask mask = true ->
  mshape 3 (length (getIndMask mask [])) imageOut ->
  image2PsMatrix imageIn mask imageOut
  = map (fun idx => rgb_list (pixel rgb_zero imageIn (idx mod Z.of_nat R) (idx / Z.of_nat R)))
        (getIndMask mask []).
Proof.
  intros HR HC HRC Hwf Hmask Hreal Hshape.
  rewrite (getIndMask_filter mask R C) in * by done. simpl in *.
  rewrite length_map in Hshape.
  assert (Hsame : List.filter (chosen mask R) (seq 0 (R * C))
                  = List.filter (selected mask R) (seq 0 (R * C))).
  { apply List.filter_ext. intros k. unfold chosen. by rewrite Hreal. }
  rewrite (image2PsMatrix_packed imageIn mask imageOut R C) by (done || by rewrite Hsame).
  rewrite Hsame, map_map. apply map_ext. intros k. unfold pixelOf.
  by rewrite Nat2Z.inj_mod, Nat2Z.inj_div.
Qed.
End PictureMatrix.

Lemma image2PsMatrix_follows_indexes_witness :
  let px (z : Z) : Rgb F32.t := mkRgb (sofZ z) (sofZ (z + 1)) (sofZ (z + 2)) in
  let picture := [[px 10; px 20]; [px 30; px 40]] in
  let mask : Image F32.t := [[sofZ 1; sofZ 0]; [sofZ 1; sofZ 1]] in
  image2PsMatrix picture mask (mZero 3 3)
  = map (fun idx => rgb_list (pixel rgb_zero picture (idx mod Z.of_nat 2) (idx / Z.of_nat 2)))
        (getIndMask mask []).
Proof.
  intros px picture mask.
  apply (image2PsMatrix_follows_indexes picture mask (mZero 3 3) 2 2).
  - vm_compute. discriminate.
  - vm_compute. discriminate.
  - vm_compute. discriminate.
  - split; [reflexivity|]. repeat constructor.
  - split; [reflexivity|]. repeat constructor.
  - reflexivity.
  - split; [reflexivity|]. repeat constructor.
Defined.

Lemma image_wf_imap {P Q} (h w : nat) (f : nat -> nat -> P -> Q) (img : Image P) :
  image_wf h w img -> image_wf h w (imap (fun i row => imap (f i) row) img).
Proof.
  intros [Hh Hw]. split; [by rewrite length_imap|].
  apply Forall_forall. intros row Hrow.
  apply list_elem_of_lookup in Hrow as [i Hi].
  rewrite list_lookup_imap in Hi.
  destruct (img !! i) as [row0|] eqn:Hrow0; [|done]. injection Hi as <-.
  rewrite length_imap. rewrite Forall_forall in Hw. apply Hw.
  by eapply list_elem_of_lookup_2.
Qed.

(** Two pictures of the same size with the same pixels are equal. *)
Lemma image_ext {P} (d : P) (h w : nat) (a b : Image P) :
  image_wf h w a -> image_wf h w b ->
  (forall i j, (i < h)%nat -> (j < w)%nat ->
     pixel d a (Z.of_nat i) (Z.of_nat j) = pixel d b (Z.of_nat i) (Z.of_nat j)) ->
  a = b.
Proof.
  intros Ha Hb Hpix. apply list_eq_same_length with h; [apply Hb|apply Ha|].
  intros i ra rb Hi Hra Hrb.
  destruct (image_wf_row h w a i Ha Hi) as (ra' & Hra' & Hla).
  destruct (image_wf_row h w b i Hb Hi) as (rb' & Hrb' & Hlb).
  rewrite Hra in Hra'. injection Hra' as <-. rewrite Hrb in Hrb'. injection Hrb' as <-.
  apply list_eq_same_length with w; [done..|].
  intros j pa pb Hj Hpa Hpb.
  specialize (Hpix i j Hi Hj).
  by rewrite (pixel_lookup d a i j ra pa), (pixel_lookup d b i j rb pb) in Hpix.
Qed.

Section RoundTrip.
Context {T : Type} `{Scalar T}.

Lemma reshapeInImage_wf (M : Matrix T) (h w : nat) (img : Image (Rgb T)) :
  image_wf h w img -> image_wf h w (reshapeInImage M img).
Proof. intros Hwf. unfold reshapeInImage. by apply image_wf_imap. Qed.

Lemma rgb_list_lookup (p : Rgb T) :
  mkRgb (default szero (rgb_list p !! 0%nat)) (default szero (rgb_list p !! 1%nat))
        (default szero (rgb_list p !! 2%nat)) = p.
Proof. by destruct p. Qed.

(** X2.  Without a mask, storing a picture in a matrix and reshaping the matrix
    gives the picture back. *)
Theorem reshapeInImage_restores_picture (picture : Image (Rgb T)) (mask : Image T)
    (imageOut : Matrix T) (d : Rgb T) (R C : nat) :
  Z.of_nat R <= INT_MAX -> Z.of_nat C <= INT_MAX -> Z.of_nat (R * C) <= INT_MAX ->
  image_wf R C picture -> isRealMask mask = false ->
  mshape 3 (R * C) imageOut ->
  reshapeInImage (image2PsMatrix picture mask imageOut)
                 (newImage d (Z.of_nat C) (Z.of_nat R))
  = picture.
Proof.
  intros HR HC HRC Hwf Hreal Hshape.
  assert (Hall : List.filter (chosen mask R) (seq 0 (R * C)) = seq 0 (R * C)).
  { apply forallb_filter_id, forallb_forall. intros k _. unfold chosen. by rewrite Hreal. }
  rewrite (image2PsMatrix_packed picture mask imageOut R C)
    by (done || by rewrite Hall, length_seq).
  rewrite Hall.
  apply (image_ext d R C); [apply reshapeInImage_wf, newImage_wf|done|].
  intros i j Hi Hj. rewrite reshapeInImage_pixel by done. cbv zeta.
  assert (Hk : (j * R + i < R * C)%nat) by nia.
  unfold mcol. rewrite list_lookup_fmap, lookup_seq_lt by done.
  cbn [fmap option_fmap option_map default from_option Nat.add].
  unfold Datatypes.id. rewrite rgb_list_lookup. unfold pixelOf.
  replace (j * R + i)%nat with (i + j * R)%nat by lia.
  rewrite Nat.Div0.mod_add, Nat.div_add, Nat.mod_small, Nat.div_small by lia.
  rewrite Nat.add_0_l.
  destruct (image_wf_row R C picture i Hwf Hi) as (row & Hrow & Hlen).
  destruct (lookup_lt_is_Some_2 row j) as [p Hp]; [lia|].
  by rewrite (pixel_lookup rgb_zero picture i j row p), (pixel_lookup d picture i j row p).
Qed.
End RoundTrip.

Lemma reshapeInImage_restores_picture_witness :
  let px (z : Z) : Rgb F32.t := mkRgb (sofZ z) (sofZ (z + 1)) (sofZ (z + 2)) in
  let picture := [[px 10; px 20; px 30]; [px 40; px 50; px 60]] in
  reshapeInImage (image2PsMatrix picture [[sofZ 1]] (mZero 3 6))
                 (newImage rgb_zero (Z.of_nat 3) (Z.of_nat 2))
  = picture.
Proof.
  intros px picture.
  apply (reshapeInImage_restores_picture picture [[sofZ 1]] (mZero 3 6) rgb_zero 2 3).
  - vm_compute. discriminate.
  - vm_compute. discriminate.
  - vm_compute. discriminate.
  - split; [reflexivity|]. repeat constructor.
  - reflexivity.
  - split; [reflexivity|]. repeat constructor.
Defined.

Section GrayVector.
Context {T : Type} `{Scalar T}.

(** One entry per visited pixel: entry [k] is written when [P k] holds and
    kept otherwise, and the entries that are not visited are kept. *)
Lemma spread_entries (P : nat -> bool) (px : nat -> T) (n a : nat) (v : Vector T) :
  (a + n <= length v)%nat -> Z.of_nat (a + n) <= INT_MAX ->
  let out := foldl (fun st k => ((if P k then setVCoef (fst st) (snd st) (px k) else fst st),
                                 wrap_int (snd st + 1)))
                   (v, Z.of_nat a) (seq a n) in
  snd out = Z.of_nat (a + n)
  /\ length (fst out) = length v
  /\ (forall k, (a <= k < a + n)%nat ->
        fst out !! k = if P k then Some (px k) else v !! k)
  /\ (forall k, ~ (a <= k < a + n)%nat -> fst out !! k = v !! k).
Proof.
  revert a v. induction n as [|n IH]; intros a v Hlen Hmax; cbn zeta.
  - simpl. rewrite Nat.add_0_r. repeat split; try done. intros k Hk. lia.
  - cbn [seq foldl fst snd].
    replace (wrap_int (Z.of_nat a + 1)) with (Z.of_nat (S a))
      by (symmetry; rewrite Nat2Z.inj_succ; apply wrap_int_small; unfold INT_MAX in Hmax; lia).
    set (v1 := if P a then setVCoef v (Z.of_nat a) (px a) else v).
    assert (Hv1 : length v1 = length v).
    { subst v1. destruct (P a); [|done]. unfold setVCoef.
      destruct (0 <=? Z.of_nat a); [|done]. by rewrite length_insert. }
    assert (Hat : v1 !! a = if P a then Some (px a) else v !! a).
    { subst v1. destruct (P a); [|done]. unfold setVCoef.
      destruct (Z.leb_spec 0 (Z.of_nat a)); [|lia]. rewrite Nat2Z.id.
      apply list_lookup_insert_eq. lia. }
    assert (Hother : forall k, k <> a -> v1 !! k = v !! k).
    { intros k Hk. subst v1. destruct (P a); [|done]. unfold setVCoef.
      destruct (Z.leb_spec 0 (Z.of_nat a)); [|done]. rewrite Nat2Z.id.
      by apply list_lookup_insert_ne. }
    destruct (IH (S a) v1) as (Hsnd & Hlen' & Hin & Hout); [lia|lia|].
    cbn zeta in *. rewrite Hsnd, Hlen', Hv1.
    split; [f_equal; lia|]. split; [done|]. split.
    + intros k Hk. destruct (Nat.eq_dec k a) as [->|Hne].
      * rewrite Hout by lia. exact Hat.
      * rewrite Hin by lia. destruct (P k); [done|]. by apply Hother.
    + intros k Hk. rewrite Hout by lia. apply Hother. lia.
Qed.

(** X3.  The overload for gray pictures does not pack the selected pixels: the
    entry of linear index [k] of the vector receives the pixel of index [k]
    when that pixel is selected, and keeps its value when it is not. *)
Theorem image2PsMatrix_gray_keeps_positions (imageIn : Image T) (mask : Image T)
    (imageOut : Vector T) (R C : nat) :
  Z.of_nat R <= INT_MAX -> Z.of_nat C <= INT_MAX -> Z.of_nat (R * C) <= INT_MAX ->
  image_wf R C imageIn -> (isRealMask mask = true -> image_wf R C mask) ->
  length imageOut = (R * C)%nat ->
  image2PsMatrix_gray imageIn mask imageOut
  = imap (fun k old => if chosen mask R k then pixelOf szero imageIn R k else old) imageOut.
Proof.
  intros HR HC HRC Hwf _ Hlen. unfold image2PsMatrix_gray.
  rewrite (foldl_ext_in _
     (fun st j => foldl
        (fun st i => ((if negb (isRealMask mask) || aboveThreshold (pixel szero mask i j)
                       then setVCoef (fst st) (snd st) (pixel szero imageIn i j)
                       else fst st),
                      wrap_int (snd st + 1))) st (seqZ 0 (irows imageIn)))).
  2:{ intros st j _. apply foldl_ext_in. by intros [v index] i _. }
  rewrite (foldl_picture imageIn R C
             (fun st i j => ((if negb (isRealMask mask) || aboveThreshold (pixel szero mask i j)
                              then setVCoef (fst st) (snd st) (pixel szero imageIn i j)
                              else fst st),
                             wrap_int (snd st + 1)))) by done.
  destruct (spread_entries (chosen mask R) (pixelOf szero imageIn R) (R * C) 0 imageOut)
    as (_ & Hlen' & Hin & _); [lia|done|].
  cbn zeta in Hlen', Hin. change (Z.of_nat 0) with 0 in Hlen', Hin.
  unfold chosen, selected, pixelOf in *.
  apply list_eq_same_length with (R * C)%nat;
    [by rewrite length_imap|by rewrite Hlen'|].
  intros k x y Hk Hx Hy. rewrite Hin in Hx by lia.
  rewrite list_lookup_imap in Hy.
  destruct (lookup_lt_is_Some_2 imageOut k) as [old Hold]; [lia|].
  rewrite Hold in Hx, Hy. simpl in Hy.
  destruct (negb (isRealMask mask) || _); congruence.
Qed.
End GrayVector.

Lemma image2PsMatrix_gray_keeps_positions_witness :
  let picture : Image F32.t := [[sofZ 10; sofZ 20]; [sofZ 30; sofZ 40]] in
  let mask : Image F32.t := [[sofZ 1; sofZ 0]; [sofZ 0; sofZ 1]] in
  image2PsMatrix_gray picture mask [sofZ 7; sofZ 7; sofZ 7; sofZ 7]
  = [sofZ 10; sofZ 7; sofZ 7; sofZ 40].
Proof.
  intros picture mask.
  rewrite (image2PsMatrix_gray_keeps_positions picture mask
             [sofZ 7; sofZ 7; sofZ 7; sofZ 7] 2 2).
  - reflexivity.
  - vm_compute. discriminate.
  - vm_compute. discriminate.
  - vm_compute. discriminate.
  - split; [reflexivity|]. repeat constructor.
  - intros _. split; [reflexivity|]. repeat constructor.
  - reflexivity.
Defined.

(** ** The range of the colour encoding (real numbers) *)

Section EncodingRange.
Local Open Scope R_scope.

Lemma Int_part_IZR (k : Z) : Int_part (IZR k) = k.
Proof. symmetry. apply Int_part_spec. lra. Qed.

Lemma Rideal_toUChar_IZR (k : Z) :
  Rideal.toUChar (IZR k) = if ((0 <=? k) && (k <=? 255))%Z then Some k else None.
Proof.
  unfold Rideal.toUChar, Rideal.trunc.
  destruct (Rle_dec 0 (IZR k)) as [Hk|Hk].
  - by rewrite Int_part_IZR.
  - rewrite <- opp_IZR, Int_part_IZR, Z.opp_involutive. done.
Qed.

Lemma Rideal_eqb_false (a b : R) : a <> b -> Rideal.eqb a b = false.
Proof. intros Hab. unfold Rideal.eqb. by destruct (Req_dec_T a b). Qed.

Lemma Int_part_bounds (q : R) (lo hi : Z) :
  IZR lo <= q -> q < IZR hi + 1 -> (lo <= Int_part q <= hi)%Z.
Proof.
  intros Hlo Hhi. destruct (base_Int_part q) as [Hle Hgt]. split.
  - apply Z.lt_succ_r, lt_IZR. rewrite succ_IZR. lra.
  - apply Z.lt_succ_r, lt_IZR. rewrite succ_IZR. lra.
Qed.

(** One pixel of the picture written by [writePSResults]. *)
Lemma writePSResults_normals_pixel {T} `{Scalar T} (normals : Image (Rgb T))
    (h w i j : nat) d :
  image_wf h w normals ->
  (Z.of_nat h <= INT_MAX)%Z -> (Z.of_nat w <= INT_MAX)%Z ->
  (i < h)%nat -> (j < w)%nat ->
  pixel d (writePSResults_normals normals) (Z.of_nat i) (Z.of_nat j)
  = encodeNormal (pixel rgb_zero normals (Z.of_nat i) (Z.of_nat j)).
Proof.
  intros Hwf Hh Hw Hi Hj. unfold writePSResults_normals, irows, icols.
  rewrite (image_wf_Height h w), (image_wf_Width h w) by (done || lia).
  rewrite !wrap_int_nat by done.
  by rewrite (convertNormalMap2png_pixel _ _ h w) by (done || apply newImage_wf).
Qed.

Lemma encodeNormal_R (n : Rgb R) :
  red n * red n + green n * green n + blue n * blue n <> 0 ->
  encodeNormal n
  = mkRgb (Rideal.toUChar (IZR (Int_part (255 * (red n + 1) / 2))))
          (Rideal.toUChar (IZR (- Int_part (255 * (green n + 1) / 2))))
          (Rideal.toUChar (IZR (- Int_part (255 * blue n)))).
Proof.
  intros Hnz. unfold encodeNormal. cbn [chan].
  change (_ =? szero)%sc
    with (Rideal.eqb (red n * red n + green n * green n + blue n * blue n) 0).
  rewrite Rideal_eqb_false by done.
  cbn [stoUChar sfloor sopp smul sdiv sadd sofZ Rideal.scalar]. unfold Rideal.floor.
  by rewrite !opp_IZR.
Qed.

(** X4.  In the picture written for a normal map over the reals, a nonzero
    normal whose X component lies in [-1, 1] has a red channel that is
    defined: it is the integer part of [255 (x + 1) / 2], between 0 and
    255. *)
Theorem normal_map_red_channel_range (normals : Image (Rgb R)) (h w i j : nat) :
  image_wf h w normals ->
  (Z.of_nat h <= INT_MAX)%Z -> (Z.of_nat w <= INT_MAX)%Z ->
  (i < h)%nat -> (j < w)%nat ->
  let n := pixel rgb_zero normals (Z.of_nat i) (Z.of_nat j) in
  let out := pixel (mkRgb None None None) (writePSResults_normals normals)
                   (Z.of_nat i) (Z.of_nat j) in
  red n * red n + green n * green n + blue n * blue n <> 0 ->
  -1 <= red n <= 1 ->
  exists v : Z,
    red out = Some v /\ (0 <= v <= 255)%Z
    /\ IZR v <= 255 * (red n + 1) / 2 < IZR v + 1.
Proof.
  intros Hwf Hh Hw Hi Hj n out Hnz Hx. subst out.
  rewrite (writePSResults_normals_pixel normals h w) by done. fold n.
  rewrite encodeNormal_R by done. cbn [red].
  exists (Int_part (255 * (red n + 1) / 2)).
  pose proof (Int_part_bounds (255 * (red n + 1) / 2) 0 255) as Hb.
  destruct Hb as [Hlo Hhi]; [lra|lra|].
  rewrite Rideal_toUChar_IZR.
  destruct (Z.leb_spec 0 (Int_part (255 * (red n + 1) / 2))); [|lia].
  destruct (Z.leb_spec (Int_part (255 * (red n + 1) / 2)) 255); [|lia].
  split; [done|]. split; [lia|].
  destruct (base_Int_part (255 * (red n + 1) / 2)). lra.
Qed.

(** X5.  The green and blue channels written for a nonzero normal over the
    reals.  The value assigned to the green channel is never positive: for
    [y >= -1] the channel is 0 when [y < 2/255 - 1], and is the conversion
    of a negative value, which is undefined, otherwise.  The blue channel
    is undefined for [z >= 1/255], and is [- floor (255 z)], between 0 and
    255, for [-1 <= z < 1/255]. *)
Theorem normal_map_green_blue_channels (normals : Image (Rgb R)) (h w i j : nat) :
  image_wf h w normals ->
  (Z.of_nat h <= INT_MAX)%Z -> (Z.of_nat w <= INT_MAX)%Z ->
  (i < h)%nat -> (j < w)%nat ->
  let n := pixel rgb_zero normals (Z.of_nat i) (Z.of_nat j) in
  let out := pixel (mkRgb None None None) (writePSResults_normals normals)
                   (Z.of_nat i) (Z.of_nat j) in
  red n * red n + green n * green n + blue n * blue n <> 0 ->
  (-1 <= green n ->
     green out = if Rlt_dec (green n) (2 / 255 - 1) then Some 0%Z else None)
  /\ (1 / 255 <= blue n -> blue out = None)
  /\ (-1 <= blue n < 1 / 255 ->
        exists v : Z, blue out = Some v /\ (0 <= v <= 255)%Z
                      /\ v = (- Int_part (255 * blue n))%Z).
Proof.
  intros Hwf Hh Hw Hi Hj n out Hnz. subst out.
  rewrite (writePSResults_normals_pixel normals h w) by done. fold n.
  rewrite encodeNormal_R by done. cbn [green blue].
  rewrite !Rideal_toUChar_IZR. split; [|split].
  - intros Hy. destruct (base_Int_part (255 * (green n + 1) / 2)) as [Hle Hgt].
    destruct (Rlt_dec (green n) (2 / 255 - 1)) as [Hsmall|Hbig].
    + pose proof (Int_part_bounds (255 * (green n + 1) / 2) 0 0) as [Hlo Hhi]; [lra|lra|].
      replace (Int_part (255 * (green n + 1) / 2)) with 0%Z by lia. done.
    + assert (1 <= Int_part (255 * (green n + 1) / 2))%Z.
      { apply Z.lt_succ_r, lt_IZR. rewrite succ_IZR. simpl. lra. }
      destruct (Z.leb_spec 0 (- Int_part (255 * (green n + 1) / 2))); [lia|done].
  - intros Hz. destruct (base_Int_part (255 * blue n)) as [Hle Hgt].
    assert (1 <= Int_part (255 * blue n))%Z.
    { apply Z.lt_succ_r, lt_IZR. rewrite succ_IZR. simpl. lra. }
    destruct (Z.leb_spec 0 (- Int_part (255 * blue n))); [lia|done].
  - intros Hz. exists (- Int_part (255 * blue n))%Z.
    pose proof (Int_part_bounds (255 * blue n) (-255) 0) as [Hlo Hhi]; [lra|lra|].
    destruct (Z.leb_spec 0 (- Int_part (255 * blue n))); [|lia].
    destruct (Z.leb_spec (- Int_part (255 * blue n)) 255); [|lia].
    split; [done|]. split; [lia|done].
Qed.
End EncodingRange.

Lemma normal_map_red_channel_range_witness :
  let normals : Image (Rgb R) := [[mkRgb 0%R (-1)%R 0%R]] in
  exists v : Z,
    red (pixel (mkRgb None None None) (writePSResults_normals normals) 0 0) = Some v
    /\ (0 <= v <= 255)%Z
    /\ (IZR v <= 255 * (0 + 1) / 2 < IZR v + 1)%R.
Proof.
  intros normals.
  apply (normal_map_red_channel_range normals 1 1 0 0).
  - split; [reflexivity|]. repeat constructor.
  - vm_compute. discriminate.
  - vm_compute. discriminate.
  - lia.
  - lia.
  - change (pixel rgb_zero normals (Z.of_nat 0) (Z.of_nat 0)) with (mkRgb 0 (-1) 0)%R.
    cbn [red green blue]. lra.
  - change (pixel rgb_zero normals (Z.of_nat 0) (Z.of_nat 0)) with (mkRgb 0 (-1) 0)%R.
    cbn [red green blue]. lra.
Defined.

Lemma normal_map_green_blue_channels_witness :
  let normals : Image (Rgb R) := [[mkRgb 0%R 0%R 1%R]] in
  let out := pixel (mkRgb None None None) (writePSResults_normals normals) 0 0 in
  green out = None /\ blue out = None.
Proof.
  intros normals out.
  destruct (normal_map_green_blue_channels normals 1 1 0 0) as (Hgreen & Hblue & _).
  - split; [reflexivity|]. repeat constructor.
  - vm_compute. discriminate.
  - vm_compute. discriminate.
  - lia.
  - lia.
  - change (pixel rgb_zero normals (Z.of_nat 0) (Z.of_nat 0)) with (mkRgb 0 0 1)%R.
    cbn [red green blue]. lra.
  - change (pixel rgb_zero normals (Z.of_nat 0) (Z.of_nat 0)) with (mkRgb 0 0 1)%R
      in Hgreen, Hblue.
    cbn [red green blue] in Hgreen, Hblue.
    change (Z.of_nat 0) with 0%Z in Hgreen, Hblue. split.
    + subst out. rewrite Hgreen by lra.
      destruct (Rlt_dec _ _) as [Hlt|_]; [lra|reflexivity].
    + apply Hblue. lra.
Defined.

(** ** The exceptions of the solve *)

Lemma forM_Ok_each {A St} (f : St -> A -> result St) (l : list A) (s s' : St) :
  forM f l s = Ok s' -> forall a, a ∈ l -> exists s1 s2, f s1 a = Ok s2.
Proof.
  revert s. induction l as [|b l IH]; intros s Hrun a Ha; [by apply elem_of_nil in Ha|].
  simpl in Hrun. apply rbind_Ok in Hrun as (s1 & Hs1 & Hrun).
  apply elem_of_cons in Ha as [->|Ha]; [by exists s, s1|]. by eapply IH.
Qed.

(** A loop whose turns succeed up to a turn that throws. *)
Lemma forM_throw_at {A St} (f : St -> A -> result St) (l1 l2 : list A) (a : A)
    (e : exn) (s : St) :
  (forall s b, b ∈ l1 -> exists s', f s b = Ok s') ->
  (forall s, f s a = Throw e) ->
  forM f (l1 ++ a :: l2) s = Throw e.
Proof.
  intros Hok Hthrow. revert s. induction l1 as [|b l1 IH]; intros s; simpl.
  - by rewrite Hthrow.
  - destruct (Hok s b) as [s' ->]; [left|]. simpl. apply IH.
    intros s0 b0 Hb0. apply Hok. by right.
Qed.

Section Exceptions.
Context {T : Type} `{Scalar T}.
Variable solve : Matrix T -> Matrix T -> Matrix T.
Variable readImage : string -> result (Image (Rgb T)).
Variable downscaleMask : Image T -> Z -> Image T.
Variable downscaleRGB : Image (Rgb T) -> Z -> Image (Rgb T).

(** X6.  The solve returns only if every picture could be read and has its
    intensities, the ambient picture, if one is requested, could be read,
    and there is a mask or at least one picture. *)
Theorem photometricStereo_returns_only_if (imageList : list string)
    (intList : list (Rgb T)) (lightMat : Matrix T) (mask : Image T)
    (pathToAmbiant : string) (isRobust : bool) (downscale : Z) (r : Solved) :
  photometricStereo solve readImage downscaleMask downscaleRGB
    imageList intList lightMat mask pathToAmbiant isRobust downscale = Ok r ->
  (length imageList <= length intList)%nat
  /\ (forall p, p ∈ imageList -> exists img, readImage p = Ok img)
  /\ (ambiantRequested pathToAmbiant = true -> exists img, readImage pathToAmbiant = Ok img)
  /\ (isRealMask mask = false -> imageList <> []).
Proof.
  intros Hrun. apply photometricStereo_steps in Hrun as (Hsel & Hobs & _).
  unfold observationMatrices in Hobs.
  apply rbind_Ok in Hobs as ([rawColor rawGray] & Hraw & _).
  unfold rawObservations in Hraw. apply rbind_Ok in Hraw as (amb & Hamb & Hloop).
  assert (Hturn : forall i, (i < length imageList)%nat ->
            exists p img, imageList !! i = Some p /\ readImage p = Ok img
                          /\ (i < length intList)%nat).
  { intros i Hi.
    destruct (forM_Ok_each _ _ _ _ Hloop i) as ([imMat imMat_gray] & s2 & Hbody).
    { apply list_elem_of_In, in_seq. lia. }
    unfold readPicture, vector_at in Hbody.
    destruct (imageList !! i) as [p|] eqn:Hp; [|done]. cbn [rbind] in Hbody.
    destruct (readImage p) as [img|] eqn:Himg; [|done]. cbn [rbind] in Hbody.
    destruct (intList !! i) as [int|] eqn:Hint; [|done].
    exists p, img. split; [done|]. split; [done|]. by eapply lookup_lt_Some. }
  split; [|split; [|split]].
  - destruct (length imageList) as [|n] eqn:Hn; [lia|].
    destruct (Hturn n) as (_ & _ & _ & _ & Hlt); lia.
  - intros p Hp. apply list_elem_of_lookup in Hp as [i Hi].
    destruct (Hturn i) as (p' & img & Hp' & Himg & _); [by eapply lookup_lt_Some|].
    rewrite Hi in Hp'. injection Hp' as <-. by exists img.
  - intros Hreq. unfold loadAmbiant in Hamb. rewrite Hreq in Hamb.
    destruct (readImage pathToAmbiant) as [img|]; [by exists img|done].
  - intros Hreal ->. unfold selectPixels in Hsel. by rewrite Hreal in Hsel.
Qed.

(** The loop over the pictures reaches [intList.at(i)] past the last
    intensity. *)
Lemma intensities_run_out (imageList : list string)
    (intList : list (Rgb T)) (lightMat : Matrix T) (mask : Image T)
    (pathToAmbiant : string) (isRobust : bool) (downscale : Z) :
  (forall p, p ∈ imageList -> exists img, readImage p = Ok img) ->
  (ambiantRequested pathToAmbiant = true -> exists img, readImage pathToAmbiant = Ok img) ->
  (length intList < length imageList)%nat ->
  photometricStereo solve readImage downscaleMask downscaleRGB
    imageList intList lightMat mask pathToAmbiant isRobust downscale
  = Throw out_of_range.
Proof.
  intros Hread Hamb Hint. unfold photometricStereo.
  assert (exists sel,
            selectPixels readImage downscaleMask downscaleRGB imageList mask downscale = Ok sel)
    as [sel ->].
  { unfold selectPixels. destruct (isRealMask mask); [by eexists|].
    destruct imageList as [|p l]; [simpl in Hint; lia|].
    cbn [vector_at lookup list_lookup rbind].
    destruct (Hread p) as [img ->]; [left|]. cbn [rbind]. by eexists. }
  cbn [rbind]. unfold observationMatrices, rawObservations.
  assert (exists amb, loadAmbiant readImage downscaleRGB pathToAmbiant downscale = Ok amb)
    as [amb ->].
  { unfold loadAmbiant. destruct (ambiantRequested pathToAmbiant); [|by eexists].
    destruct Hamb as [img ->]; [done|]. by eexists. }
  cbn [rbind].
  replace (seq 0 (length imageList))
    with (seq 0 (length intList)
          ++ length intList :: seq (S (length intList)) (length imageList - S (length intList))).
  2:{ change (length intList :: seq (S (length intList)) (length imageList - S (length intList)))
        with (seq (length intList) (S (length imageList - S (length intList)))).
      rewrite <- (seq_app (length intList) _ 0). f_equal. lia. }
  rewrite (forM_throw_at _ _ _ _ out_of_range); [done| |].
  - intros [imMat imMat_gray] i Hi. apply list_elem_of_In, in_seq in Hi.
    unfold readPicture, vector_at.
    destruct (lookup_lt_is_Some_2 imageList i) as [p Hp]; [lia|]. rewrite Hp. cbn [rbind].
    destruct (Hread p) as [img ->]; [by eapply list_elem_of_lookup_2|]. cbn [rbind].
    destruct (lookup_lt_is_Some_2 intList i) as [int ->]; [lia|]. cbn [rbind]. by eexists.
  - intros [imMat imMat_gray]. unfold readPicture, vector_at.
    destruct (lookup_lt_is_Some_2 imageList (length intList)) as [p Hp]; [lia|].
    rewrite Hp. cbn [rbind].
    destruct (Hread p) as [img ->]; [by eapply list_elem_of_lookup_2|]. cbn [rbind].
    by rewrite (lookup_ge_None_2 intList (length intList)) by lia.
Qed.

(** X7.  When the pictures can be read but there are fewer intensities than
    pictures, the solve throws what [std::vector::at] throws. *)
Theorem missing_intensities_throw_out_of_range (imageList : list string)
    (intList : list (Rgb T)) (lightMat : Matrix T) (mask : Image T)
    (pathToAmbiant : string) (isRobust : bool) (downscale : Z) :
  (forall p, p ∈ imageList -> exists img, readImage p = Ok img) ->
  (ambiantRequested pathToAmbiant = true -> exists img, readImage pathToAmbiant = Ok img) ->
  (length intList < length imageList)%nat ->
  photometricStereo solve readImage downscaleMask downscaleRGB
    imageList intList lightMat mask pathToAmbiant isRobust downscale
  = Throw out_of_range.
Proof. apply intensities_run_out. Qed.
End Exceptions.

Lemma photometricStereo_returns_only_if_witness :
  let imageList := ["a.png"; "b.png"; "c.png"]%string in
  (length imageList <= length Sample.unitIntensities)%nat
  /\ (forall p, p ∈ imageList -> exists img, Sample.readLitAndDark p = Ok img)
  /\ (ambiantRequested "" = true -> exists img, Sample.readLitAndDark "" = Ok img)
  /\ (isRealMask Sample.noMask = false -> imageList <> []).
Proof.
  intros imageList.
  eapply (photometricStereo_returns_only_if
            Sample.solveIdentity Sample.readLitAndDark Sample.keepScale Sample.keepScale
            imageList Sample.unitIntensities Sample.I3 Sample.noMask "" false 1).
  vm_compute. reflexivity.
Defined.

Lemma missing_intensities_throw_out_of_range_witness :
  photometricStereo Sample.solveIdentity Sample.readLitAndDark Sample.keepScale Sample.keepScale
    ["a.png"; "b.png"; "c.png"]%string [Sample.gray 1; Sample.gray 1] Sample.I3 Sample.noMask
    "" false 1
  = Throw out_of_range.
Proof.
  apply (missing_intensities_throw_out_of_range
           Sample.solveIdentity Sample.readLitAndDark Sample.keepScale Sample.keepScale).
  - intros p _. unfold Sample.readLitAndDark.
    destruct (String.eqb p "ambiant.png"); by eexists.
  - intros Hreq. vm_compute in Hreq. discriminate.
  - simpl. lia.
Defined.

(** ** The shape of the pictures handed back *)

Section OutputShape.
Context {T : Type} `{Scalar T}.
Variable solve : Matrix T -> Matrix T -> Matrix T.
Variable readImage : string -> result (Image (Rgb T)).
Variable downscaleMask : Image T -> Z -> Image T.
Variable downscaleRGB : Image (Rgb T) -> Z -> Image (Rgb T).

Lemma photometricStereo_mask (imageList : list string) (intList : list (Rgb T))
    (lightMat : Matrix T) (mask : Image T) (pathToAmbiant : string)
    (isRobust : bool) (downscale : Z) (r : Solved) :
  photometricStereo solve readImage downscaleMask downscaleRGB
    imageList intList lightMat mask pathToAmbiant isRobust downscale = Ok r ->
  out_mask r = sel_mask (tr_sel r).
Proof.
  unfold photometricStereo. intros Hrun.
  apply rbind_Ok in Hrun as (sel & Hsel & Hrun).
  apply rbind_Ok in Hrun as ([imMat imMat_gray] & Hobs & Hrun).
  apply rbind_Ok in Hrun as (nv0 & Hnv0 & Hrun).
  apply rbind_Ok in Hrun as ([[[M_final nv] alb] conv] & Hest & Hrun).
  apply rbind_Ok in Hrun as (albedoNorm & Hnorm & Hrun).
  by injection Hrun as <-.
Qed.

Lemma selectPixels_mask (imageList : list string) (mask : Image T) (downscale : Z)
    (sel : Selection) :
  selectPixels readImage downscaleMask downscaleRGB imageList mask downscale = Ok sel ->
  sel_mask sel = if isRealMask mask && (1 <? downscale)
                 then downscaleMask mask downscale else mask.
Proof.
  unfold selectPixels. destruct (isRealMask mask); simpl.
  - by intros [= <-].
  - destruct (vector_at imageList 0) as [p|]; simpl; [|done].
    destruct (readImage p); simpl; [|done]. by intros [= <-].
Qed.

(** X8.  When the solve returns, the normal map and the albedo map have the
    [rows] x [cols] pixels of the picture grid, and the mask handed back to
    the caller, which writes it to [mask.png], is the downscaled mask when
    a real mask was downscaled, the mask received otherwise. *)
Theorem outputs_have_picture_shape (imageList : list string) (intList : list (Rgb T))
    (lightMat : Matrix T) (mask : Image T) (pathToAmbiant : string)
    (isRobust : bool) (downscale : Z) (rows cols : nat) (r : Solved) :
  Z.of_nat rows <= INT_MAX -> Z.of_nat cols <= INT_MAX ->
  Z.of_nat (rows * cols) <= INT_MAX ->
  pictureShape readImage downscaleMask downscaleRGB imageList mask downscale rows cols ->
  photometricStereo solve readImage downscaleMask downscaleRGB
    imageList intList lightMat mask pathToAmbiant isRobust downscale = Ok r ->
  image_wf rows cols (out_normals r)
  /\ image_wf rows cols (out_albedo r)
  /\ out_mask r = if isRealMask mask && (1 <? downscale)
                  then downscaleMask mask downscale else mask.
Proof.
  intros Hr Hc Hrc Hshape Hrun.
  pose proof (photometricStereo_mask _ _ _ _ _ _ _ _ Hrun) as Hmask.
  apply photometricStereo_steps in Hrun as (Hsel & _ & _ & _ & _ & Hnormals & Halbedo).
  pose proof (selectPixels_layout readImage downscaleMask downscaleRGB imageList mask
                downscale rows cols (tr_sel r) Hr Hc Hrc Hshape Hsel)
    as (Hrows & Hcols & _).
  assert (Hnew : forall d : Rgb T,
            image_wf rows cols (newImage d (pictCols (tr_sel r)) (pictRows (tr_sel r)))).
  { intros d. rewrite Hrows. destruct rows as [|rows'].
    - split; [done|]. constructor.
    - rewrite Hcols by lia. apply newImage_wf. }
  split; [|split].
  - rewrite Hnormals. apply reshapeInImage_wf, Hnew.
  - rewrite Halbedo. apply reshapeInImage_wf, Hnew.
  - rewrite Hmask. by eapply selectPixels_mask.
Qed.
End OutputShape.

Lemma outputs_have_picture_shape_witness :
  exists r,
    photometricStereo Sample.solveIdentity Sample.readLitAndDark Sample.keepScale Sample.keepScale
      ["a.png"; "b.png"; "c.png"]%string Sample.unitIntensities Sample.I3 Sample.noMask
      "" false 1 = Ok r
    /\ image_wf 1 2 (out_normals r) /\ image_wf 1 2 (out_albedo r)
    /\ out_mask r = Sample.noMask.
Proof.
  eexists. split; [vm_compute; reflexivity|].
  apply (outputs_have_picture_shape
           Sample.solveIdentity Sample.readLitAndDark Sample.keepScale Sample.keepScale
           ["a.png"; "b.png"; "c.png"]%string Sample.unitIntensities Sample.I3 Sample.noMask
           "" false 1 1 2).
  - vm_compute. discriminate.
  - vm_compute. discriminate.
  - vm_compute. discriminate.
  - exists "a.png"%string, Sample.litAndDark. repeat split; repeat constructor.
  - vm_compute. reflexivity.
Defined.

(** ** The albedo map *)

Section Coefficients.
Context {T : Type} `{Scalar T}.

Lemma coef_setCoef (rows cols : nat) (M : Matrix T) (i k : nat) (x : T) (i' k' : nat) :
  mshape rows cols M -> (i < rows)%nat -> (k < cols)%nat ->
  coef (setCoef M i (Z.of_nat k) x) i' k'
  = if decide (i' = i /\ k' = k) then x else coef M i' k'.
Proof.
  intros [Hlen Hall] Hi Hk. unfold setCoef.
  destruct (Z.leb_spec 0 (Z.of_nat k)); [|lia]. rewrite Nat2Z.id.
  unfold coef, mcol. rewrite list_lookup_alter.
  destruct (lookup_lt_is_Some_2 M k) as [c Hc]; [lia|].
  assert (Hlc : length c = rows).
  { rewrite Forall_forall in Hall. apply Hall. by eapply list_elem_of_lookup_2. }
  destruct (decide (k = k')) as [<-|Hne].
  - rewrite Hc. simpl. rewrite list_lookup_insert.
    destruct (decide (i' = i /\ k = k)) as [[-> _]|Hno].
    + rewrite decide_True by lia. done.
    + rewrite decide_False by (intros [-> _]; by apply Hno). done.
  - rewrite decide_False by (intros [_ ->]; by apply Hne). done.
Qed.

(** The loop [for i: albedoVect(ch, currentIdx) = g i currentIdx], where
    the assignment is left out when [g] has no value. *)
Lemma scatter_coefs (sel : Selection (T := T)) (rows cols ch : nat)
    (g : nat -> Z -> option T) (pos ks : list nat) (alb alb' : Matrix T) :
  Forall2 (fun i k => currentIdx sel i = Ok (Z.of_nat k)) pos ks ->
  NoDup ks -> Forall (fun k => (k < cols)%nat) ks ->
  mshape rows cols alb -> (ch < rows)%nat ->
  forM (fun alb i => rbind (currentIdx sel i)
          (fun idx => Ok (match g i idx with
                          | Some m => setCoef alb ch idx m
                          | None => alb
                          end))) pos alb = Ok alb' ->
  mshape rows cols alb'
  /\ (forall j i k, pos !! j = Some i -> ks !! j = Some k ->
        coef alb' ch k = default (coef alb ch k) (g i (Z.of_nat k)))
  /\ (forall k ch', k ∉ ks \/ ch' <> ch -> coef alb' ch' k = coef alb ch' k).
Proof.
  intros Hall. revert alb.
  induction Hall as [|i k pos' ks' Hik _ IH]; intros alb Hnd Hlt Hshape Hch; simpl.
  - intros [= <-]. split; [done|]. split; [|done]. intros j i k Hj. by destruct j.
  - rewrite Hik. simpl. intros Hrun.
    apply NoDup_cons in Hnd as [Hk Hnd]. apply Forall_cons in Hlt as [Hklt Hlt].
    set (alb1 := match g i (Z.of_nat k) with
                 | Some m => setCoef alb ch (Z.of_nat k) m
                 | None => alb
                 end) in *.
    assert (Hshape1 : mshape rows cols alb1).
    { subst alb1. destruct (g i (Z.of_nat k)); [by apply setCoef_shape|done]. }
    assert (Hcoef1 : forall ch' k',
              coef alb1 ch' k' = if decide (ch' = ch /\ k' = k)
                                 then default (coef alb ch k) (g i (Z.of_nat k))
                                 else coef alb ch' k').
    { intros ch' k'. subst alb1. destruct (g i (Z.of_nat k)) as [m|]; simpl.
      - by apply (coef_setCoef rows cols).
      - destruct (decide (ch' = ch /\ k' = k)) as [[-> ->]|]; done. }
    apply IH in Hrun as (Hshape' & Hin & Hout); [|done..].
    split; [done|]. split.
    + intros [|j] i0 k0 Hi0 Hk0; simpl in *.
      * injection Hi0 as <-. injection Hk0 as <-.
        rewrite Hout by (by left). rewrite Hcoef1. by rewrite decide_True.
      * rewrite (Hin j i0 k0) by done. rewrite Hcoef1.
        rewrite decide_False; [done|]. intros [_ ->]. apply Hk.
        by eapply list_elem_of_lookup_2.
    + intros k0 ch' Hor. rewrite Hout.
      * rewrite Hcoef1. rewrite decide_False; [done|]. intros [-> ->].
        destruct Hor as [Hor|Hor]; [|done]. apply Hor. left.
      * destruct Hor as [Hor|Hor]; [left|by right].
        intros Hin'. apply Hor. by right.
Qed.

Lemma coef_mZero (rows cols i k : nat) : coef (mZero (T := T) rows cols) i k = szero.
Proof.
  unfold coef, mcol, mZero.
  destruct (replicate cols (replicate rows szero) !! k) as [c|] eqn:Hc; simpl; [|done].
  apply lookup_replicate in Hc as [-> _].
  destruct (replicate rows szero !! i) as [x|] eqn:Hx; simpl; [|done].
  by apply lookup_replicate in Hx as [-> _].
Qed.

Lemma coef_mdivs (rows cols : nat) (M : Matrix T) (m : T) (i k : nat) :
  mshape rows cols M -> (i < rows)%nat -> (k < cols)%nat ->
  coef (mdivs M m) i k = (coef M i k / m)%sc.
Proof.
  intros [Hlen Hall] Hi Hk. unfold coef, mcol, mdivs, mmap.
  rewrite list_lookup_fmap.
  destruct (lookup_lt_is_Some_2 M k) as [c Hc]; [lia|]. rewrite Hc. simpl.
  assert (Hlc : length c = rows).
  { rewrite Forall_forall in Hall. apply Hall. by eapply list_elem_of_lookup_2. }
  rewrite list_lookup_fmap.
  destruct (lookup_lt_is_Some_2 c i) as [x Hx]; [lia|]. by rewrite Hx.
Qed.

Lemma chan_of_column (M : Matrix T) (k ch : nat) :
  (ch < 3)%nat ->
  chan (mkRgb (default szero (mcol M k !! 0%nat)) (default szero (mcol M k !! 1%nat))
              (default szero (mcol M k !! 2%nat))) ch
  = coef M ch k.
Proof. intros Hch. destruct ch as [|[|[|ch]]]; try lia; done. Qed.
End Coefficients.

Section AlbedoMap.
Context {T : Type} `{Scalar T}.
Variable solve : Matrix T -> Matrix T -> Matrix T.
Variable readImage : string -> result (Image (Rgb T)).
Variable downscaleMask : Image T -> Z -> Image T.
Variable downscaleRGB : Image (Rgb T) -> Z -> Image (Rgb T).

(** The three passes, one per channel, over the active pixels. *)
Lemma albedo_channels (sel : Selection (T := T)) (cols : nat)
    (g : nat -> nat -> Z -> option T) (ks : list nat) (alb alb' : Matrix T) :
  activePixels sel = Ok (map Z.of_nat ks) ->
  NoDup ks -> Forall (fun k => (k < cols)%nat) ks ->
  mshape 3 cols alb ->
  forM (fun alb ch =>
          forM (fun alb i => rbind (currentIdx sel i)
                  (fun idx => Ok (match g ch i idx with
                                  | Some m => setCoef alb ch idx m
                                  | None => alb
                                  end)))
               (seq 0 (maskSize sel)) alb)
       (seq 0 3) alb = Ok alb' ->
  mshape 3 cols alb'
  /\ (forall i k ch, ks !! i = Some k -> (ch < 3)%nat ->
        coef alb' ch k = default (coef alb ch k) (g ch i (Z.of_nat k)))
  /\ (forall k ch, k ∉ ks -> coef alb' ch k = coef alb ch k).
Proof.
  intros Hact Hnd Hlt Hshape Hrun.
  pose proof (activePixels_currentIdx sel ks Hact) as Hall.
  assert (Hpos : forall i k, ks !! i = Some k -> seq 0 (maskSize sel) !! i = Some i).
  { intros i k Hk. apply lookup_seq. split; [done|].
    apply Forall2_length in Hall. rewrite length_seq in Hall. rewrite Hall.
    by eapply lookup_lt_Some. }
  cbn [seq forM] in Hrun.
  apply rbind_Ok in Hrun as (alb0 & Hrun0 & Hrun).
  apply rbind_Ok in Hrun as (alb1 & Hrun1 & Hrun).
  apply rbind_Ok in Hrun as (alb2 & Hrun2 & [= <-]).
  eapply (scatter_coefs sel 3 cols 0 (g 0%nat)) in Hrun0
    as (Hs0 & Hin0 & Hout0); [|exact Hall|done|done|done|lia].
  eapply (scatter_coefs sel 3 cols 1 (g 1%nat)) in Hrun1
    as (Hs1 & Hin1 & Hout1); [|exact Hall|done|done|done|lia].
  eapply (scatter_coefs sel 3 cols 2 (g 2%nat)) in Hrun2
    as (Hs2 & Hin2 & Hout2); [|exact Hall|done|done|done|lia].
  split; [done|]. split.
  - intros i k ch Hk Hch. pose proof (Hpos i k Hk) as Hi.
    destruct ch as [|[|[|ch]]]; [| | |lia].
    + rewrite Hout2 by (right; lia). rewrite Hout1 by (right; lia). by eapply Hin0.
    + rewrite Hout2 by (right; lia). rewrite (Hin1 i i k) by done.
      by rewrite Hout0 by (right; lia).
    + rewrite (Hin2 i i k) by done.
      rewrite Hout1 by (right; lia). by rewrite Hout0 by (right; lia).
  - intros k ch Hk. rewrite Hout2, Hout1, Hout0 by (by left). done.
Qed.

(** The estimated albedo before the division by its maximum, and the
    albedo map after it. *)
Lemma albedo_raw_values (imageList : list string) (intList : list (Rgb T))
    (lightMat : Matrix T) (mask : Image T) (pathToAmbiant : string)
    (isRobust : bool) (downscale : Z) (rows cols : nat) (r : Solved) :
  Z.of_nat rows <= INT_MAX -> Z.of_nat cols <= INT_MAX ->
  Z.of_nat (rows * cols) <= INT_MAX ->
  pictureShape readImage downscaleMask downscaleRGB imageList mask downscale rows cols ->
  photometricStereo solve readImage downscaleMask downscaleRGB
    imageList intList lightMat mask pathToAmbiant isRobust downscale = Ok r ->
  exists active : list nat,
    activePixels (tr_sel r) = Ok (map Z.of_nat active)
    /\ Forall (fun k => (k < rows * cols)%nat) active
    /\ mshape 3 (rows * cols) (tr_albedoRaw r)
    /\ (forall i k ch, active !! i = Some k -> (ch < 3)%nat ->
          coef (tr_albedoRaw r) ch k
          = albedoEstimate solve isRobust lightMat (tr_imMat r) (tr_normalsVect r)
              (length imageList) ch i k)
    /\ (forall k ch, k ∉ active -> coef (tr_albedoRaw r) ch k = szero)
    /\ (forall m k ch, maxCoeff (tr_albedoRaw r) = Some m ->
          (k < rows * cols)%nat -> (ch < 3)%nat ->
          chan (pixelOf rgb_zero (out_albedo r) rows k) ch
          = (coef (tr_albedoRaw r) ch k / m)%sc).
Proof.
  intros Hr Hc Hrc Hshape Hrun.
  apply photometricStereo_steps in Hrun
    as (Hsel & _ & _ & Halb & Hnorm & _ & Himg).
  pose proof (selectPixels_layout readImage downscaleMask downscaleRGB imageList mask
                downscale rows cols (tr_sel r) Hr Hc Hrc Hshape Hsel)
    as (Hrows & Hcols & Hcount & active & Hact & _ & Hnd & Hlt).
  rewrite Hcount in Halb.
  assert (Hraw : mshape 3 (rows * cols) (tr_albedoRaw r)
            /\ (forall i k ch, active !! i = Some k -> (ch < 3)%nat ->
                  coef (tr_albedoRaw r) ch k
                  = albedoEstimate solve isRobust lightMat (tr_imMat r) (tr_normalsVect r)
                      (length imageList) ch i k)
            /\ (forall k ch, k ∉ active -> coef (tr_albedoRaw r) ch k = szero)).
  { unfold albedoEstimate. destruct isRobust.
    - pose proof (albedo_channels (tr_sel r) (rows * cols)
                (fun ch i idx =>
                   median (zip_with smul
                     (mcol (pixelValues_channel (tr_imMat r) (length imageList) ch) i)
                     (map (fun x => (sofZ 1 / x)%sc)
                          (mat_vec lightMat (colZ (tr_normalsVect r) idx)))))
                active _ _ Hact Hnd Hlt (mZero_shape 3 (rows * cols)) Halb)
        as (Hs & Hin & Hout).
      split; [exact Hs|]. split.
      + intros i k ch Hk Hch. rewrite (Hin i k ch Hk Hch).
        by rewrite coef_mZero, colZ_nat.
      + intros k ch Hk. rewrite Hout by done. apply coef_mZero.
    - pose proof (albedo_channels (tr_sel r) (rows * cols)
                (fun ch i idx =>
                   Some (vnorm (mcol (solve lightMat
                           (pixelValues_channel (tr_imMat r) (length imageList) ch)) i)))
                active _ _ Hact Hnd Hlt (mZero_shape 3 (rows * cols)) Halb)
        as (Hs & Hin & Hout).
      split; [exact Hs|]. split.
      + intros i k ch Hk Hch. by rewrite (Hin i k ch Hk Hch).
      + intros k ch Hk. rewrite Hout by done. apply coef_mZero. }
  destruct Hraw as (Hs & Hin & Hout).
  exists active. split; [exact Hact|]. split; [exact Hlt|]. split; [exact Hs|].
  split; [exact Hin|]. split; [exact Hout|].
  intros m k ch Hmax Hk Hch. unfold pixelOf.
  assert (Hrpos : (0 < rows)%nat) by (destruct rows; simpl in Hk; lia).
  rewrite Himg, Hrows, Hcols by done.
  rewrite reshapeInImage_pixel; [|done..| |].
  2:{ apply Nat.mod_upper_bound. lia. }
  2:{ apply Nat.Div0.div_lt_upper_bound. lia. }
  cbv zeta.
  replace (k / rows * rows + k mod rows)%nat with k
    by (rewrite (Nat.div_mod_eq k rows) at 1; lia).
  rewrite chan_of_column by done.
  unfold normalizeMax in Hnorm. rewrite Hmax in Hnorm. injection Hnorm as <-.
  by apply (coef_mdivs 3 (rows * cols)).
Qed.

(** X9.  When the solve returns over a picture grid of [rows] x [cols] pixels
    and [m] is the maximum of the estimated albedo: each channel of the
    albedo map at the [i]-th active pixel is the estimate for that channel
    and pixel divided by [m], and each channel at a pixel that is not
    active is zero divided by [m]. *)
Theorem albedo_map_values (imageList : list string) (intList : list (Rgb T))
    (lightMat : Matrix T) (mask : Image T) (pathToAmbiant : string)
    (isRobust : bool) (downscale : Z) (rows cols : nat) (r : Solved) (m : T) :
  Z.of_nat rows <= INT_MAX -> Z.of_nat cols <= INT_MAX ->
  Z.of_nat (rows * cols) <= INT_MAX ->
  pictureShape readImage downscaleMask downscaleRGB imageList mask downscale rows cols ->
  photometricStereo solve readImage downscaleMask downscaleRGB
    imageList intList lightMat mask pathToAmbiant isRobust downscale = Ok r ->
  maxCoeff (tr_albedoRaw r) = Some m ->
  exists active : list nat,
    activePixels (tr_sel r) = Ok (map Z.of_nat active)
    /\ (forall i k ch, active !! i = Some k -> (ch < 3)%nat ->
          chan (pixelOf rgb_zero (out_albedo r) rows k) ch
          = (albedoEstimate solve isRobust lightMat (tr_imMat r) (tr_normalsVect r)
               (length imageList) ch i k / m)%sc)
    /\ (forall k ch, (k < rows * cols)%nat -> k ∉ active -> (ch < 3)%nat ->
          chan (pixelOf rgb_zero (out_albedo r) rows k) ch = (szero / m)%sc).
Proof.
  intros Hr Hc Hrc Hshape Hrun Hmax.
  destruct (albedo_raw_values imageList intList lightMat mask pathToAmbiant isRobust
              downscale rows cols r Hr Hc Hrc Hshape Hrun)
    as (active & Hact & Hlt & _ & Hin & Hout & Hpix).
  exists active. split; [exact Hact|]. split.
  - intros i k ch Hk Hch.
    assert (Hklt : (k < rows * cols)%nat).
    { rewrite Forall_forall in Hlt. apply Hlt. by eapply list_elem_of_lookup_2. }
    rewrite (Hpix m) by done. by rewrite (Hin i k ch Hk Hch).
  - intros k ch Hk Hnot Hch. rewrite (Hpix m) by done. by rewrite Hout.
Qed.
End AlbedoMap.

Lemma albedo_map_values_witness :
  exists r m,
    photometricStereo Sample.solveIdentity Sample.readLitAndDark Sample.keepScale Sample.keepScale
      ["a.png"; "b.png"; "c.png"]%string Sample.unitIntensities Sample.I3 Sample.noMask
      "" false 1 = Ok r
    /\ maxCoeff (tr_albedoRaw r) = Some m
    /\ exists active : list nat,
         activePixels (tr_sel r) = Ok (map Z.of_nat active)
         /\ (forall i k ch, active !! i = Some k -> (ch < 3)%nat ->
               chan (pixelOf rgb_zero (out_albedo r) 1 k) ch
               = (albedoEstimate Sample.solveIdentity false Sample.I3 (tr_imMat r)
                    (tr_normalsVect r) 3 ch i k / m)%sc).
Proof.
  eexists. eexists. split; [vm_compute; reflexivity|]. split; [vm_compute; reflexivity|].
  match goal with
  | |- exists active, activePixels (tr_sel ?r) = _ /\ (forall i k ch, _ -> _ -> _ = (_ / ?m)%sc) =>
      destruct (albedo_map_values
                  Sample.solveIdentity Sample.readLitAndDark Sample.keepScale Sample.keepScale
                  ["a.png"; "b.png"; "c.png"]%string Sample.unitIntensities Sample.I3
                  Sample.noMask "" false 1 1 2 r m) as (active & Hact & Hin & _)
  end.
  - vm_compute. discriminate.
  - vm_compute. discriminate.
  - vm_compute. discriminate.
  - exists "a.png"%string, Sample.litAndDark. repeat split; repeat constructor.
  - vm_compute. reflexivity.
  - vm_compute. reflexivity.
  - exists active. split; [exact Hact|exact Hin].
Defined.

Section PlainAlbedoRange.
Local Open Scope R_scope.
Variable solve : Matrix R -> Matrix R -> Matrix R.
Variable readImage : string -> result (Image (Rgb R)).
Variable downscaleMask : Image R -> Z -> Image R.
Variable downscaleRGB : Image (Rgb R) -> Z -> Image (Rgb R).

Lemma coef_in_concat (rows cols : nat) (M : Matrix R) (i k : nat) :
  mshape rows cols M -> (i < rows)%nat -> (k < cols)%nat -> coef M i k ∈ concat M.
Proof.
  intros [Hlen Hall] Hi Hk. unfold coef, mcol.
  destruct (lookup_lt_is_Some_2 M k) as [c Hc]; [lia|]. rewrite Hc. simpl.
  assert (Hlc : length c = rows).
  { rewrite Forall_forall in Hall. apply Hall. by eapply list_elem_of_lookup_2. }
  destruct (lookup_lt_is_Some_2 c i) as [x Hx]; [lia|]. rewrite Hx. simpl.
  apply list_elem_of_In, in_concat. exists c.
  split; apply list_elem_of_In; by eapply list_elem_of_lookup_2.
Qed.

(** X10.  Over the reals and without the robust refinement, when the maximum of
    the estimated albedo is strictly positive, every channel of every pixel
    of the albedo map lies between 0 and 1. *)
Theorem plain_albedo_in_unit_interval (imageList : list string) (intList : list (Rgb R))
    (lightMat : Matrix R) (mask : Image R) (pathToAmbiant : string)
    (downscale : Z) (rows cols : nat) (r : Solved) (m : R) :
  (Z.of_nat rows <= INT_MAX)%Z -> (Z.of_nat cols <= INT_MAX)%Z ->
  (Z.of_nat (rows * cols) <= INT_MAX)%Z ->
  pictureShape readImage downscaleMask downscaleRGB imageList mask downscale rows cols ->
  photometricStereo solve readImage downscaleMask downscaleRGB
    imageList intList lightMat mask pathToAmbiant false downscale = Ok r ->
  maxCoeff (tr_albedoRaw r) = Some m -> 0 < m ->
  forall k ch, (k < rows * cols)%nat -> (ch < 3)%nat ->
    0 <= chan (pixelOf rgb_zero (out_albedo r) rows k) ch <= 1.
Proof.
  intros Hr Hc Hrc Hshape Hrun Hmax Hpos k ch Hk Hch.
  destruct (albedo_raw_values solve readImage downscaleMask downscaleRGB
              imageList intList lightMat mask pathToAmbiant false
              downscale rows cols r Hr Hc Hrc Hshape Hrun)
    as (active & Hact & Hlt & Hs & Hin & Hout & Hpix).
  rewrite (Hpix m) by done.
  change ((coef (tr_albedoRaw r) ch k / m)%sc) with (coef (tr_albedoRaw r) ch k / m).
  assert (Hle : coef (tr_albedoRaw r) ch k <= m).
  { apply maxCoeff_greatest in Hmax as [_ Hall]. rewrite Forall_forall in Hall.
    apply Hall. by apply (coef_in_concat 3 (rows * cols)). }
  assert (Hge : 0 <= coef (tr_albedoRaw r) ch k).
  { destruct (decide (k ∈ active)) as [Hk'|Hk'].
    - apply list_elem_of_lookup in Hk' as [i Hi]. rewrite (Hin i k ch Hi Hch).
      unfold albedoEstimate. rewrite vnorm_R. apply sqrt_pos.
    - rewrite Hout by done. apply Rle_refl. }
  split.
  - apply Rmult_le_pos; [done|]. apply Rlt_le, Rinv_0_lt_compat, Hpos.
  - apply (Rmult_le_reg_r m); [done|]. unfold Rdiv.
    rewrite Rmult_assoc, Rinv_l by lra. lra.
Qed.
End PlainAlbedoRange.

Lemma plain_albedo_in_unit_interval_witness :
  exists r,
    photometricStereo Sample.solveIdentityR Sample.readOnePixel Sample.keepScale Sample.keepScale
      ["a.png"%string] [mkRgb 1%R 1%R 1%R] [[1%R]] [[1%R]] "" false 1 = Ok r
    /\ forall k ch, (k < 1 * 1)%nat -> (ch < 3)%nat ->
         (0 <= chan (pixelOf rgb_zero (out_albedo r) 1 k) ch <= 1)%R.
Proof.
  eexists. split; [reflexivity|].
  eapply (plain_albedo_in_unit_interval
            Sample.solveIdentityR Sample.readOnePixel Sample.keepScale Sample.keepScale
            ["a.png"%string] [mkRgb 1%R 1%R 1%R] [[1%R]] [[1%R]] "" 1 1 1 _ _
            _ _ _ _ eq_refl).
  - lazy -[sqrt Rlt_dec Rplus Rmult Rinv Rdiv Rminus Ropp IZR Rlt]. reflexivity.
  - repeat match goal with
           | |- context [Rlt_dec ?a ?a] =>
               destruct (Rlt_dec a a) as [Habs|_]; [exfalso; lra|]; cbv iota
           end.
    replace (2 / 1 / (2 / 1))%R with 1%R by (field; lra).
    replace (0 + 1 * 1)%R with 1%R by lra. rewrite sqrt_1.
    repeat match goal with
           | |- context [Rlt_dec ?a ?a] =>
               destruct (Rlt_dec a a) as [Habs|_]; [exfalso; lra|]; cbv iota
           end.
    lra.
  Unshelve.
  all: try (vm_compute; discriminate).
  exists "a.png"%string, Sample.onePixel. repeat split; repeat constructor.
Defined.

(** ** The observation matrices *)

Lemma forM_seq_invariant {St} (P : nat -> St -> Prop) (f : St -> nat -> result St)
    (n : nat) (s s' : St) :
  P 0%nat s ->
  (forall i s1 s2, (i < n)%nat -> P i s1 -> f s1 i = Ok s2 -> P (S i) s2) ->
  forM f (seq 0 n) s = Ok s' -> P n s'.
Proof.
  intros H0 Hstep.
  assert (Hgen : forall m a s, (a + m = n)%nat -> P a s ->
            forM f (seq a m) s = Ok s' -> P n s').
  { induction m as [|m IH]; intros a s0 Ham Ha; simpl.
    - intros [= <-]. by replace n with a by lia.
    - intros Hrun. apply rbind_Ok in Hrun as (s1 & Hs1 & Hrun).
      apply (IH (S a) s1); [lia| |done]. apply (Hstep a s0); [lia|done..]. }
  by apply (Hgen n 0%nat s).
Qed.

Section Blocks.
Context {T : Type} `{Scalar T}.

Lemma setBlockRows_shape (rows cols : nat) (M B : Matrix T) (r0 : nat) :
  mshape rows cols M -> mshape rows cols (setBlockRows M r0 B).
Proof.
  intros [Hlen Hall]. unfold setBlockRows. split; [by rewrite length_imap|].
  apply Forall_forall. intros c Hc. apply list_elem_of_lookup in Hc as [j Hj].
  rewrite list_lookup_imap in Hj.
  destruct (M !! j) as [c0|] eqn:Hc0; [|done]. simpl in Hj.
  assert (Hl : length c0 = rows).
  { rewrite Forall_forall in Hall. apply Hall. by eapply list_elem_of_lookup_2. }
  destruct (B !! j); injection Hj as <-; [by rewrite length_inserts|done].
Qed.

(** The coefficients of [M] after [M.block(r0, 0, b, n) = B], where [B] has
    [n] columns of [b] coefficients. *)
Lemma coef_setBlockRows (rows cols b : nat) (M B : Matrix T) (r0 i j : nat) :
  mshape rows cols M -> mshape b cols B -> (r0 + b <= rows)%nat ->
  (i < rows)%nat -> (j < cols)%nat ->
  coef (setBlockRows M r0 B) i j
  = if decide (r0 <= i < r0 + b)%nat then coef B (i - r0) j else coef M i j.
Proof.
  intros [HlM HallM] [HlB HallB] Hfit Hi Hj. unfold coef, mcol, setBlockRows.
  rewrite list_lookup_imap.
  destruct (lookup_lt_is_Some_2 M j) as [c Hc]; [lia|].
  destruct (lookup_lt_is_Some_2 B j) as [d Hd]; [lia|].
  rewrite Hc, Hd. simpl.
  assert (Hlc : length c = rows).
  { rewrite Forall_forall in HallM. apply HallM. by eapply list_elem_of_lookup_2. }
  assert (Hld : length d = b).
  { rewrite Forall_forall in HallB. apply HallB. by eapply list_elem_of_lookup_2. }
  destruct (decide (r0 <= i < r0 + b)%nat) as [Hin|Hout].
  - by rewrite list_lookup_inserts by lia.
  - destruct (decide (i < r0)%nat).
    + by rewrite list_lookup_inserts_lt.
    + by rewrite list_lookup_inserts_ge by lia.
Qed.

Lemma image_sub_wf (h w : nat) (a b : Image (Rgb T)) :
  image_wf h w a -> image_wf h w b -> image_wf h w (image_sub a b).
Proof.
  intros [Ha Hra] [Hb Hrb]. unfold image_sub. split.
  - rewrite length_zip_with. lia.
  - apply Forall_forall. intros row Hrow.
    apply list_elem_of_lookup in Hrow as [i Hi].
    apply lookup_zip_with_Some in Hi as (ra & rb & -> & Hia & Hib).
    rewrite Forall_forall in Hra. rewrite Forall_forall in Hrb.
    rewrite length_zip_with, (Hra ra), (Hrb rb) by (by eapply list_elem_of_lookup_2). lia.
Qed.

Lemma intensityScaling_wf (h w : nat) (int : Rgb T) (a : Image (Rgb T)) :
  image_wf h w a -> image_wf h w (intensityScaling int a).
Proof.
  intros [Ha Hra]. unfold intensityScaling. split; [by rewrite length_map|].
  apply Forall_map. eapply Forall_impl; [exact Hra|].
  intros row Hrow. simpl. by rewrite length_map.
Qed.
End Blocks.

(** ** C4: the solve does not look at the rank of the light matrix *)

Section RankUnchecked.
Context {T : Type} `{Scalar T}.
Variable solve : Matrix T -> Matrix T -> Matrix T.
Variable readImage : string -> result (Image (Rgb T)).
Variable downscaleMask : Image T -> Z -> Image T.
Variable downscaleRGB : Image (Rgb T) -> Z -> Image (Rgb T).

(** The observation matrices keep the shape they are declared with. *)
Lemma rawObservations_shape (imageList : list string) (intList : list (Rgb T))
    (sel : Selection) (pathToAmbiant : string) (downscale : Z)
    (raw : Matrix T * Matrix T) :
  rawObservations readImage downscaleRGB imageList intList sel pathToAmbiant downscale
  = Ok raw ->
  mshape (3 * length imageList) (maskSize sel) (fst raw)
  /\ mshape (length imageList) (maskSize sel) (snd raw).
Proof.
  unfold rawObservations. intros Hrun.
  apply rbind_Ok in Hrun as (amb & _ & Hrun).
  eapply (forM_invariant
            (fun mats => mshape (3 * length imageList) (maskSize sel) (fst mats)
                         /\ mshape (length imageList) (maskSize sel) (snd mats)));
    [| |exact Hrun]; [|cbn [fst snd]; split; apply mZero_shape].
  intros [imMat imMat_gray] i out _ [HimMat Hgray] Hstep. unfold readPicture in Hstep.
  apply rbind_Ok in Hstep as (p & _ & Hstep).
  apply rbind_Ok in Hstep as (img & _ & Hstep).
  apply rbind_Ok in Hstep as (int & _ & Hstep).
  injection Hstep as <-. split; by apply setBlockRows_shape.
Qed.

(** With a picture, an active pixel and readable inputs, every step of the
    solve returns. *)
Lemma photometricStereo_returns (imageList : list string)
    (intList : list (Rgb T)) (lightMat : Matrix T) (mask : Image T)
    (pathToAmbiant : string) (isRobust : bool) (downscale : Z) (sel : Selection) :
  selectPixels readImage downscaleMask downscaleRGB imageList mask downscale = Ok sel ->
  (0 < maskSize sel)%nat -> (0 < pixelCount sel)%nat -> imageList <> [] ->
  (forall p, p ∈ imageList -> exists img, readImage p = Ok img) ->
  (ambiantRequested pathToAmbiant = true -> exists img, readImage pathToAmbiant = Ok img) ->
  (length imageList <= length intList)%nat ->
  exists r,
    photometricStereo solve readImage downscaleMask downscaleRGB
      imageList intList lightMat mask pathToAmbiant isRobust downscale = Ok r.
Proof.
  intros Hsel Hactive Hpixels Hne Hread Hamb Hint.
  unfold photometricStereo. rewrite Hsel. cbn [rbind].
  assert (Hok : selection_ok sel) by (eapply selectPixels_ok; exact Hsel).
  assert (Hpics : (0 < length imageList)%nat) by (destruct imageList; [done|simpl; lia]).
  unfold observationMatrices.
  destruct (rawObservations_total readImage downscaleRGB imageList intList sel
              pathToAmbiant downscale Hread Hamb Hint) as [[rawColor rawGray] Hraw].
  rewrite Hraw. cbn [rbind].
  destruct (rawObservations_shape _ _ _ _ _ _ Hraw) as [Hcolor Hgray].
  destruct (maxCoeff_some _ _ rawColor Hcolor) as [mc Hmc]; [lia|done|].
  destruct (maxCoeff_some _ _ rawGray Hgray) as [mg Hmg]; [done|done|].
  unfold normalizeMax at 1 2. rewrite Hmc, Hmg. cbn [rbind].
  set (imMat := mdivs rawColor mc). set (imMat_gray := mdivs rawGray mg).
  destruct (scatterNormals_total sel (solve lightMat imMat_gray)
              (mZero (mcols lightMat) (pixelCount sel)) Hok) as [nv ->].
  cbn [rbind]. destruct isRobust.
  - destruct (robustRefine solve lightMat imMat_gray (solve lightMat imMat_gray))
      as [st conv].
    destruct (scatterNormals_total sel (rs_M st) nv Hok) as [nv' ->]. cbn [rbind].
    destruct (forM_ok (robustAlbedoChannel sel lightMat imMat nv' (length imageList))
                (seq 0 3) (mZero 3 (pixelCount sel))) as [alb Halb].
    + intros alb ch _. unfold robustAlbedoChannel.
      apply (forM_pixels_ok sel (fun alb i idx =>
               match median (zip_with smul
                       (mcol (pixelValues_channel imMat (length imageList) ch) i)
                       (map (fun x => (sofZ 1 / x)%sc) (mat_vec lightMat (colZ nv' idx)))) with
               | Some m => setCoef alb ch idx m
               | None => alb
               end)). done.
    + rewrite Halb. cbn [rbind].
      destruct (maxCoeff_some 3 (pixelCount sel) alb) as [ma Hma]; [|lia|done|].
      { eapply robustAlbedo_shape; [apply mZero_shape|exact Halb]. }
      unfold normalizeMax. rewrite Hma. cbn [rbind]. by eexists.
  - destruct (forM_ok (plainAlbedoChannel solve sel lightMat imMat (length imageList))
                (seq 0 3) (mZero 3 (pixelCount sel))) as [alb Halb].
    + intros alb ch _. unfold plainAlbedoChannel.
      apply (forM_pixels_ok sel (fun alb i idx =>
               setCoef alb ch idx
                 (vnorm (mcol (solve lightMat
                           (pixelValues_channel imMat (length imageList) ch)) i)))). done.
    + rewrite Halb. cbn [rbind].
      destruct (maxCoeff_some 3 (pixelCount sel) alb) as [ma Hma]; [|lia|done|].
      { eapply plainAlbedo_shape; [apply mZero_shape|exact Halb]. }
      unfold normalizeMax. rewrite Hma. cbn [rbind]. by eexists.
Qed.

End RankUnchecked.


(** ** C1: two solves over the reals *)

Ltac decide_order :=
  match goal with
  | |- context [Rlt_dec ?a ?b] =>
      first [ assert (a < b)%R by lra; destruct (Rlt_dec a b); [|exfalso; lra]
            | assert (~ (a < b)%R) by lra; destruct (Rlt_dec a b); [exfalso; lra|] ];
      cbv iota
  end.

Lemma normals_unit_or_zero_witness :
  (exists r,
     photometricStereo Sample.solveIdentityR Sample.readOnePixel Sample.keepScale
       Sample.keepScale ["a.png"; "b.png"; "c.png"]%string Sample.unitIntensitiesR
       Sample.I3R [[1%R]] "" false 1 = Ok r
     /\ length (mcol (tr_M r) 0) = 3%nat
     /\ vnorm (mcol (tr_M r) 0) <> 0%R
     /\ vnorm (rgb_list (pixel rgb_zero (out_normals r) 0 0)) = 1%R)
  /\ (exists r,
        photometricStereo Sample.solveIdentityR Sample.readTwoPixels Sample.keepScale
          Sample.keepScale ["a.png"; "b.png"; "c.png"]%string Sample.unitIntensitiesR
          Sample.I3R Sample.leftMask "" false 1 = Ok r
        /\ activePixels (tr_sel r) = Ok [0]
        /\ pixel rgb_zero (out_normals r) 0 1 = mkRgb 0%R 0%R 0%R).
Proof.
  assert (Hone : Z.of_nat 1 <= INT_MAX) by (vm_compute; discriminate).
  assert (Htwo : Z.of_nat 2 <= INT_MAX) by (vm_compute; discriminate).
  split.
  - eexists. split; [reflexivity|].
    assert (Hshape : pictureShape Sample.readOnePixel Sample.keepScale Sample.keepScale
                       ["a.png"; "b.png"; "c.png"]%string [[1%R]] 1 1 1).
    { exists "a.png"%string, Sample.onePixel. repeat split; repeat constructor. }
    destruct (normals_unit_or_zero
                Sample.solveIdentityR Sample.readOnePixel Sample.keepScale Sample.keepScale
                ["a.png"; "b.png"; "c.png"]%string Sample.unitIntensitiesR Sample.I3R
                [[1%R]] "" false 1 1 1 _ Hone Hone Hone Hshape eq_refl)
      as (active & Hact & Hin & _).
    assert (Hactive : active = [0%nat]).
    { match type of Hact with
      | activePixels ?s = _ => change (activePixels s) with (Ok [0] : result (list Z)) in Hact
      end.
      injection Hact as Hact. destruct active as [|k [|? ?]]; try discriminate.
      cbn [map] in Hact. injection Hact as Hk. f_equal. lia. }
    subst active.
    destruct (Hin 0%nat 0%nat eq_refl) as (_ & _ & _ & Hunit).
    match type of Hunit with
    | vnorm ?column <> _ -> _ => assert (Hnz : vnorm column <> 0%R)
    end.
    { lazy -[sqrt Rlt_dec Rplus Rmult Rinv Rdiv Rminus Ropp IZR Rlt].
      repeat decide_order.
      match goal with
      | |- context [(?l / ?l)%R] =>
          set (x := (l / l)%R); assert (Hx : x = 1%R) by (subst x; field; lra)
      end.
      rewrite Hx. intros Hz. apply sqrt_eq_0 in Hz; lra. }
    split; [reflexivity|]. split; [exact Hnz|].
    apply Hunit; [exact Hnz|reflexivity].
  - assert (Hsel : selectPixels Sample.readTwoPixels Sample.keepScale Sample.keepScale
                     ["a.png"; "b.png"; "c.png"]%string Sample.leftMask 1
                   = Ok (mkSelection Sample.leftMask true [0] 1 1 2)).
    { lazy -[sqrt Rlt_dec Rplus Rmult Rinv Rdiv Rminus Ropp IZR Rlt].
      repeat decide_order. reflexivity. }
    destruct (photometricStereo_returns
                Sample.solveIdentityR Sample.readTwoPixels Sample.keepScale Sample.keepScale
                ["a.png"; "b.png"; "c.png"]%string Sample.unitIntensitiesR Sample.I3R
                Sample.leftMask "" false 1 _ Hsel) as [r Hrun].
    { cbn [maskSize]. lia. }
    { vm_compute. lia. }
    { discriminate. }
    { intros p _. by eexists. }
    { intros Hreq. vm_compute in Hreq. discriminate. }
    { simpl. lia. }
    exists r. split; [exact Hrun|].
    assert (Hshape : pictureShape Sample.readTwoPixels Sample.keepScale Sample.keepScale
                       ["a.png"; "b.png"; "c.png"]%string Sample.leftMask 1 1 2).
    { split; [reflexivity|]. repeat constructor. }
    destruct (normals_unit_or_zero
                Sample.solveIdentityR Sample.readTwoPixels Sample.keepScale Sample.keepScale
                ["a.png"; "b.png"; "c.png"]%string Sample.unitIntensitiesR Sample.I3R
                Sample.leftMask "" false 1 1 2 r Hone Htwo Htwo Hshape Hrun)
      as (active & Hact & _ & Hzero).
    assert (Hsame : tr_sel r = mkSelection Sample.leftMask true [0] 1 1 2).
    { apply photometricStereo_steps in Hrun as (Hsel' & _). congruence. }
    rewrite Hsame in Hact |- *.
    change (activePixels (mkSelection Sample.leftMask true [0] 1 1 2))
      with (Ok [0] : result (list Z)) in Hact |- *.
    split; [reflexivity|].
    assert (Hactive : active = [0%nat]).
    { injection Hact as Hact. destruct active as [|k [|? ?]]; try discriminate.
      cbn [map] in Hact. injection Hact as Hk. f_equal. lia. }
    subst active.
    destruct (Hzero 1%nat) as [_ Hstored]; [lia| |exact Hstored].
    intros Hin. apply list_elem_of_singleton in Hin. discriminate.
Defined.

Section Observations.
Context {T : Type} `{Scalar T}.
Variable readImage : string -> result (Image (Rgb T)).
Variable downscaleMask : Image T -> Z -> Image T.
Variable downscaleRGB : Image (Rgb T) -> Z -> Image (Rgb T).

(** The active pixels are the pixels that [image2PsMatrix] selects. *)
Lemma selectPixels_chosen (imageList : list string) (mask : Image T)
    (downscale : Z) (R C : nat) (sel : Selection) :
  Z.of_nat R <= INT_MAX -> Z.of_nat C <= INT_MAX -> Z.of_nat (R * C) <= INT_MAX ->
  pictureShape readImage downscaleMask downscaleRGB imageList mask downscale R C ->
  selectPixels readImage downscaleMask downscaleRGB imageList mask downscale = Ok sel ->
  isRealMask (sel_mask sel) = isRealMask mask ->
  let active := List.filter (chosen (sel_mask sel) R) (seq 0 (R * C)) in
  activePixels sel = Ok (map Z.of_nat active) /\ maskSize sel = length active.
Proof.
  intros HR HC HRC Hshape Hsel Hsame active. subst active.
  unfold pictureShape in Hshape. destruct (isRealMask mask) eqn:Hreal.
  - destruct (selectPixels_with_mask readImage downscaleMask downscaleRGB imageList mask
                downscale R C HR HC HRC Hreal Hshape) as (sel' & Hsel' & Hidx & Hact).
    rewrite Hsel in Hsel'. injection Hsel' as <-.
    assert (Hmask : sel_mask sel
                    = (if 1 <? downscale then downscaleMask mask downscale else mask)
                    /\ maskSize sel = length (indexes sel)).
    { unfold selectPixels in Hsel. rewrite Hreal in Hsel. by injection Hsel as <-. }
    destruct Hmask as [Hmask Hsize].
    assert (Hfilter : List.filter (chosen (sel_mask sel) R) (seq 0 (R * C))
                      = List.filter (selected (sel_mask sel) R) (seq 0 (R * C))).
    { apply List.filter_ext. intros k. unfold chosen. by rewrite Hsame. }
    rewrite Hfilter, Hmask, <- Hidx. split; [done|].
    by rewrite Hsize, Hidx, length_map.
  - destruct Hshape as (p & img & Hp & Himg & Hwf).
    destruct (selectPixels_without_mask readImage downscaleMask downscaleRGB imageList mask
                downscale R C HR HC HRC Hreal p img Hp Himg Hwf) as (sel' & Hsel' & Hsz & Hact).
    rewrite Hsel in Hsel'. injection Hsel' as <-.
    assert (Hfilter : List.filter (chosen (sel_mask sel) R) (seq 0 (R * C)) = seq 0 (R * C)).
    { apply forallb_filter_id, forallb_forall. intros k _. unfold chosen. by rewrite Hsame. }
    rewrite Hfilter, length_seq. done.
Qed.

Lemma luminanceRow_columns {A} (px : A -> Rgb T) (l : list A) :
  luminanceRow (map (fun k => rgb_list (px k)) l) = map (fun k => [luminance (px k)]) l.
Proof.
  unfold luminanceRow. rewrite map_map. apply map_ext. intros k. by destruct (px k).
Qed.

(** One turn of the reading loop, on pictures of [R] x [C] pixels. *)
Lemma readPicture_blocks (imageList : list string) (intList : list (Rgb T))
    (sel : Selection) (pathToAmbiant : string) (downscale : Z)
    (imageAmbiant : Image (Rgb T)) (R C : nat) (imMat imMat_gray : Matrix T) (i : nat)
    (out : Matrix T * Matrix T) :
  Z.of_nat R <= INT_MAX -> Z.of_nat C <= INT_MAX -> Z.of_nat (R * C) <= INT_MAX ->
  let active := List.filter (chosen (sel_mask sel) R) (seq 0 (R * C)) in
  maskSize sel = length active ->
  (forall p img, p ∈ imageList -> readImage p = Ok img ->
     image_wf R C (scaledRGB downscaleRGB img downscale)) ->
  (ambiantRequested pathToAmbiant = true -> image_wf R C imageAmbiant) ->
  readPicture readImage downscaleRGB imageList intList sel pathToAmbiant downscale
    imageAmbiant (imMat, imMat_gray) i = Ok out ->
  exists pic,
    preparedPicture readImage downscaleRGB imageList intList pathToAmbiant downscale
      imageAmbiant i = Ok pic
    /\ out = (setBlockRows imMat (3 * i)
                (map (fun k => rgb_list (pixelOf rgb_zero pic R k)) active),
              setBlockRows imMat_gray i
                (map (fun k => [luminance (pixelOf rgb_zero pic R k)]) active)).
Proof.
  intros HR HC HRC active Hsize Hpics Hamb Hrun.
  unfold readPicture in Hrun. unfold preparedPicture.
  destruct (vector_at imageList i) as [p|] eqn:Hp; [|done]. cbn [rbind] in *.
  destruct (readImage p) as [img|] eqn:Himg; [|done]. cbn [rbind] in *.
  destruct (vector_at intList i) as [int|] eqn:Hint; [|done]. cbn [rbind] in *.
  eexists. split; [reflexivity|]. injection Hrun as <-.
  assert (Hwf : image_wf R C
            (intensityScaling int
               (if ambiantRequested pathToAmbiant
                then image_sub (scaledRGB downscaleRGB img downscale) imageAmbiant
                else scaledRGB downscaleRGB img downscale))).
  { apply intensityScaling_wf.
    assert (Hscaled : image_wf R C (scaledRGB downscaleRGB img downscale)).
    { apply (Hpics p); [|done]. unfold vector_at in Hp.
      destruct (imageList !! i) eqn:Hl; [|done]. injection Hp as ->.
      by eapply list_elem_of_lookup_2. }
    destruct (ambiantRequested pathToAmbiant); [|done].
    apply image_sub_wf; [done|by apply Hamb]. }
  rewrite (image2PsMatrix_packed _ (sel_mask sel) _ R C HR HC HRC Hwf).
  - fold active. by rewrite luminanceRow_columns.
  - fold active. rewrite Hsize. apply mZero_shape.
Qed.

(** X11.  The observation matrices before the division by their maxima, for
    pictures of [R] x [C] pixels whose downscaled mask, if there is one, is
    not a single pixel: rows [3i], [3i+1] and [3i+2] of [imMat] hold the
    three channels of picture [i] and row [i] of [imMat_gray] holds its
    luminance, at the active pixels in their order. *)
Theorem observations_hold_the_pictures (imageList : list string) (intList : list (Rgb T))
    (mask : Image T) (pathToAmbiant : string) (downscale : Z) (R C : nat)
    (sel : Selection) (imageAmbiant : Image (Rgb T)) (rawColor rawGray : Matrix T) :
  Z.of_nat R <= INT_MAX -> Z.of_nat C <= INT_MAX -> Z.of_nat (R * C) <= INT_MAX ->
  pictureShape readImage downscaleMask downscaleRGB imageList mask downscale R C ->
  selectPixels readImage downscaleMask downscaleRGB imageList mask downscale = Ok sel ->
  isRealMask (sel_mask sel) = isRealMask mask ->
  (forall p img, p ∈ imageList -> readImage p = Ok img ->
     image_wf R C (scaledRGB downscaleRGB img downscale)) ->
  loadAmbiant readImage downscaleRGB pathToAmbiant downscale = Ok imageAmbiant ->
  (ambiantRequested pathToAmbiant = true -> image_wf R C imageAmbiant) ->
  rawObservations readImage downscaleRGB imageList intList sel pathToAmbiant downscale
    = Ok (rawColor, rawGray) ->
  exists active : list nat,
    activePixels sel = Ok (map Z.of_nat active)
    /\ forall i pic j k,
         preparedPicture readImage downscaleRGB imageList intList pathToAmbiant downscale
           imageAmbiant i = Ok pic ->
         active !! j = Some k ->
         (forall ch, (ch < 3)%nat ->
            coef rawColor (3 * i + ch) j = chan (pixelOf rgb_zero pic R k) ch)
         /\ coef rawGray i j = luminance (pixelOf rgb_zero pic R k).
Proof.
  intros HR HC HRC Hshape Hsel Hsame Hpics Hload Hamb Hraw.
  destruct (selectPixels_chosen imageList mask downscale R C sel HR HC HRC Hshape Hsel Hsame)
    as [Hact Hsize].
  set (active := List.filter (chosen (sel_mask sel) R) (seq 0 (R * C))) in *.
  exists active. split; [exact Hact|].
  unfold rawObservations in Hraw. rewrite Hload in Hraw. cbn [rbind] in Hraw.
  set (n := length imageList) in *.
  set (prepared := preparedPicture readImage downscaleRGB imageList intList pathToAmbiant
                     downscale imageAmbiant).
  pose (P := fun (m : nat) (st : Matrix T * Matrix T) =>
          mshape (3 * n) (maskSize sel) (fst st) /\ mshape n (maskSize sel) (snd st)
          /\ forall i pic j k, (i < m)%nat -> prepared i = Ok pic -> active !! j = Some k ->
               (forall ch, (ch < 3)%nat ->
                  coef (fst st) (3 * i + ch) j = chan (pixelOf rgb_zero pic R k) ch)
               /\ coef (snd st) i j = luminance (pixelOf rgb_zero pic R k)).
  assert (Hfinal : P n (rawColor, rawGray)).
  { eapply (forM_seq_invariant P); [| |exact Hraw].
    - split; [apply mZero_shape|]. split; [apply mZero_shape|]. intros i pic j k Hi. lia.
    - intros m [imMat imMat_gray] out Hm (Hs1 & Hs2 & Hdone) Hturn.
      cbn [fst snd] in Hs1, Hs2, Hdone.
      destruct (readPicture_blocks imageList intList sel pathToAmbiant downscale imageAmbiant
                  R C imMat imMat_gray m out HR HC HRC Hsize Hpics Hamb Hturn)
        as (picm & Hpicm & ->).
      fold active. unfold P. cbn [fst snd].
      assert (Hb3 : mshape 3 (maskSize sel)
                      (map (fun k => rgb_list (pixelOf rgb_zero picm R k)) active)).
      { split; [by rewrite length_map|]. apply Forall_map, Forall_forall. by intros k _. }
      assert (Hb1 : mshape 1 (maskSize sel)
                      (map (fun k => [luminance (pixelOf rgb_zero picm R k)]) active)).
      { split; [by rewrite length_map|]. apply Forall_map, Forall_forall. by intros k _. }
      split; [by apply setBlockRows_shape|]. split; [by apply setBlockRows_shape|].
      intros i pic j k Hi Hpic Hk.
      assert (Hj : (j < maskSize sel)%nat) by (rewrite Hsize; by eapply lookup_lt_Some).
      split.
      + intros ch Hch.
        rewrite (coef_setBlockRows (3 * n) (maskSize sel) 3) by (done || lia).
        destruct (decide (3 * m <= 3 * i + ch < 3 * m + 3)%nat) as [Hin|Hout].
        * assert (i = m) by lia. subst i.
          fold prepared in Hpicm. rewrite Hpic in Hpicm. injection Hpicm as <-.
          replace (3 * m + ch - 3 * m)%nat with ch by lia.
          unfold coef, mcol. rewrite list_lookup_fmap, Hk. simpl.
          destruct (pixelOf rgb_zero pic R k) as [r g b].
          by destruct ch as [|[|[|ch]]]; try lia.
        * apply (Hdone i pic j k); [lia|done..].
      + rewrite (coef_setBlockRows n (maskSize sel) 1) by (done || lia).
        destruct (decide (m <= i < m + 1)%nat) as [Hin|Hout].
        * assert (i = m) by lia. subst i.
          fold prepared in Hpicm. rewrite Hpic in Hpicm. injection Hpicm as <-.
          rewrite Nat.sub_diag. unfold coef, mcol. by rewrite list_lookup_fmap, Hk.
        * apply (Hdone i pic j k); [lia|done..]. }
  destruct Hfinal as (_ & _ & Hall).
  intros i pic j k Hpic Hk. apply (Hall i pic j k); [|done..].
  unfold prepared, preparedPicture, vector_at in Hpic.
  destruct (imageList !! i) eqn:Hl; [|done]. by eapply lookup_lt_Some.
Qed.
End Observations.

Lemma observations_hold_the_pictures_witness :
  let imageList := ["a.png"; "b.png"; "c.png"]%string in
  exists sel rawColor rawGray,
    selectPixels Sample.readLitAndDark Sample.keepScale Sample.keepScale
      imageList Sample.noMask 1 = Ok sel
    /\ rawObservations Sample.readLitAndDark Sample.keepScale imageList
         Sample.unitIntensities sel "" 1 = Ok (rawColor, rawGray)
    /\ exists active : list nat,
         activePixels sel = Ok (map Z.of_nat active)
         /\ forall i pic j k,
              preparedPicture Sample.readLitAndDark Sample.keepScale imageList
                Sample.unitIntensities "" 1 [] i = Ok pic ->
              active !! j = Some k ->
              (forall ch, (ch < 3)%nat ->
                 coef rawColor (3 * i + ch) j = chan (pixelOf rgb_zero pic 1 k) ch)
              /\ coef rawGray i j = luminance (pixelOf rgb_zero pic 1 k).
Proof.
  intros imageList.
  eexists. eexists. eexists.
  split; [vm_compute; reflexivity|]. split; [vm_compute; reflexivity|].
  apply (observations_hold_the_pictures
           Sample.readLitAndDark Sample.keepScale Sample.keepScale
           imageList Sample.unitIntensities Sample.noMask "" 1 1 2).
  - vm_compute. discriminate.
  - vm_compute. discriminate.
  - vm_compute. discriminate.
  - exists "a.png"%string, Sample.litAndDark. repeat split; repeat constructor.
  - vm_compute. reflexivity.
  - reflexivity.
  - intros p img _ Hread. unfold Sample.readLitAndDark in Hread.
    destruct (String.eqb p "ambiant.png"); injection Hread as <-;
      (split; [reflexivity|repeat constructor]).
  - reflexivity.
  - intros Hreq. vm_compute in Hreq. discriminate.
  - vm_compute. reflexivity.
Defined.

(** ** The median of real numbers *)

Section RealMedian.
Local Open Scope R_scope.

Lemma Rideal_ltb_asym (x y : R) : Rideal.ltb x y = true -> Rideal.ltb y x = false.
Proof. unfold Rideal.ltb. destruct (Rlt_dec x y), (Rlt_dec y x); (done || lra). Qed.

Lemma Rideal_notAfter (a b : R) : notAfter Rideal.ltb a b <-> a <= b.
Proof. unfold notAfter, Rideal.ltb. destruct (Rlt_dec b a); split; (done || lra). Qed.

#[local] Instance Rle_trans' : Transitive Rle.
Proof. intros a b c. apply Rle_trans. Qed.

#[local] Instance Rle_antisym' : AntiSymm (=) Rle.
Proof. intros a b. apply Rle_antisym. Qed.

Lemma std_sort_reals_sorted (l : list R) : StronglySorted Rle (std_sort Rideal.ltb l).
Proof.
  apply Sorted_StronglySorted; [apply Rle_trans'|].
  eapply Sorted_weaken.
  2:{ apply (std_sort_Sorted Rideal.ltb). apply Rideal_ltb_asym. }
  intros a b. apply Rideal_notAfter.
Qed.

Lemma std_sort_reals_perm (l1 l2 : list R) :
  l1 ≡ₚ l2 -> std_sort Rideal.ltb l1 = std_sort Rideal.ltb l2.
Proof.
  intros Hp. apply (StronglySorted_unique Rle); try apply std_sort_reals_sorted.
  by rewrite !std_sort_Permutation.
Qed.

(** X12.  Over the reals and for an odd number [2k+1] of values, [median]
    returns a true median: a value [m] of the input such that the other
    values split into [k] values not above [m] and [k] values not below
    it. *)
Theorem median_odd_is_middle_value (d : list R) (k : nat) :
  length d = (2 * k + 1)%nat ->
  exists m below above,
    median d = Some m
    /\ d ≡ₚ below ++ m :: above
    /\ length below = k /\ length above = k
    /\ Forall (fun x => x <= m) below
    /\ Forall (fun x => m <= x) above.
Proof.
  intros Hlen. rewrite (median_odd d k Hlen).
  change (@sltb R Rideal.scalar) with Rideal.ltb.
  pose proof (std_sort_reals_sorted d) as Hsorted.
  pose proof (std_sort_Permutation Rideal.ltb d) as Hperm.
  pose proof (std_sort_length Rideal.ltb d) as Hlen'.
  set (aux := std_sort Rideal.ltb d) in *.
  destruct (lookup_lt_is_Some_2 aux k) as [m Hm]; [lia|].
  exists m, (take k aux), (drop (S k) aux).
  pose proof (take_drop_middle aux k m Hm) as Hsplit.
  split; [done|]. split; [by rewrite Hsplit|].
  split; [rewrite length_take; lia|]. split; [rewrite length_drop; lia|].
  rewrite <- Hsplit in Hsorted. split.
  - apply Forall_forall. intros x Hx.
    apply (StronglySorted_app_1_elem_of Rle _ _ x m Hsorted); [done|left].
  - apply StronglySorted_app_1_r in Hsorted.
    apply StronglySorted_inv in Hsorted as [_ Hall]. exact Hall.
Qed.

(** X13.  Over the reals, the result of [median] does not depend on the order of
    the values. *)
Theorem median_order_independent (d d' : list R) :
  d ≡ₚ d' -> median d = median d'.
Proof.
  intros Hp. unfold median.
  change (@sltb R Rideal.scalar) with Rideal.ltb.
  by rewrite (std_sort_reals_perm d d' Hp).
Qed.
End RealMedian.

Lemma median_odd_is_middle_value_witness :
  exists m below above,
    median [3; 1; 2]%R = Some m
    /\ [3; 1; 2]%R ≡ₚ below ++ m :: above
    /\ length below = 1%nat /\ length above = 1%nat
    /\ Forall (fun x => (x <= m)%R) below
    /\ Forall (fun x => (m <= x)%R) above.
Proof. apply (median_odd_is_middle_value [3; 1; 2]%R 1). reflexivity. Defined.

Lemma median_order_independent_witness :
  median [3; 1; 2]%R = median [1; 2; 3]%R.
Proof.
  apply median_order_independent.
  change ([3; 1; 2]%R ≡ₚ [1; 2; 3]%R).
  etrans; [apply Permutation_swap|]. apply perm_skip, Permutation_swap.
Defined.

(** ** The text files of the lights *)

Lemma linesRead_no_newline (s : string) : hasNewline s = false -> linesRead s = [s].
Proof.
  induction s as [|c s IH]; simpl; [done|].
  destruct (Ascii.eqb c "010"%char); simpl; [done|]. intros Hs. by rewrite IH.
Qed.

Lemma linesRead_line (line rest : string) :
  hasNewline line = false ->
  linesRead (line ++ String "010"%char rest) = line :: linesRead rest.
Proof.
  induction line as [|c line IH]; simpl; [done|].
  destruct (Ascii.eqb c "010"%char); simpl; [done|]. intros Hs. by rewrite IH.
Qed.

Lemma string_app_empty (s : string) : (s ++ EmptyString)%string = s.
Proof. induction s as [|c s IH]; simpl; [done|]. by rewrite IH. Qed.

Lemma unlines_app_assoc (line : string) (lines : list string) (tail : string) :
  ((line ++ String "010"%char (unlines lines)) ++ tail)%string
  = (line ++ String "010"%char (unlines lines ++ tail))%string.
Proof. induction line as [|c line IH]; simpl; [done|]. by rewrite IH. Qed.

(** The loop reads the lines that end with a newline, then what follows
    the last newline. *)
Lemma linesRead_unlines (lines : list string) (tail : string) :
  Forall (fun line => hasNewline line = false) lines -> hasNewline tail = false ->
  linesRead (unlines lines ++ tail) = lines ++ [tail].
Proof.
  intros Hlines Htail. induction Hlines as [|line lines Hline _ IH]; simpl.
  - by apply linesRead_no_newline.
  - by rewrite unlines_app_assoc, linesRead_line, IH.
Qed.

Lemma last_cons_default {A} (x : A) (l : list A) (d d' : A) :
  List.last (x :: l) d = List.last (x :: l) d'.
Proof. revert x. induction l as [|y l IH]; intros x; [done|]. apply (IH y). Qed.

Lemma extracted_app {T} (extract : string -> list T -> list T) (vars : list T)
    (l1 l2 : list string) :
  extracted extract vars (l1 ++ l2)
  = extracted extract vars l1
    ++ extracted extract (List.last (extracted extract vars l1) vars) l2.
Proof.
  revert vars. induction l1 as [|line l1 IH]; intros vars; simpl; [done|].
  f_equal. rewrite IH. f_equal. f_equal.
  destruct (extracted extract (extract line vars) l1) as [|x l]; [done|].
  apply last_cons_default.
Qed.

Section LightFileFacts.
Context {T : Type} `{Scalar T}.
Variable openText : string -> option string.
Variable extract : string -> list T -> list T.

Lemma foldl_extract {A} (f : list T -> A) (lines : list string) (vars : list T)
    (acc : list A) :
  snd (foldl (fun st line => let vars := extract line (fst st) in
                             (vars, snd st ++ [f vars]))
             (vars, acc) lines)
  = acc ++ map f (extracted extract vars lines).
Proof.
  revert vars acc. induction lines as [|line lines IH]; intros vars acc; simpl.
  - by rewrite app_nil_r.
  - rewrite IH. by rewrite <- app_assoc.
Qed.

(** X14.  [loadLightIntensities] appends one entry per line that ends with a
    newline, extracted in turn; what follows the last newline, that is a
    last line without a newline, gives no entry. *)
Theorem loadLightIntensities_keeps_terminated_lines (intFileName : string)
    (lines : list string) (tail : string) (xyz : list T) (intList : list (Rgb T)) :
  openText intFileName = Some (unlines lines ++ tail)%string ->
  Forall (fun line => hasNewline line = false) lines -> hasNewline tail = false ->
  loadLightIntensities openText extract intFileName xyz intList
  = Done (intList ++ map (fun v => mkRgb (var v 0) (var v 1) (var v 2))
                         (extracted extract xyz lines)).
Proof.
  intros Hopen Hlines Htail. unfold loadLightIntensities. rewrite Hopen. f_equal.
  rewrite (foldl_extract (fun v => mkRgb (var v 0) (var v 1) (var v 2))).
  rewrite linesRead_unlines, extracted_app by done. simpl.
  rewrite map_app, app_assoc. cbn [map]. by rewrite removelast_last.
Qed.
End LightFileFacts.

Lemma loadLightIntensities_keeps_terminated_lines_witness :
  let openText (name : string) := Some "1 1 1
2 2 2
3 3 3"%string in
  let extract (line : string) (vars : list F32.t) :=
    if String.eqb line "1 1 1" then [sofZ 1; sofZ 1; sofZ 1]
    else if String.eqb line "2 2 2" then [sofZ 2; sofZ 2; sofZ 2]
    else [sofZ 3; sofZ 3; sofZ 3] in
  loadLightIntensities openText extract "light_intensities.txt" [] []
  = Done [Sample.gray 1; Sample.gray 2].
Proof.
  intros openText extract.
  apply (loadLightIntensities_keeps_terminated_lines openText extract
           "light_intensities.txt" ["1 1 1"; "2 2 2"]%string "3 3 3"%string [] []).
  - reflexivity.
  - repeat constructor.
  - reflexivity.
Defined.


Section RowFilling.
Context {T : Type} `{Scalar T}.

Lemma setCoefAt_shape (rows cols : nat) (M : Matrix T) (row : Z) (col : nat) (x : T) :
  mshape rows cols M -> mshape rows cols (setCoefAt M row col x).
Proof.
  intros [Hlen Hall]. unfold setCoefAt. destruct (0 <=? row); [|done]. split.
  - by rewrite length_alter.
  - apply Forall_alter; [done|]. intros c _ Hc. by rewrite length_insert.
Qed.

Lemma coef_setCoefAt (rows cols : nat) (M : Matrix T) (row col : nat) (x : T) (r c : nat) :
  mshape rows cols M -> (row < rows)%nat -> (col < cols)%nat ->
  coef (setCoefAt M (Z.of_nat row) col x) r c
  = if decide (r = row /\ c = col) then x else coef M r c.
Proof.
  intros [Hlen Hall] Hrow Hcol. unfold setCoefAt.
  destruct (Z.leb_spec 0 (Z.of_nat row)); [|lia]. rewrite Nat2Z.id.
  unfold coef, mcol. rewrite list_lookup_alter.
  destruct (lookup_lt_is_Some_2 M col) as [v Hv]; [lia|].
  assert (Hlv : length v = rows).
  { rewrite Forall_forall in Hall. apply Hall. by eapply list_elem_of_lookup_2. }
  destruct (decide (col = c)) as [<-|Hne].
  - rewrite Hv. simpl. rewrite list_lookup_insert.
    destruct (decide (r = row /\ col = col)) as [[-> _]|Hno].
    + rewrite decide_True by lia. done.
    + rewrite decide_False by (intros [-> _]; by apply Hno). done.
  - rewrite decide_False by (intros [_ ->]; by apply Hne). done.
Qed.

Lemma setRowAt_from (rows cols : nat) (values : list T) (M : Matrix T) (row off : nat) :
  mshape rows cols M -> (row < rows)%nat -> (off + length values <= cols)%nat ->
  let M' := foldl (fun M cv => setCoefAt M (Z.of_nat row) (fst cv) (snd cv)) M
                  (imap (fun i v => ((off + i)%nat, v)) values) in
  mshape rows cols M'
  /\ forall r c, coef M' r c
                 = if decide (r = row /\ off <= c)%nat
                   then default (coef M r c) (values !! (c - off)%nat)
                   else coef M r c.
Proof.
  revert M off. induction values as [|v values IH]; intros M off Hshape Hrow Hfit; cbn zeta.
  - simpl. split; [done|]. intros r c. by destruct (decide _).
  - simpl in Hfit. rewrite imap_cons. cbn [foldl fst snd].
    rewrite Nat.add_0_r.
    rewrite (imap_ext _ (fun i v => ((S off + i)%nat, v)))
      by (intros i x _; simpl; f_equal; lia).
    destruct (IH (setCoefAt M (Z.of_nat row) off v) (S off)) as [Hs Hc];
      [by apply setCoefAt_shape|done|lia|].
    cbn zeta in Hs, Hc. split; [done|].
    intros r c. rewrite Hc.
    rewrite (coef_setCoefAt rows cols) by (done || lia).
    destruct (decide (r = row /\ (S off <= c)%nat)) as [[-> Hle]|Hno].
    + rewrite (decide_False (P := row = row /\ c = off)) by lia.
      rewrite decide_True by lia.
      replace (c - off)%nat with (S (c - S off)) by lia. done.
    + destruct (decide (r = row /\ (off <= c)%nat)) as [[-> Hle]|Hno'].
      * assert (c = off) by lia. subst c. rewrite decide_True by done.
        by rewrite Nat.sub_diag.
      * rewrite decide_False; [done|]. intros [-> ->]. apply Hno'. lia.
Qed.

(** The coefficients of [M] after [M(row, 0) = v0; M(row, 1) = v1; ...]. *)
Lemma coef_setRowAt (rows cols : nat) (values : list T) (M : Matrix T) (row : nat) :
  mshape rows cols M -> (row < rows)%nat -> (length values <= cols)%nat ->
  mshape rows cols (setRowAt M (Z.of_nat row) values)
  /\ forall r c, coef (setRowAt M (Z.of_nat row) values) r c
                 = if decide (r = row)
                   then default (coef M r c) (values !! c)
                   else coef M r c.
Proof.
  intros Hshape Hrow Hfit.
  destruct (setRowAt_from rows cols values M row 0 Hshape Hrow) as [Hs Hc]; [lia|].
  cbn zeta in Hs, Hc. unfold setRowAt.
  rewrite (imap_ext pair (fun i v => ((0 + i)%nat, v))) by done.
  split; [done|]. intros r c. rewrite Hc, Nat.sub_0_r.
  destruct (decide (r = row)) as [->|Hne].
  - rewrite decide_True by lia. done.
  - rewrite decide_False by (intros [-> _]; by apply Hne). done.
Qed.

Lemma mrows_shape (rows cols : nat) (M : Matrix T) :
  mshape rows cols M -> (0 < cols)%nat -> mrows M = rows.
Proof.
  intros [Hlen Hall] Hpos. unfold mrows, mcol.
  destruct (lookup_lt_is_Some_2 M 0) as [c Hc]; [lia|]. rewrite Hc. simpl.
  rewrite Forall_forall in Hall. apply Hall. by eapply list_elem_of_lookup_2.
Qed.

Variable extract : string -> list T -> list T.

(** The loop of [loadLightDirections] and [loadLightHS], started at line
    number [n]: row [r] receives the values extracted from the line read
    at turn [r - n], while there are rows; nothing else changes. *)
Lemma fillRows_from (rowOf : list T -> list T) (w rows cols : nat)
    (lines : list string) (vars : list T) (M : Matrix T) (n : nat) :
  mshape rows cols M -> (0 < cols)%nat -> (w <= cols)%nat ->
  (forall v, length (rowOf v) = w) ->
  (n <= rows)%nat -> Z.of_nat rows <= INT_MAX ->
  let st := foldl (fun st line =>
                     let '(vars, lightMat, lineNumber) := st in
                     let vars := extract line vars in
                     if lineNumber <? Z.of_nat (mrows lightMat)
                     then (vars, setRowAt lightMat lineNumber (rowOf vars),
                           wrap_int (lineNumber + 1))
                     else (vars, lightMat, lineNumber))
                  (vars, M, Z.of_nat n) lines in
  mshape rows cols (snd (fst st))
  /\ forall r c, coef (snd (fst st)) r c
                 = match (if decide (n <= r < rows)%nat
                          then extracted extract vars lines !! (r - n)%nat else None) with
                   | Some v => default (coef M r c) (rowOf v !! c)
                   | None => coef M r c
                   end.
Proof.
  intros Hshape Hcols Hw Hrow. revert vars M n Hshape.
  induction lines as [|line lines IH]; intros vars M n Hshape Hn Hmax; cbn zeta.
  - simpl. split; [done|]. intros r c. by destruct (decide _).
  - cbn [foldl extracted]. rewrite (mrows_shape rows cols M) by done.
    destruct (Z.ltb_spec (Z.of_nat n) (Z.of_nat rows)) as [Hlt|Hge].
    + destruct (coef_setRowAt rows cols (rowOf (extract line vars)) M n) as [Hs1 Hc1];
        [done|lia|by rewrite Hrow|].
      replace (wrap_int (Z.of_nat n + 1)) with (Z.of_nat (S n))
        by (symmetry; rewrite Nat2Z.inj_succ; apply wrap_int_small; unfold INT_MAX in Hmax; lia).
      destruct (IH (extract line vars)
                   (setRowAt M (Z.of_nat n) (rowOf (extract line vars))) (S n))
        as [Hs Hc]; [done|lia|done|].
      cbn zeta in Hs, Hc. split; [done|]. intros r c. rewrite Hc, !Hc1.
      destruct (decide (S n <= r < rows)%nat) as [Hin|Hout].
      * rewrite (decide_True (P := (n <= r < rows)%nat)) by lia.
        rewrite !(decide_False (P := r = n)) by lia.
        replace (r - n)%nat with (S (r - S n)) by lia. done.
      * destruct (decide (n <= r < rows)%nat) as [Hin'|Hout'].
        -- assert (r = n) by lia. subst r. rewrite !decide_True by done.
           by rewrite Nat.sub_diag.
        -- rewrite !decide_False by lia. done.
    + assert (n = rows) by lia. subst n.
      destruct (IH (extract line vars) M rows) as [Hs Hc]; [done..|].
      cbn zeta in Hs, Hc. split; [done|]. intros r c. rewrite Hc.
      by rewrite !decide_False by lia.
Qed.

Lemma fillRows_rows (rowOf : list T -> list T) (w rows cols : nat)
    (text : string) (vars : list T) (M : Matrix T) :
  mshape rows cols M -> (0 < cols)%nat -> (w <= cols)%nat ->
  (forall v, length (rowOf v) = w) -> Z.of_nat rows <= INT_MAX ->
  mshape rows cols (fillRows extract rowOf text vars M)
  /\ forall r c, (r < rows)%nat ->
       coef (fillRows extract rowOf text vars M) r c
       = match extracted extract vars (linesRead text) !! r with
         | Some v => default (coef M r c) (rowOf v !! c)
         | None => coef M r c
         end.
Proof.
  intros Hshape Hcols Hw Hrow Hmax.
  destruct (fillRows_from rowOf w rows cols (linesRead text) vars M 0
              Hshape Hcols Hw Hrow) as [Hs Hc]; [lia|done|].
  cbn zeta in Hs, Hc. unfold fillRows. split; [exact Hs|].
  intros r c Hr. change 0 with (Z.of_nat 0). rewrite Hc.
  rewrite decide_True by lia. by rewrite Nat.sub_0_r.
Qed.

Variable openText : string -> option string.

(** X15.  [loadLightDirections] and [loadLightHS] on a light matrix of [rows]
    rows: row [r] receives the values extracted from the [r]-th line read
    (the converted direction; the nine coefficients with [y] and [z]
    negated), while there are lines and rows; the matrix keeps its shape
    and every other coefficient. *)
Theorem light_rows_follow_the_lines (fileName text : string) (convertionMatrix : Matrix T)
    (vars : list T) (lightMat : Matrix T) (rows cols : nat) :
  openText fileName = Some text ->
  mshape rows cols lightMat -> Z.of_nat rows <= INT_MAX ->
  let filled rowOf (L : Matrix T) :=
    mshape rows cols L
    /\ forall r c, (r < rows)%nat ->
         coef L r c
         = match extracted extract vars (linesRead text) !! r with
           | Some v => default (coef lightMat r c) (rowOf v !! c)
           | None => coef lightMat r c
           end in
  ((3 <= cols)%nat ->
   exists L, loadLightDirections openText extract fileName convertionMatrix vars lightMat
             = Done L
             /\ filled (convertedDirection convertionMatrix) L)
  /\ ((9 <= cols)%nat ->
      exists L, loadLightHS openText extract fileName vars lightMat = Done L
                /\ filled harmonicsRow L).
Proof.
  intros Hopen Hshape Hmax filled. subst filled. cbv beta. split.
  - intros Hcols. unfold loadLightDirections. rewrite Hopen. eexists. split; [done|].
    by apply (fillRows_rows (convertedDirection convertionMatrix) 3 rows cols); try lia.
  - intros Hcols. unfold loadLightHS. rewrite Hopen. eexists. split; [done|].
    by apply (fillRows_rows harmonicsRow 9 rows cols); try lia.
Qed.

(** X16.  When the file ends with a newline and holds fewer lines than the
    matrix has rows, the loop runs once more on an empty line: if the
    extraction from an empty line leaves the variables as they are, the
    direction of the last line is stored a second time, in the next row. *)
Theorem loadLightDirections_repeats_last_line (fileName : string) (lines : list string)
    (last : string) (convertionMatrix : Matrix T) (xyz : list T) (lightMat : Matrix T)
    (rows cols : nat) :
  openText fileName = Some (unlines (lines ++ [last])) ->
  Forall (fun line => hasNewline line = false) (lines ++ [last]) ->
  (forall vars, extract EmptyString vars = vars) ->
  mshape rows cols lightMat -> (3 <= cols)%nat -> Z.of_nat rows <= INT_MAX ->
  (length lines + 1 < rows)%nat ->
  exists L, loadLightDirections openText extract fileName convertionMatrix xyz lightMat
            = Done L
    /\ forall c, (c < 3)%nat ->
         coef L (length lines + 1) c = coef L (length lines) c.
Proof.
  intros Hopen Hlines Hempty Hshape Hcols Hmax Hrows.
  unfold loadLightDirections. rewrite Hopen. eexists. split; [done|].
  intros c Hc.
  destruct (fillRows_rows (convertedDirection convertionMatrix) 3 rows cols
              (unlines (lines ++ [last])) xyz lightMat) as [_ Hcoef]; [done|lia|lia|done|done|].
  rewrite !Hcoef by lia.
  rewrite <- (string_app_empty (unlines (lines ++ [last]))).
  rewrite linesRead_unlines by done.
  rewrite !extracted_app. cbn [extracted].
  set (before := extracted extract xyz lines).
  set (v := extract last (List.last before xyz)).
  rewrite Hempty. cbn [List.last].
  assert (Hlen : length before = length lines).
  { subst before. clear. revert xyz. induction lines as [|l ls IH]; intros xyz; simpl; [done|].
    by rewrite IH. }
  rewrite List.last_last.
  rewrite (lookup_app_r (before ++ [v])) by (rewrite length_app; simpl; lia).
  rewrite (lookup_app_l (before ++ [v])) by (rewrite length_app; simpl; lia).
  rewrite (lookup_app_r before) by lia.
  rewrite length_app, Hlen. cbn [length].
  rewrite !Nat.sub_diag. cbn [lookup list_lookup].
  destruct c as [|[|[|c]]]; try lia; reflexivity.
Qed.
End RowFilling.


Lemma light_rows_follow_the_lines_witness :
  let openText (name : string) := Some (unlines ["1 0 0"; "0 1 0"])%string in
  let extract (line : string) (vars : list F32.t) : list F32.t :=
    if String.eqb line "1 0 0" then [sofZ 1; sofZ 0; sofZ 0]
    else if String.eqb line "0 1 0" then [sofZ 0; sofZ 1; sofZ 0]
    else vars in
  exists L,
    loadLightDirections openText extract "light_directions.txt" identity3 [] (mZero 2 3)
    = Done L
    /\ mshape 2 3 L
    /\ coef L 1 1 = default (coef (mZero 2 3) 1 1)
                      (convertedDirection identity3 [sofZ 0; sofZ 1; sofZ 0] !! 1%nat).
Proof.
  intros openText extract.
  destruct (light_rows_follow_the_lines extract openText "light_directions.txt"
              (unlines ["1 0 0"; "0 1 0"])%string identity3 [] (mZero 2 3) 2 3)
    as [Hdir _].
  - reflexivity.
  - apply mZero_shape.
  - vm_compute. discriminate.
  - destruct Hdir as (L & HL & Hshape & Hcoef); [lia|].
    exists L. split; [exact HL|]. split; [exact Hshape|].
    rewrite (Hcoef 1%nat 1%nat) by lia. reflexivity.
Defined.

Lemma loadLightDirections_repeats_last_line_witness :
  let openText (name : string) := Some (unlines ["1 0 0"; "0 1 0"])%string in
  let extract (line : string) (vars : list F32.t) : list F32.t :=
    if String.eqb line "1 0 0" then [sofZ 1; sofZ 0; sofZ 0]
    else if String.eqb line "0 1 0" then [sofZ 0; sofZ 1; sofZ 0]
    else vars in
  exists L,
    loadLightDirections openText extract "light_directions.txt" identity3 [] (mZero 3 3)
    = Done L
    /\ forall c, (c < 3)%nat -> coef L 2 c = coef L 1 c.
Proof.
  intros openText extract.
  apply (loadLightDirections_repeats_last_line extract openText "light_directions.txt"
           ["1 0 0"%string] "0 1 0"%string identity3 [] (mZero 3 3) 3 3).
  - reflexivity.
  - repeat constructor.
  - reflexivity.
  - apply mZero_shape.
  - lia.
  - vm_compute. discriminate.
  - simpl. lia.
Defined.


Section MatrixFile.
Context {T : Type} `{Scalar T}.
Variable openText : string -> option string.
Variable extractFloat : string -> T * option string.

Lemma itemsRead_failed (n : nat) : itemsRead extractFloat n None = replicate n szero.
Proof. induction n as [|n IH]; simpl; [done|]. by rewrite IH. Qed.

Lemma itemsRead_extracts (numbers : list T) (text : string) (final : option string)
    (n : nat) :
  extracts extractFloat text numbers final ->
  (length numbers <= n)%nat -> ((length numbers < n)%nat -> final = None) ->
  itemsRead extractFloat n (Some text)
  = numbers ++ replicate (n - length numbers) szero.
Proof.
  revert text n. induction numbers as [|v vs IH]; intros text n Hex Hle Hend; simpl in *.
  - destruct n as [|n]; [done|]. rewrite Hend in Hex by lia. done.
  - destruct Hex as (stream & Hv & Hrest). destruct n as [|n]; [lia|].
    simpl. rewrite Hv. f_equal. destruct stream as [rest|].
    + apply IH; [done|lia|]. intros Hlt. apply Hend. lia.
    + destruct Hrest as [-> _]. simpl. rewrite Nat.sub_0_r. apply itemsRead_failed.
Qed.

(** The items are stored row after row. *)
Lemma readItems_fold (rows cols n a : nat) (M : Matrix T) (stream : option string) :
  mshape rows cols M -> (0 < cols)%nat -> (a + n <= rows * cols)%nat ->
  let st := foldl (fun st k =>
                     let '(item, stream) := readItem extractFloat (snd st) in
                     (setCoefAt (fst st) (Z.of_nat (k / cols)) (k mod cols) item, stream))
                  (M, stream) (seq a n) in
  mshape rows cols (fst st)
  /\ forall r c, (r < rows)%nat -> (c < cols)%nat ->
       coef (fst st) r c
       = if decide (a <= r * cols + c < a + n)%nat
         then default szero (itemsRead extractFloat n stream !! (r * cols + c - a)%nat)
         else coef M r c.
Proof.
  intros Hshape Hcols. revert a M stream Hshape.
  induction n as [|n IH]; intros a M stream Hshape Hfit; cbn zeta.
  - simpl. split; [done|]. intros r c _ _. rewrite decide_False by lia. done.
  - cbn [seq foldl itemsRead fst snd].
    destruct (readItem extractFloat stream) as [item stream'] eqn:Hitem.
    assert (Hrow : (a / cols < rows)%nat).
    { apply Nat.Div0.div_lt_upper_bound. lia. }
    assert (Hcol : (a mod cols < cols)%nat) by (apply Nat.mod_upper_bound; lia).
    destruct (IH (S a) (setCoefAt M (Z.of_nat (a / cols)) (a mod cols) item) stream')
      as [Hs Hc]; [by apply setCoefAt_shape|lia|].
    cbn zeta in Hs, Hc. split; [done|]. intros r c Hr Hc'. rewrite Hc by done.
    rewrite (coef_setCoefAt rows cols) by done.
    destruct (decide (S a <= r * cols + c < S a + n)%nat) as [Hin|Hout].
    + rewrite decide_True by lia.
      replace (r * cols + c - a)%nat with (S (r * cols + c - S a)) by lia. done.
    + destruct (decide (a <= r * cols + c < a + S n)%nat) as [Hin'|Hout'].
      * assert (Ha : (r * cols + c = a)%nat) by lia.
        rewrite decide_True.
        -- rewrite Ha, Nat.sub_diag. done.
        -- rewrite <- Ha. rewrite Nat.add_comm, Nat.div_add, Nat.Div0.mod_add by lia.
           rewrite Nat.div_small, Nat.mod_small by lia. lia.
      * rewrite decide_False; [done|]. intros [-> ->]. apply Hout'.
        pose proof (Nat.div_mod_eq a cols). lia.
Qed.

Lemma readMatrix_numbers (fileName text : string) (numbers : list T)
    (final : option string) (matrix : Matrix T) (rows cols : nat) :
  openText fileName = Some text ->
  mshape rows cols matrix -> (0 < cols)%nat ->
  Z.of_nat rows <= INT_MAX -> Z.of_nat cols <= INT_MAX ->
  extracts extractFloat text numbers final ->
  (length numbers <= rows * cols)%nat ->
  ((length numbers < rows * cols)%nat -> final = None) ->
  forall r c, (r < rows)%nat -> (c < cols)%nat ->
    coef (readMatrix openText extractFloat fileName matrix) r c
    = nth (r * cols + c) numbers szero.
Proof.
  intros Hopen Hshape Hcols HR HC Hex Hle Hend r c Hr Hc.
  unfold readMatrix. rewrite Hopen.
  rewrite (mrows_shape rows cols) by done.
  replace (mcols matrix) with cols by (symmetry; apply Hshape).
  rewrite !wrap_int_nat by done. rewrite !seqZ_nat, foldl_fmap.
  rewrite (foldl_ext_in _
     (fun st j => foldl
        (fun st i => let '(item, stream) := readItem extractFloat (snd st) in
                     (setCoefAt (fst st) (Z.of_nat j) i item, stream))
        st (seq 0 cols))).
  2:{ intros st j _. rewrite foldl_fmap. apply foldl_ext_in. intros st' i _.
      by rewrite Nat2Z.id. }
  rewrite (foldl_grid
             (fun st i j => let '(item, stream) := readItem extractFloat (snd st) in
                            (setCoefAt (fst st) (Z.of_nat j) i item, stream)) cols rows).
  destruct (readItems_fold rows cols (rows * cols) 0 matrix (Some text) Hshape Hcols)
    as [_ Hcoef]; [lia|].
  cbn zeta in Hcoef. replace (cols * rows)%nat with (rows * cols)%nat by lia.
  rewrite Hcoef by done. rewrite decide_True by nia.
  rewrite (itemsRead_extracts numbers text final) by done.
  rewrite Nat.sub_0_r.
  destruct (decide (r * cols + c < length numbers)%nat) as [Hin|Hout].
  - rewrite lookup_app_l by done.
    destruct (lookup_lt_is_Some_2 numbers (r * cols + c) Hin) as [x Hx].
    rewrite Hx. simpl. symmetry. by apply nth_lookup_Some.
  - rewrite lookup_app_r by lia. rewrite nth_overflow by lia.
    destruct (replicate _ _ !! _) as [x|] eqn:Hx; [|done].
    by apply lookup_replicate in Hx as [-> _].
Qed.

(** X17.  [readMatrix] stores the numbers of the file row after row; when the
    file holds fewer numbers than the matrix has coefficients, so that an
    extraction fails, the coefficients that follow are zero; numbers
    beyond the size of the matrix are not read. *)
Theorem readMatrix_row_major (fileName text : string) (numbers : list T)
    (final : option string) (matrix : Matrix T) (rows cols : nat) :
  openText fileName = Some text ->
  mshape rows cols matrix -> (0 < cols)%nat ->
  Z.of_nat rows <= INT_MAX -> Z.of_nat cols <= INT_MAX ->
  extracts extractFloat text numbers final ->
  (length numbers <= rows * cols)%nat ->
  ((length numbers < rows * cols)%nat -> final = None) ->
  forall r c, (r < rows)%nat -> (c < cols)%nat ->
    coef (readMatrix openText extractFloat fileName matrix) r c
    = nth (r * cols + c) numbers szero.
Proof. apply readMatrix_numbers. Qed.
End MatrixFile.

Lemma readMatrix_row_major_witness :
  let openText (name : string) := Some "1 2 3 4"%string in
  let extractFloat (text : string) : F32.t * option string :=
    if String.eqb text "1 2 3 4" then (sofZ 1, Some " 2 3 4"%string)
    else if String.eqb text " 2 3 4" then (sofZ 2, Some " 3 4"%string)
    else if String.eqb text " 3 4" then (sofZ 3, Some " 4"%string)
    else if String.eqb text " 4" then (sofZ 4, Some ""%string)
    else (sofZ 0, None) in
  coef (readMatrix openText extractFloat "convertionMatrix.txt" identity3) 1 0
  = nth (1 * 3 + 0) [sofZ 1; sofZ 2; sofZ 3; sofZ 4; sofZ 0] szero.
Proof.
  intros openText extractFloat.
  apply (readMatrix_row_major openText extractFloat "convertionMatrix.txt" "1 2 3 4"%string
           [sofZ 1; sofZ 2; sofZ 3; sofZ 4; sofZ 0] None identity3 3 3).
  - reflexivity.
  - split; [reflexivity|]. repeat constructor.
  - lia.
  - vm_compute. discriminate.
  - vm_compute. discriminate.
  - simpl. eexists. split; [reflexivity|]. eexists. split; [reflexivity|].
    eexists. split; [reflexivity|]. eexists. split; [reflexivity|].
    eexists. split; [reflexivity|]. done.
  - simpl. lia.
  - done.
  - lia.
  - lia.
Defined.


(** ** [loadPSData] over the reals *)

Section ConversionMatrix.
Local Open Scope R_scope.
Variable openText : string -> option string.
Variable extract : string -> list R -> list R.
Variable extractFloat : string -> R * option string.
Variable fileExists : string -> bool.

Lemma identity3_shape : mshape 3 3 (identity3 (T := R)).
Proof. split; [reflexivity|]. repeat constructor. Qed.

Lemma convertedDirection_identity (v : list R) (c : nat) :
  (c < 3)%nat -> convertedDirection identity3 v !! c = Some (var v c).
Proof.
  intros Hc. destruct c as [|[|[|c]]]; try lia; simpl; f_equal;
    unfold coef, mcol; simpl; lra.
Qed.

Lemma convertedDirection_zero (cm : Matrix R) (v : list R) (c : nat) :
  (forall r k, (r < 3)%nat -> (k < 3)%nat -> coef cm r k = 0) ->
  (c < 3)%nat -> convertedDirection cm v !! c = Some 0.
Proof.
  intros Hzero Hc. destruct c as [|[|[|c]]]; try lia; simpl; f_equal;
    rewrite !Hzero by lia; lra.
Qed.

(** X18.  With the directional light model (order 0) and no file
    [convertionMatrix.txt] in the folder, the conversion is the identity:
    over the reals, row [r] of the light matrix holds the three values
    extracted from the [r]-th line read of [light_directions.txt]. *)
Theorem loadPSData_identity_by_default (folderPath intText dirText : string)
    (xyzInt xyzDir varsHS : list R) (intList : list (Rgb R)) (lightMat : Matrix R)
    (rows cols : nat) :
  openText (folderPath ++ "/light_intensities.txt")%string = Some intText ->
  fileExists (folderPath ++ "/convertionMatrix.txt")%string = false ->
  openText (folderPath ++ "/light_directions.txt")%string = Some dirText ->
  mshape rows cols lightMat -> (3 <= cols)%nat -> (Z.of_nat rows <= INT_MAX)%Z ->
  exists intList' L,
    loadPSData openText extract extractFloat fileExists folderPath 0
      xyzInt xyzDir varsHS intList lightMat = Done (intList', L)
    /\ forall r v c, extracted extract xyzDir (linesRead dirText) !! r = Some v ->
         (r < rows)%nat -> (c < 3)%nat -> coef L r c = var v c.
Proof.
  intros Hint Hcm Hdir Hshape Hcols Hmax. unfold loadPSData.
  unfold loadLightIntensities at 1. rewrite Hint. cbn [obind]. rewrite Hcm.
  cbn [Z.eqb]. unfold loadLightDirections. rewrite Hdir. cbn [obind].
  eexists. eexists. split; [reflexivity|].
  intros r v c Hv Hr Hc.
  destruct (fillRows_rows extract (convertedDirection identity3) 3 rows cols
              dirText xyzDir lightMat) as [_ Hcoef]; [done|lia|lia|done|done|].
  rewrite Hcoef, Hv by done. by rewrite convertedDirection_identity.
Qed.

(** X19.  When [convertionMatrix.txt] exists but its first extraction fails and
    stores zero (the file is empty, or does not start with a number), the
    conversion matrix is zero, not the identity: over the reals, every row
    of the light matrix that is filled holds the direction (0, 0, 0). *)
Theorem loadPSData_zero_conversion (folderPath intText cmText dirText : string)
    (xyzInt xyzDir varsHS : list R) (intList : list (Rgb R)) (lightMat : Matrix R)
    (rows cols : nat) :
  openText (folderPath ++ "/light_intensities.txt")%string = Some intText ->
  fileExists (folderPath ++ "/convertionMatrix.txt")%string = true ->
  openText (folderPath ++ "/convertionMatrix.txt")%string = Some cmText ->
  extractFloat cmText = (0, None) ->
  openText (folderPath ++ "/light_directions.txt")%string = Some dirText ->
  mshape rows cols lightMat -> (3 <= cols)%nat -> (Z.of_nat rows <= INT_MAX)%Z ->
  exists intList' L,
    loadPSData openText extract extractFloat fileExists folderPath 0
      xyzInt xyzDir varsHS intList lightMat = Done (intList', L)
    /\ forall r c, (r < length (linesRead dirText))%nat ->
         (r < rows)%nat -> (c < 3)%nat -> coef L r c = 0.
Proof.
  intros Hint Hexists Hcm Hfail Hdir Hshape Hcols Hmax. unfold loadPSData.
  unfold loadLightIntensities at 1. rewrite Hint. cbn [obind]. rewrite Hexists.
  cbn [Z.eqb]. unfold loadLightDirections. rewrite Hdir. cbn [obind].
  eexists. eexists. split; [reflexivity|].
  intros r c Hlines Hr Hc.
  set (cm := readMatrix openText extractFloat (folderPath ++ "/convertionMatrix.txt") identity3).
  assert (Hzero : forall r k, (r < 3)%nat -> (k < 3)%nat -> coef cm r k = 0).
  { intros r0 k Hr0 Hk. subst cm.
    rewrite (readMatrix_numbers openText extractFloat _ cmText [0] None identity3 3 3);
      try done.
    - destruct (r0 * 3 + k)%nat as [|[|n]]; reflexivity.
    - apply identity3_shape.
    - lia.
    - simpl. eexists. split; [exact Hfail|]. done.
    - simpl. lia. }
  destruct (fillRows_rows extract (convertedDirection cm) 3 rows cols
              dirText xyzDir lightMat) as [_ Hcoef]; [done|lia|lia|done|done|].
  rewrite Hcoef by done.
  assert (Hlen : forall vars lines, length (extracted extract vars lines) = length lines).
  { intros vars lines. revert vars. induction lines as [|l ls IH]; intros vars; simpl; [done|].
    by rewrite IH. }
  destruct (lookup_lt_is_Some_2 (extracted extract xyzDir (linesRead dirText)) r) as [v Hv];
    [by rewrite Hlen|].
  rewrite Hv. by rewrite convertedDirection_zero.
Qed.
End ConversionMatrix.


Lemma loadPSData_identity_by_default_witness :
  let openText (name : string) := Some (unlines ["1 0 0"])%string in
  let extract (line : string) (vars : list R) : list R :=
    if String.eqb line "1 0 0" then [1; 0; 0]%R else vars in
  let extractFloat (text : string) : R * option string := (0%R, None) in
  let fileExists (name : string) := false in
  exists intList' L,
    loadPSData openText extract extractFloat fileExists "data" 0 [] [] [] [] (mZero 1 3)
    = Done (intList', L)
    /\ forall r v c,
         extracted extract [] (linesRead (unlines ["1 0 0"])%string) !! r = Some v ->
         (r < 1)%nat -> (c < 3)%nat -> coef L r c = var v c.
Proof.
  intros openText extract extractFloat fileExists.
  apply (loadPSData_identity_by_default openText extract extractFloat fileExists
           "data" (unlines ["1 0 0"])%string (unlines ["1 0 0"])%string
           [] [] [] [] (mZero 1 3) 1 3).
  - reflexivity.
  - reflexivity.
  - reflexivity.
  - apply mZero_shape.
  - lia.
  - vm_compute. discriminate.
Defined.

Lemma loadPSData_zero_conversion_witness :
  let openText (name : string) := Some (unlines ["1 0 0"])%string in
  let extract (line : string) (vars : list R) : list R :=
    if String.eqb line "1 0 0" then [1; 0; 0]%R else vars in
  let extractFloat (text : string) : R * option string := (0%R, None) in
  let fileExists (name : string) := true in
  exists intList' L,
    loadPSData openText extract extractFloat fileExists "data" 0 [] [] [] [] (mZero 1 3)
    = Done (intList', L)
    /\ forall r c, (r < length (linesRead (unlines ["1 0 0"])%string))%nat ->
         (r < 1)%nat -> (c < 3)%nat -> coef L r c = 0%R.
Proof.
  intros openText extract extractFloat fileExists.
  apply (loadPSData_zero_conversion openText extract extractFloat fileExists
           "data" (unlines ["1 0 0"])%string (unlines ["1 0 0"])%string
           (unlines ["1 0 0"])%string [] [] [] [] (mZero 1 3) 1 3).
  - reflexivity.
  - reflexivity.
  - reflexivity.
  - reflexivity.
  - reflexivity.
  - apply mZero_shape.
  - lia.
  - vm_compute. discriminate.
Defined.


(** ** The mask file *)

Section MissingMask.
Context {T : Type} `{Scalar T}.
Variable readImage : string -> result (Image (Rgb T)).
Variable downscaleMask : Image T -> Z -> Image T.
Variable downscaleRGB : Image (Rgb T) -> Z -> Image (Rgb T).
Variable fileExists : string -> bool.
Variable readMask : string -> result (Image T).

(** X20.  When the mask file does not exist, [loadMask] hands back a mask of one
    pixel, which the solve takes for the absence of a mask: every pixel of
    the first picture is active, in the order of the linear indexes. *)
Theorem missing_mask_selects_every_pixel (maskName : string) (imageList : list string)
    (downscale : Z) (R C : nat) (p : string) (img : Image (Rgb T)) :
  fileExists maskName = false ->
  Z.of_nat R <= INT_MAX -> Z.of_nat C <= INT_MAX -> Z.of_nat (R * C) <= INT_MAX ->
  imageList !! 0%nat = Some p -> readImage p = Ok img ->
  image_wf R C (scaledRGB downscaleRGB img downscale) ->
  exists mask sel,
    loadMask fileExists readMask maskName = Ok mask
    /\ selectPixels readImage downscaleMask downscaleRGB imageList mask downscale = Ok sel
    /\ hasMask sel = false
    /\ maskSize sel = (R * C)%nat
    /\ activePixels sel = Ok (map Z.of_nat (seq 0 (R * C))).
Proof.
  intros Hmissing HR HC HRC Hp Himg Hwf. unfold loadMask. rewrite Hmissing.
  destruct (selectPixels_without_mask readImage downscaleMask downscaleRGB imageList
              [[sofZ 1]] downscale R C HR HC HRC eq_refl p img Hp Himg Hwf)
    as (sel & Hsel & Hsize & Hact).
  exists [[sofZ 1]], sel. split; [done|]. split; [done|]. split; [|done].
  unfold selectPixels, vector_at in Hsel. rewrite Hp in Hsel.
  change (isRealMask [[sofZ 1]]) with false in Hsel. cbn [rbind] in Hsel.
  rewrite Himg in Hsel. cbn [rbind] in Hsel. by injection Hsel as <-.
Qed.
End MissingMask.

Lemma missing_mask_selects_every_pixel_witness :
  exists mask sel,
    loadMask (fun _ => false) (fun _ => Throw io_error) "mask.png" = Ok mask
    /\ selectPixels Sample.readLitAndDark Sample.keepScale Sample.keepScale
         ["a.png"%string] mask 1 = Ok sel
    /\ hasMask sel = false
    /\ maskSize sel = (1 * 2)%nat
    /\ activePixels sel = Ok (map Z.of_nat (seq 0 (1 * 2))).
Proof.
  apply (missing_mask_selects_every_pixel
           Sample.readLitAndDark Sample.keepScale Sample.keepScale
           (fun _ => false) (fun _ => Throw io_error)
           "mask.png" ["a.png"%string] 1 1 2 "a.png" Sample.litAndDark).
  - reflexivity.
  - vm_compute. discriminate.
  - vm_compute. discriminate.
  - vm_compute. discriminate.
  - reflexivity.
  - reflexivity.
  - split; [reflexivity|]. repeat constructor.
Defined.

(** ** The entry points *)

Lemma obind_Done {A B} (m : outcome A) (k : A -> outcome B) (b : B) :
  obind m k = Done b -> exists a, m = Done a /\ k a = Done b.
Proof. destruct m as [a|f]; simpl; [|done]. intros Hk. by exists a. Qed.

Section FolderEntry.
Context {T : Type} `{Scalar T}.
Variable solve : Matrix T -> Matrix T -> Matrix T.
Variable readImage : string -> result (Image (Rgb T)).
Variable downscaleMask : Image T -> Z -> Image T.
Variable downscaleRGB : Image (Rgb T) -> Z -> Image (Rgb T).
Variable openText : string -> option string.
Variable extract : string -> list T -> list T.
Variable extractFloat : string -> T * option string.
Variable fileExists : string -> bool.
Variable read_json : string -> option (option (list (Light T))).
Variable readMask : string -> result (Image T).
Variable is_directory : string -> bool.
Variable directoryEntries : string -> list string.
Variable supportedExtensions : list string.
Variable remove_filename : string -> string.
Variable uninitialised : nat -> nat -> Matrix T.
Variables xyzInt xyzDir varsHS : list T.

Local Abbreviation folderEntry :=
  (photometricStereo_folder solve readImage downscaleMask downscaleRGB openText extract
     extractFloat fileExists read_json readMask is_directory directoryEntries
     supportedExtensions remove_filename uninitialised xyzInt xyzDir varsHS).

(** X21.  In the entry point for a folder of pictures, [removeAmbiant] has no
    effect: the pictures come from [getPicturesNames], which leaves out
    the pictures named "ambiant", so that no ambient picture is found and
    the solve is called with an empty [pathToAmbiant], for which no
    ambient picture is read. *)
Theorem folder_entry_ignores_removeAmbiant (inputPath lightData : string) (HS_order : Z)
    (isRobust : bool) (downscale : Z) :
  folderEntry inputPath lightData HS_order true isRobust downscale
  = folderEntry inputPath lightData HS_order false isRobust downscale
  /\ (forall removeAmbiant done,
        folderEntry inputPath lightData HS_order removeAmbiant isRobust downscale = Done done ->
        sv_pathToAmbiant done = EmptyString
        /\ ambiantRequested (sv_pathToAmbiant done) = false).
Proof.
  unfold photometricStereo_folder. split.
  - by rewrite !folder_entry_finds_no_ambiant.
  - intros removeAmbiant done. rewrite folder_entry_finds_no_ambiant. intros Hrun.
    apply obind_Done in Hrun as (il & _ & Hrun). unfold runSolve in Hrun.
    apply obind_Done in Hrun as (mask & _ & Hrun).
    apply obind_Done in Hrun as (solved & _ & Hrun).
    by injection Hrun as <-.
Qed.
End FolderEntry.


(** ** The views of a scene, by pose *)

Lemma mapPush_keys (pose view : Z) (m : list (Z * list Z)) (k : Z) :
  k ∈ map fst (mapPush pose view m) -> k = pose \/ k ∈ map fst m.
Proof.
  induction m as [|[pose' views] m IH]; simpl.
  - intros Hk. apply list_elem_of_singleton in Hk. by left.
  - destruct (pose <? pose'); [|destruct (pose =? pose')]; simpl.
    + intros Hk. apply elem_of_cons in Hk as [->|Hk]; [by left|by right].
    + intros Hk. by right.
    + intros Hk. apply elem_of_cons in Hk as [->|Hk]; [right; left|].
      destruct (IH Hk) as [->|Hin]; [by left|right; by right].
Qed.

Lemma mapPush_sorted (pose view : Z) (m : list (Z * list Z)) :
  StronglySorted Z.lt (map fst m) -> StronglySorted Z.lt (map fst (mapPush pose view m)).
Proof.
  induction m as [|[pose' views] m IH]; simpl; intros Hs.
  - repeat constructor.
  - apply StronglySorted_inv in Hs as [Hs Hall].
    destruct (Z.ltb_spec pose pose') as [Hlt|Hge]; [|destruct (Z.eqb_spec pose pose') as [->|Hne]];
      simpl.
    + constructor; [by constructor|]. constructor; [done|].
      eapply Forall_impl; [exact Hall|]. intros k Hk. simpl in *. lia.
    + by constructor.
    + constructor; [by apply IH|]. apply Forall_forall. intros k Hk.
      destruct (mapPush_keys _ _ _ _ Hk) as [->|Hin]; [lia|].
      rewrite Forall_forall in Hall. by apply Hall.
Qed.

Lemma groupOf_absent (m : list (Z * list Z)) (pose : Z) :
  Forall (fun k => pose < k) (map fst m) -> groupOf m pose = [].
Proof.
  unfold groupOf. induction m as [|[pose' views] m IH]; simpl; [done|].
  intros Hall. apply Forall_cons in Hall as [Hlt Hall]. simpl in Hlt.
  destruct (Z.eqb_spec pose' pose); [lia|]. by apply IH.
Qed.

Lemma groupOf_mapPush (pose view : Z) (m : list (Z * list Z)) (p : Z) :
  StronglySorted Z.lt (map fst m) ->
  groupOf (mapPush pose view m) p
  = if p =? pose then groupOf m pose ++ [view] else groupOf m p.
Proof.
  induction m as [|[pose' views] m IH]; simpl; intros Hs.
  - unfold groupOf. simpl. rewrite (Z.eqb_sym pose p). by destruct (p =? pose).
  - apply StronglySorted_inv in Hs as [Hs Hall]. specialize (IH Hs).
    unfold groupOf in *.
    destruct (Z.ltb_spec pose pose') as [Hlt|Hge];
      [|destruct (Z.eqb_spec pose pose') as [Heq|Hne]]; simpl.
    + destruct (Z.eqb_spec p pose) as [Hp|Hp].
      * rewrite (Z.eqb_sym pose p), (proj2 (Z.eqb_eq p pose) Hp).
        destruct (Z.eqb_spec pose' pose) as [?|_]; [lia|].
        pose proof (groupOf_absent m pose) as Habs. unfold groupOf in Habs.
        rewrite Habs; [done|]. eapply Forall_impl; [exact Hall|].
        intros k Hk. simpl in *. lia.
      * destruct (Z.eqb_spec pose p) as [?|_]; [congruence|]. done.
    + rewrite <- Heq. destruct (Z.eqb_spec pose p) as [Hp|Hp].
      * rewrite (proj2 (Z.eqb_eq p pose) (eq_sym Hp)), Z.eqb_refl. done.
      * destruct (Z.eqb_spec p pose) as [?|_]; [congruence|]. done.
    + destruct (Z.eqb_spec pose' p) as [Hp|Hp].
      * destruct (Z.eqb_spec p pose) as [?|_]; [congruence|].
        destruct (Z.eqb_spec pose' pose) as [?|_]; [congruence|]. done.
      * rewrite IH. destruct (Z.eqb_spec p pose) as [Hp'|Hp']; [|done].
        destruct (Z.eqb_spec pose' pose) as [?|_]; [congruence|]. done.
Qed.

Lemma groupOf_entry (m : list (Z * list Z)) (pose : Z) (ids : list Z) :
  StronglySorted Z.lt (map fst m) -> (pose, ids) ∈ m -> groupOf m pose = ids.
Proof.
  induction m as [|[pose' views] m IH]; simpl; intros Hs Hin.
  - by apply elem_of_nil in Hin.
  - apply StronglySorted_inv in Hs as [Hs Hall]. unfold groupOf. simpl.
    apply elem_of_cons in Hin as [[= <- <-]|Hin].
    + by rewrite Z.eqb_refl.
    + destruct (Z.eqb_spec pose' pose) as [->|Hne].
      * rewrite Forall_forall in Hall. assert (pose < pose); [|lia].
        apply Hall. apply list_elem_of_fmap. by exists (pose, ids).
      * by apply IH.
Qed.

Lemma mapPush_nonempty (pose view : Z) (m : list (Z * list Z)) :
  Forall (fun e => snd e <> []) m -> Forall (fun e => snd e <> []) (mapPush pose view m).
Proof.
  induction m as [|[pose' views] m IH]; simpl; intros Hall.
  - repeat constructor. done.
  - apply Forall_cons in Hall as [Hne Hall].
    destruct (pose <? pose'); [|destruct (pose =? pose')].
    + constructor; [done|]. by constructor.
    + constructor; [|done]. simpl. by destruct views.
    + constructor; [done|]. by apply IH.
Qed.

Lemma viewsPerPoseId_facts (views : Views) :
  let m := viewsPerPoseId views in
  StronglySorted Z.lt (map fst m)
  /\ Forall (fun e => snd e <> []) m
  /\ forall pose, groupOf m pose
                  = map (fun v => getViewId (snd v)) (List.filter (fun v => getPoseId (snd v) =? pose) views).
Proof.
  induction views as [|v views IH] using rev_ind; cbn zeta.
  - split; [constructor|]. split; [constructor|]. done.
  - destruct IH as (Hs & Hne & Hgroup). unfold viewsPerPoseId in *.
    rewrite foldl_snoc. split; [by apply mapPush_sorted|].
    split; [by apply mapPush_nonempty|].
    intros pose. rewrite groupOf_mapPush by done.
    rewrite List.filter_app, map_app. simpl.
    destruct (Z.eqb_spec pose (getPoseId (snd v))) as [->|Hne'].
    + by rewrite Z.eqb_refl, Hgroup.
    + destruct (Z.eqb_spec (getPoseId (snd v)) pose); [congruence|].
      simpl. by rewrite app_nil_r.
Qed.

(** X22.  The map of the views by pose holds its poses in ascending order, each
    once; the entry of a pose holds the identifiers of the views of that
    pose, in the order of [getViews()]; no entry is empty. *)
Theorem viewsPerPoseId_groups_views (views : Views) :
  let m := viewsPerPoseId views in
  StronglySorted Z.lt (map fst m)
  /\ forall pose ids,
       (pose, ids) ∈ m
       <-> ids <> []
           /\ ids = map (fun v => getViewId (snd v)) (List.filter (fun v => getPoseId (snd v) =? pose) views).
Proof.
  intros m. destruct (viewsPerPoseId_facts views) as (Hs & Hne & Hgroup). fold m in Hs, Hne, Hgroup.
  split; [exact Hs|]. intros pose ids. split.
  - intros Hin. split.
    + rewrite Forall_forall in Hne. apply (Hne (pose, ids) Hin).
    + by rewrite <- Hgroup, (groupOf_entry m pose ids).
  - intros [Hids ->]. rewrite <- Hgroup in Hids |- *. unfold groupOf in *.
    destruct (List.find (fun e => fst e =? pose) m) as [[pose' ids']|] eqn:Hfind; [|done].
    apply find_some in Hfind as [Hin Heq]. simpl in Heq.
    apply Z.eqb_eq in Heq as ->. by apply list_elem_of_In.
Qed.


(** ** The entry point for the views of a scene *)

Lemma collectViews_snd_on (views acc : list string) (p : string) :
  snd (foldl (fun st imagePath =>
                if negb (Boost.icontains (Boost.stem imagePath) "ambiant")
                then (fst st ++ [imagePath], snd st)
                else if true then (fst st, imagePath) else st) (acc, p) views)
  = foldl (fun pathToAmbiant currentPath =>
             if Boost.icontains (Boost.stem currentPath) "ambiant"
             then currentPath else pathToAmbiant) p views.
Proof.
  revert acc p. induction views as [|v views IH]; intros acc p; simpl; [done|].
  destruct (Boost.icontains (Boost.stem v) "ambiant"); simpl; apply IH.
Qed.

(** The ambient path after the views of a pose, from the one before them. *)
Lemma collectViews_ambiant (b : bool) (views : list string) (p : string) :
  snd (collectViews b views p)
  = if b
    then foldl (fun pathToAmbiant currentPath =>
                  if Boost.icontains (Boost.stem currentPath) "ambiant"
                  then currentPath else pathToAmbiant) p views
    else p.
Proof.
  destruct b; [apply collectViews_snd_on | apply collectViews_off].
Qed.

Lemma getView_paths (views : Views) (viewIds : list Z) (acc paths : list string) :
  oforM (fun paths viewId =>
           obind (getView views viewId) (fun view => Done (paths ++ [getImagePath view])))
        viewIds acc = Done paths ->
  paths = acc ++ groupPaths views viewIds.
Proof.
  revert acc. induction viewIds as [|viewId viewIds IH]; intros acc; simpl.
  - intros [= <-]. by rewrite app_nil_r.
  - unfold getView, groupPaths. cbn [omap list_omap].
    destruct (List.find (fun viewIt => fst viewIt =? viewId) views) as [viewIt|]; simpl; [|done].
    intros Hrun. apply IH in Hrun as ->. by rewrite <- app_assoc.
Qed.

Section SfmEntry.
Context {T : Type} `{Scalar T}.
Variable solve : Matrix T -> Matrix T -> Matrix T.
Variable readImage : string -> result (Image (Rgb T)).
Variable downscaleMask : Image T -> Z -> Image T.
Variable downscaleRGB : Image (Rgb T) -> Z -> Image (Rgb T).
Variable openText : string -> option string.
Variable extract : string -> list T -> list T.
Variable extractFloat : string -> T * option string.
Variable fileExists : string -> bool.
Variable read_json : string -> option (option (list (Light T))).
Variable readMask : string -> result (Image T).
Variable is_directory : string -> bool.
Variable folderName : string -> string.
Variable uninitialised : nat -> nat -> Matrix T.
Variables xyzInt xyzDir varsHS : list T.

Local Abbreviation posesLoop views lightData maskPath HS_order removeAmbiant isRobust downscale :=
  (oforM (solvePose solve readImage downscaleMask downscaleRGB openText extract extractFloat
            fileExists read_json readMask is_directory folderName uninitialised
            xyzInt xyzDir varsHS views lightData maskPath HS_order removeAmbiant isRobust
            downscale)).

Local Abbreviation sfmEntry :=
  (photometricStereo_sfm solve readImage downscaleMask downscaleRGB openText extract
     extractFloat fileExists read_json readMask is_directory folderName uninitialised
     xyzInt xyzDir varsHS).

Local Abbreviation lastAmbiant :=
  (foldl (fun pathToAmbiant currentPath : string =>
            if Boost.icontains (Boost.stem currentPath) "ambiant"
            then currentPath else pathToAmbiant)).

Lemma posesLoop_solves (views : Views) (lightData maskPath : string) (HS_order : Z)
    (removeAmbiant isRobust : bool) (downscale : Z) (poses : list (Z * list Z))
    (pathToAmbiant : string) (solved : list (Solve T)) (st : string * list (Solve T)) :
  posesLoop views lightData maskPath HS_order removeAmbiant isRobust downscale
            poses (pathToAmbiant, solved) = Done st ->
  exists solves,
    snd st = solved ++ solves
    /\ length solves = length poses
    /\ forall (k : nat) s pose ids,
         solves !! k = Some s -> poses !! k = Some (pose, ids) ->
         sv_poseId s = pose
         /\ sv_imageList s
            = List.filter (fun p => negb (Boost.icontains (Boost.stem p) "ambiant"))
                          (groupPaths views ids)
         /\ sv_pathToAmbiant s
            = if removeAmbiant
              then lastAmbiant pathToAmbiant
                     (concat (map (fun e => groupPaths views (snd e)) (take (S k) poses)))
              else pathToAmbiant.
Proof.
  revert pathToAmbiant solved.
  induction poses as [|[poseId viewIds] poses IH]; intros pathToAmbiant solved; simpl.
  - intros [= <-]. exists []. simpl. rewrite app_nil_r. split; [done|]. split; [done|].
    intros k s pose ids Hk. by rewrite lookup_nil in Hk.
  - intros Hrun. apply obind_Done in Hrun as ([amb' solved'] & Hpose & Hrest).
    unfold solvePose in Hpose.
    apply obind_Done in Hpose as (paths & Hpaths & Hpose).
    apply getView_paths in Hpaths. simpl in Hpaths. subst paths.
    apply obind_Done in Hpose as (il & _ & Hpose).
    apply obind_Done in Hpose as (first & _ & Hpose).
    apply obind_Done in Hpose as (done & Hsolve & Hpose).
    cbn [fst snd] in Hpose, Hsolve. injection Hpose as <- <-.
    unfold runSolve in Hsolve.
    apply obind_Done in Hsolve as (mask & _ & Hsolve).
    apply obind_Done in Hsolve as (sol & _ & Hsolve).
    injection Hsolve as <-.
    apply IH in Hrest as (solves & Hst & Hlen & Heach).
    eexists (_ :: solves). split; [by rewrite Hst, <- app_assoc|].
    split; [by simpl; rewrite Hlen|].
    intros [|k] s pose ids Hs Hp.
    + injection Hs as <-. injection Hp as <- <-. cbn [sv_poseId sv_imageList sv_pathToAmbiant].
      split; [done|]. split; [apply collectViews_images|].
      rewrite collectViews_ambiant. cbn [take map concat snd]. by rewrite app_nil_r.
    + cbn [lookup list_lookup] in Hs, Hp.
      destruct (Heach k s pose ids Hs Hp) as (Hid & Himg & Hamb).
      split; [done|]. split; [done|]. rewrite Hamb, collectViews_ambiant.
      destruct removeAmbiant; [|done].
      change (take (S (S k)) ((poseId, viewIds) :: poses))
        with ((poseId, viewIds) :: take (S k) poses).
      cbn [map concat snd]. by rewrite foldl_app.
Qed.

(** X23.  When the solve of the views of a scene returns, it has solved the
    poses one after the other in the order of [viewsPerPoseId]: each with
    the paths of the views of the pose that are not named "ambiant", and,
    when [removeAmbiant] is set, with the last path named "ambiant" among
    the views of this pose and of all the poses before it; the ambient
    picture of a pose is so used for the poses after it until one has its
    own.  Without [removeAmbiant] the path stays empty. *)
Theorem ambiant_path_is_kept_from_pose_to_pose (views : Views) (lightData maskPath : string)
    (HS_order : Z) (removeAmbiant isRobust : bool) (downscale : Z) (solves : list (Solve T)) :
  sfmEntry views lightData maskPath HS_order removeAmbiant isRobust downscale = Done solves ->
  length solves = length (viewsPerPoseId views)
  /\ forall (k : nat) s pose ids,
       solves !! k = Some s -> viewsPerPoseId views !! k = Some (pose, ids) ->
       sv_poseId s = pose
       /\ sv_imageList s
          = List.filter (fun p => negb (Boost.icontains (Boost.stem p) "ambiant"))
                        (groupPaths views ids)
       /\ sv_pathToAmbiant s
          = findAmbiant removeAmbiant
              (concat (map (fun e => groupPaths views (snd e))
                           (take (S k) (viewsPerPoseId views)))).
Proof.
  unfold photometricStereo_sfm. intros Hrun.
  apply obind_Done in Hrun as (st & Hloop & Hst). injection Hst as <-.
  apply posesLoop_solves in Hloop as (news & Hst & Hlen & Heach).
  simpl in Hst. rewrite Hst. split; [done|].
  intros k s pose ids Hs Hp. destruct (Heach k s pose ids Hs Hp) as (Hid & Himg & Hamb).
  split; [done|]. split; [done|]. rewrite Hamb. unfold findAmbiant. by destruct removeAmbiant.
Qed.
End SfmEntry.


Lemma ambiant_path_is_kept_from_pose_to_pose_witness :
  exists solves,
    photometricStereo_sfm Sample.solveIdentity Sample.readLitAndDark Sample.keepScale
      Sample.keepScale Scene.openText Scene.extract Scene.extractFloat Scene.absent
      Scene.read_json Scene.readMask Scene.absent Scene.folderName Scene.zeros [] [] []
      Scene.views "lights.json" "masks" 1 true false 1 = Done solves
    /\ map sv_pathToAmbiant solves = ["ps_001/ambiant.png"; "ps_001/ambiant.png"]%string
    /\ length solves = length (viewsPerPoseId Scene.views)
    /\ forall (k : nat) s pose ids,
         solves !! k = Some s -> viewsPerPoseId Scene.views !! k = Some (pose, ids) ->
         sv_poseId s = pose
         /\ sv_imageList s
            = List.filter (fun p => negb (Boost.icontains (Boost.stem p) "ambiant"))
                          (groupPaths Scene.views ids)
         /\ sv_pathToAmbiant s
            = findAmbiant true
                (concat (map (fun e => groupPaths Scene.views (snd e))
                             (take (S k) (viewsPerPoseId Scene.views)))).
Proof.
  exists (match photometricStereo_sfm Sample.solveIdentity Sample.readLitAndDark
                  Sample.keepScale Sample.keepScale Scene.openText Scene.extract
                  Scene.extractFloat Scene.absent Scene.read_json Scene.readMask Scene.absent
                  Scene.folderName Scene.zeros [] [] []
                  Scene.views "lights.json" "masks" 1 true false 1 with
          | Done solves => solves
          | Failed _ => []
          end).
  split; [vm_compute; reflexivity|]. split; [vm_compute; reflexivity|].
  apply (ambiant_path_is_kept_from_pose_to_pose
           Sample.solveIdentity Sample.readLitAndDark Sample.keepScale
           Sample.keepScale Scene.openText Scene.extract Scene.extractFloat Scene.absent
           Scene.read_json Scene.readMask Scene.absent Scene.folderName Scene.zeros [] [] []
           Scene.views "lights.json" "masks" 1 true false 1).
  vm_compute. reflexivity.
Defined.


(** ** The lights of a JSON file *)

Section JsonLights.
Context {T : Type} `{Scalar T}.
Variable read_json : string -> option (option (list (Light T))).

Lemma hasThree_values (child : option (list (option T))) :
  hasThree child = true -> exists x y z, child = Some [Some x; Some y; Some z].
Proof.
  destruct child as [[|[x|] [|[y|] [|[z|] [|? ?]]]]|]; try done. intros _. by exists x, y, z.
Qed.

Lemma matchLight_skip (path : string) (st : Matrix T * list (Rgb T) * Z * Z) (light : Light T) :
  Boost.icontains (Boost.stem path) (lightName light) = false ->
  matchLight path st light = Done st.
Proof. intros Hm. unfold matchLight. destruct st as [[[M il] ln] cpt]. by rewrite Hm. Qed.

Lemma matchLight_fresh (path : string) (M : Matrix T) (il : list (Rgb T)) (ln : Z)
    (light : Light T) :
  Boost.icontains (Boost.stem path) (lightName light) = true ->
  wellFormed light = true ->
  matchLight path (M, il, ln, 0) light
  = Done (setRowAt M ln (valuesOf (direction light)),
          il ++ [rgbOf (valuesOf (intensity light))], wrap_int (ln + 1), 3).
Proof.
  intros Hm Hwf. apply andb_true_iff in Hwf as [Hi Hd].
  apply hasThree_values in Hi as (a & b & c & Hi).
  apply hasThree_values in Hd as (x & y & z & Hd).
  unfold matchLight. rewrite Hm, Hi, Hd. reflexivity.
Qed.

Lemma matchLight_used (path : string) (M : Matrix T) (il : list (Rgb T)) (ln : Z)
    (light : Light T) :
  Boost.icontains (Boost.stem path) (lightName light) = true ->
  wellFormed light = true ->
  matchLight path (M, il, ln, 3) light = Failed undefined_behaviour.
Proof.
  intros Hm Hwf. apply andb_true_iff in Hwf as [Hi Hd].
  apply hasThree_values in Hi as (a & b & c & Hi).
  unfold matchLight. rewrite Hm, Hi. reflexivity.
Qed.

Lemma lights_loop_used (path : string) (lights : list (Light T)) (M : Matrix T)
    (il : list (Rgb T)) (ln : Z) :
  Forall (fun light => wellFormed light = true) lights ->
  oforM (matchLight path) lights (M, il, ln, 3)
  = match matchingLights lights path with
    | [] => Done (M, il, ln, 3)
    | _ => Failed undefined_behaviour
    end.
Proof.
  induction 1 as [|light lights Hwf _ IH]; [done|].
  unfold matchingLights in *. cbn [oforM List.filter].
  destruct (Boost.icontains (Boost.stem path) (lightName light)) eqn:Hm.
  - by rewrite matchLight_used.
  - rewrite matchLight_skip by done. cbn [obind]. apply IH.
Qed.

Lemma lights_loop_fresh (path : string) (lights : list (Light T)) (M : Matrix T)
    (il : list (Rgb T)) (ln : Z) :
  Forall (fun light => wellFormed light = true) lights ->
  oforM (matchLight path) lights (M, il, ln, 0)
  = match matchingLights lights path with
    | [] => Done (M, il, ln, 0)
    | [light] => Done (setRowAt M ln (valuesOf (direction light)),
                       il ++ [rgbOf (valuesOf (intensity light))], wrap_int (ln + 1), 3)
    | _ => Failed undefined_behaviour
    end.
Proof.
  induction 1 as [|light lights Hwf Hall IH]; [done|].
  unfold matchingLights in *. cbn [oforM List.filter].
  destruct (Boost.icontains (Boost.stem path) (lightName light)) eqn:Hm.
  - rewrite matchLight_fresh by done. cbn [obind].
    rewrite lights_loop_used by done. unfold matchingLights.
    by destruct (List.filter _ lights).
  - rewrite matchLight_skip by done. cbn [obind]. apply IH.
Qed.

Local Abbreviation picturesLoop lights :=
  (oforM (fun (st : Matrix T * list (Rgb T) * Z) (currentImPath : string) =>
            let '(lightMat, intList, lineNumber) := st in
            obind (getChild (Some lights)) (fun lights =>
            obind (oforM (matchLight currentImPath) lights
                         (lightMat, intList, lineNumber, 0)) (fun st' =>
            Done (fst st'))))).

Lemma pictures_loop_overflow (lights : list (Light T)) (imageList : list string)
    (st : Matrix T * list (Rgb T) * Z) :
  Forall (fun light => wellFormed light = true) lights ->
  Exists (fun p => (2 <= length (matchingLights lights p))%nat) imageList ->
  picturesLoop lights imageList st = Failed undefined_behaviour.
Proof.
  intros Hwf Hex. revert st.
  induction imageList as [|p imageList IH]; intros [[M il] ln]; [by apply Exists_nil in Hex|].
  cbn [oforM getChild obind]. rewrite lights_loop_fresh by done.
  destruct (matchingLights lights p) as [|l1 [|l2 ms]] eqn:Hmatch; cbn [obind fst].
  - apply IH. apply Exists_cons in Hex as [Hp|Hex]; [rewrite Hmatch in Hp; simpl in Hp; lia|done].
  - apply IH. apply Exists_cons in Hex as [Hp|Hex]; [rewrite Hmatch in Hp; simpl in Hp; lia|done].
  - done.
Qed.

Lemma pictures_loop_rows (rows cols : nat) (lights : list (Light T))
    (imageList : list string) (M : Matrix T) (il : list (Rgb T)) (n : nat) :
  let matched := concat (map (matchingLights lights) imageList) in
  Forall (fun light => wellFormed light = true) lights ->
  Forall (fun p => (length (matchingLights lights p) <= 1)%nat) imageList ->
  mshape rows cols M -> (3 <= cols)%nat -> Z.of_nat rows <= INT_MAX ->
  (n + length matched <= rows)%nat ->
  exists L,
    picturesLoop lights imageList (M, il, Z.of_nat n)
    = Done (L, il ++ map (fun light => rgbOf (valuesOf (intensity light))) matched,
            Z.of_nat (n + length matched))
    /\ mshape rows cols L
    /\ forall r c,
         coef L r c
         = if decide (n <= r)%nat
           then match matched !! (r - n)%nat with
                | Some light => default (coef M r c) (valuesOf (direction light) !! c)
                | None => coef M r c
                end
           else coef M r c.
Proof.
  intros matched Hwf Hone. subst matched. revert M il n.
  induction Hone as [|p imageList Hp _ IH]; intros M il n Hshape Hcols Hmax Hfit.
  - exists M. cbn [oforM map concat length]. rewrite app_nil_r, Nat.add_0_r.
    split; [done|]. split; [done|]. intros r c. rewrite lookup_nil. by destruct (decide _).
  - cbn [oforM getChild obind map concat]. rewrite lights_loop_fresh by done.
    cbn [map concat] in Hfit. rewrite length_app in Hfit.
    destruct (matchingLights lights p) as [|light [|l2 ms]] eqn:Hmatch;
      [| |simpl in Hp; lia]; cbn [obind fst app length] in *.
    + destruct (IH M il n Hshape Hcols Hmax) as (L & Hrun & HL & Hcoef); [lia|].
      exists L. split; [exact Hrun|done].
    + assert (Hwfl : wellFormed light = true).
      { rewrite Forall_forall in Hwf. apply Hwf.
        assert (Hin : light ∈ matchingLights lights p) by (rewrite Hmatch; left).
        unfold matchingLights in Hin. apply list_elem_of_In, filter_In in Hin as [Hin _].
        by apply list_elem_of_In. }
      apply andb_true_iff in Hwfl as [_ Hd].
      apply hasThree_values in Hd as (x & y & z & Hd).
      assert (Hvals : valuesOf (direction light) = [x; y; z]) by (by rewrite Hd).
      destruct (coef_setRowAt rows cols (valuesOf (direction light)) M n Hshape)
        as [Hshape' Hcoef']; [lia|rewrite Hvals; simpl; lia|].
      replace (wrap_int (Z.of_nat n + 1)) with (Z.of_nat (S n))
        by (symmetry; rewrite Nat2Z.inj_succ; apply wrap_int_small; unfold INT_MAX in Hmax; lia).
      destruct (IH (setRowAt M (Z.of_nat n) (valuesOf (direction light)))
                   (il ++ [rgbOf (valuesOf (intensity light))]) (S n) Hshape' Hcols Hmax)
        as (L & Hrun & HL & Hcoef); [lia|].
      exists L. split.
      { etransitivity; [exact Hrun|]. rewrite <- app_assoc. cbn [map app]. do 3 f_equal. lia. }
      split; [done|]. intros r c. rewrite Hcoef, Hcoef'.
      destruct (decide (S n <= r)%nat) as [Hr|Hr].
      * rewrite (decide_True (P := (n <= r)%nat)) by lia.
        rewrite (decide_False (P := r = n)) by lia.
        replace (r - n)%nat with (S (r - S n)) by lia. done.
      * destruct (decide (n <= r)%nat) as [Hr'|Hr'].
        -- assert (r = n) as -> by lia. rewrite (decide_True (P := n = n)) by done.
           by rewrite Nat.sub_diag.
        -- by rewrite (decide_False (P := r = n)) by lia.
Qed.

(** X24.  When every light of the file has three intensities and three
    directions and the stem of each picture holds the name of at most one
    light, [buildLigtMatFromJSON] returns: the intensities of the lights
    that match a picture are appended to [intList] in the order of the
    pictures, and the directions of the k-th of them fill the first three
    columns of row k of [lightMat]; everything else of [lightMat] is
    left as it was.  A picture that matches no light adds nothing, so that
    the lights of the pictures after it move up by one row. *)
Theorem buildLigtMatFromJSON_one_light_per_picture (fileName : string)
    (lights : list (Light T)) (imageList : list string) (lightMat : Matrix T)
    (intList : list (Rgb T)) (rows cols : nat) :
  let matched := concat (map (matchingLights lights) imageList) in
  read_json fileName = Some (Some lights) ->
  Forall (fun light => wellFormed light = true) lights ->
  Forall (fun p => (length (matchingLights lights p) <= 1)%nat) imageList ->
  mshape rows cols lightMat -> (3 <= cols)%nat -> Z.of_nat rows <= INT_MAX ->
  (length matched <= rows)%nat ->
  exists L,
    buildLigtMatFromJSON read_json fileName imageList lightMat intList
    = Done (L, intList ++ map (fun light => rgbOf (valuesOf (intensity light))) matched)
    /\ mshape rows cols L
    /\ forall r c,
         coef L r c
         = match matched !! r with
           | Some light => default (coef lightMat r c) (valuesOf (direction light) !! c)
           | None => coef lightMat r c
           end.
Proof.
  intros matched Hread Hwf Hone Hshape Hcols Hmax Hfit.
  destruct (pictures_loop_rows rows cols lights imageList lightMat intList 0
              Hwf Hone Hshape Hcols Hmax) as (L & Hrun & HL & Hcoef); [done|].
  exists L. unfold buildLigtMatFromJSON. rewrite Hread. cbn [getChild obind].
  change (Z.of_nat 0) with 0 in Hrun.
  split; [|split; [done|]].
  - exact (f_equal (fun o => obind o (fun st => Done (fst st))) Hrun).
  - intros r c. rewrite Hcoef. rewrite (decide_True (P := (0 <= r)%nat)) by lia.
    by rewrite Nat.sub_0_r.
Qed.

(** X25.  When every light of the file has three intensities and three
    directions and the stem of some picture holds the names of two lights,
    [buildLigtMatFromJSON] writes the first intensity of the second light
    at index 3 of the array of three intensities: [cpt] is still at 3
    after the directions of the first light. *)
Theorem buildLigtMatFromJSON_second_light_overflows (fileName : string)
    (lights : list (Light T)) (imageList : list string) (lightMat : Matrix T)
    (intList : list (Rgb T)) :
  read_json fileName = Some (Some lights) ->
  Forall (fun light => wellFormed light = true) lights ->
  Exists (fun p => (2 <= length (matchingLights lights p))%nat) imageList ->
  buildLigtMatFromJSON read_json fileName imageList lightMat intList
  = Failed undefined_behaviour.
Proof.
  intros Hread Hwf Hex. unfold buildLigtMatFromJSON. rewrite Hread. cbn [getChild obind].
  exact (f_equal (fun o => obind o (fun st => Done (fst st)))
                 (pictures_loop_overflow lights imageList (lightMat, intList, 0) Hwf Hex)).
Qed.
End JsonLights.


Lemma buildLigtMatFromJSON_one_light_per_picture_witness :
  let imageList := ["ps_001/a.png"; "ps_001/x.png"; "ps_001/c.png"]%string in
  let matched := concat (map (matchingLights Scene.lights) imageList) in
  exists L,
    buildLigtMatFromJSON Scene.read_json "lights.json" imageList (Scene.zeros 3 3) []
    = Done (L, [] ++ map (fun light => rgbOf (valuesOf (intensity light))) matched)
    /\ mshape 3 3 L
    /\ forall r c,
         coef L r c
         = match matched !! r with
           | Some light => default (coef (Scene.zeros 3 3) r c) (valuesOf (direction light) !! c)
           | None => coef (Scene.zeros 3 3) r c
           end.
Proof.
  intros imageList.
  apply (buildLigtMatFromJSON_one_light_per_picture Scene.read_json "lights.json"
           Scene.lights imageList (Scene.zeros 3 3) [] 3 3).
  - reflexivity.
  - repeat constructor.
  - repeat (constructor; [vm_compute; lia|]). constructor.
  - split; [reflexivity|]. repeat constructor.
  - lia.
  - vm_compute. discriminate.
  - vm_compute. lia.
Defined.

Lemma buildLigtMatFromJSON_second_light_overflows_witness :
  buildLigtMatFromJSON Scene.read_json "lights.json" ["ps_001/a_b.png"]%string
    (Scene.zeros 1 3) []
  = Failed undefined_behaviour.
Proof.
  apply (buildLigtMatFromJSON_second_light_overflows Scene.read_json "lights.json"
           Scene.lights).
  - reflexivity.
  - repeat constructor.
  - apply Exists_cons_hd. vm_compute. lia.
Defined.


(** ** The entry point [RTI] *)

Lemma filter_Permutation_bool {A} (f : A -> bool) (l l' : list A) :
  l ≡ₚ l' -> List.filter f l ≡ₚ List.filter f l'.
Proof.
  induction 1 as [|x l l' _ IH|x y l|l l' l'' _ IH1 _ IH2]; simpl.
  - done.
  - destruct (f x); [by constructor|done].
  - destruct (f x), (f y); try done. apply perm_swap.
  - by etransitivity.
Qed.

Section RtiEntry.
Context {T : Type} `{Scalar T}.
Variable solve : Matrix T -> Matrix T -> Matrix T.
Variable readImage : string -> result (Image (Rgb T)).
Variable downscaleMask : Image T -> Z -> Image T.
Variable downscaleRGB : Image (Rgb T) -> Z -> Image (Rgb T).
Variable fileExists : string -> bool.
Variable readMask : string -> result (Image T).
Variable uninitialised : nat -> nat -> Matrix T.
Variable buildLigtMatFromModel :
  string -> Matrix T -> list (Rgb T) -> outcome (Matrix T * list (Rgb T)).

(** X26.  [RTI] sorts the paths of its pictures before it pairs them with the
    lights: its result depends on the views only through their image
    paths, whatever the order in which the map of the views holds them;
    and the pictures named "ambiant" are left out, with no ambient picture
    handed to the solve. *)
Theorem RTI_sorts_the_pictures (views views' : Views) (lightData maskPath : string) :
  map (fun viewIt => getImagePath (snd viewIt)) views
    ≡ₚ map (fun viewIt => getImagePath (snd viewIt)) views' ->
  RTI solve readImage downscaleMask downscaleRGB fileExists readMask uninitialised
      buildLigtMatFromModel views lightData maskPath
  = RTI solve readImage downscaleMask downscaleRGB fileExists readMask uninitialised
        buildLigtMatFromModel views' lightData maskPath
  /\ forall done,
       RTI solve readImage downscaleMask downscaleRGB fileExists readMask uninitialised
           buildLigtMatFromModel views lightData maskPath = Done done ->
       StronglySorted pathLe (sv_imageList done)
       /\ sv_imageList done
          ≡ₚ List.filter (fun p => negb (Boost.icontains (Boost.stem p) "ambiant"))
                         (map (fun viewIt => getImagePath (snd viewIt)) views)
       /\ sv_pathToAmbiant done = EmptyString.
Proof.
  intros Hperm. unfold RTI.
  assert (Hsame :
    std_sort String.ltb
      (List.filter (fun p => negb (Boost.icontains (Boost.stem p) "ambiant"))
                   (map (fun viewIt => getImagePath (snd viewIt)) views))
    = std_sort String.ltb
      (List.filter (fun p => negb (Boost.icontains (Boost.stem p) "ambiant"))
                   (map (fun viewIt => getImagePath (snd viewIt)) views'))).
  { apply (std_sort_paths_perm _ _). apply filter_Permutation_bool. exact Hperm. }
  split.
  - by rewrite Hsame.
  - intros done Hrun. apply obind_Done in Hrun as (li & _ & Hrun). unfold runSolve in Hrun.
    apply obind_Done in Hrun as (mask & _ & Hrun).
    apply obind_Done in Hrun as (sol & _ & Hrun). injection Hrun as <-.
    cbn [sv_imageList sv_pathToAmbiant]. split; [apply (std_sort_paths_sorted _)|].
    split; [apply std_sort_Permutation|done].
Qed.
End RtiEntry.


Lemma RTI_sorts_the_pictures_witness :
  let views := take 4 Scene.views in
  let run views :=
    RTI Sample.solveIdentity Sample.readLitAndDark Sample.keepScale Sample.keepScale
        Scene.absent Scene.readMask Scene.zeros Scene.lightsOfModel views "model" "mask.png" in
  run views = run (reverse views)
  /\ forall done,
       run views = Done done ->
       StronglySorted pathLe (sv_imageList done)
       /\ sv_imageList done
          ≡ₚ List.filter (fun p => negb (Boost.icontains (Boost.stem p) "ambiant"))
                         (map (fun viewIt => getImagePath (snd viewIt)) views)
       /\ sv_pathToAmbiant done = EmptyString.
Proof.
  intros views run.
  apply (RTI_sorts_the_pictures Sample.solveIdentity Sample.readLitAndDark Sample.keepScale
           Sample.keepScale Scene.absent Scene.readMask Scene.zeros Scene.lightsOfModel
           views (reverse views) "model" "mask.png").
  change (map (fun viewIt => getImagePath (snd viewIt)) (reverse views))
    with (reverse (map (fun viewIt => getImagePath (snd viewIt)) views)).
  symmetry. apply reverse_Permutation.
Defined.


(** ** A folder whose intensity file has no final newline *)

Section UnterminatedIntensities.
Context {T : Type} `{Scalar T}.
Variable solve : Matrix T -> Matrix T -> Matrix T.
Variable readImage : string -> result (Image (Rgb T)).
Variable downscaleMask : Image T -> Z -> Image T.
Variable downscaleRGB : Image (Rgb T) -> Z -> Image (Rgb T).
Variable openText : string -> option string.
Variable extract : string -> list T -> list T.
Variable extractFloat : string -> T * option string.
Variable fileExists : string -> bool.
Variable read_json : string -> option (option (list (Light T))).
Variable readMask : string -> result (Image T).
Variable is_directory : string -> bool.
Variable directoryEntries : string -> list string.
Variable supportedExtensions : list string.
Variable remove_filename : string -> string.
Variable uninitialised : nat -> nat -> Matrix T.
Variables xyzInt xyzDir varsHS : list T.

(** X27.  The entry point for a folder of pictures, with the lights in text
    files: when [light_intensities.txt] has fewer lines ended by a newline
    than there are pictures, as when it has one line per picture and the
    last line is not ended, the intensities of the last line are dropped
    and the solve throws [std::out_of_range] at the first picture without
    intensities, provided that the file of the directions opens, that the
    pictures can be read and that the mask, if there is one, can be
    read. *)
Theorem unterminated_intensities_stop_the_folder_entry (inputPath lightData : string)
    (HS_order : Z) (removeAmbiant isRobust : bool) (downscale : Z)
    (lines : list string) (tail : string) :
  let imageList :=
    getPicturesNames supportedExtensions
      (directoryEntries (inputPath ++ "/PS_Pictures/")%string) [] in
  let maskName := (remove_filename lightData ++ "/mask.png")%string in
  is_directory lightData = true ->
  openText (lightData ++ "/light_intensities.txt")%string = Some (unlines lines ++ tail)%string ->
  Forall (fun line => hasNewline line = false) lines -> hasNewline tail = false ->
  (length lines < length imageList)%nat ->
  (HS_order = 0 -> openText (lightData ++ "/light_directions.txt")%string <> None) ->
  (HS_order = 2 -> openText (lightData ++ "/light_directions_HS.txt")%string <> None) ->
  (fileExists maskName = true -> exists mask, readMask maskName = Ok mask) ->
  (forall p, p ∈ imageList -> exists img, readImage p = Ok img) ->
  photometricStereo_folder solve readImage downscaleMask downscaleRGB openText extract
    extractFloat fileExists read_json readMask is_directory directoryEntries
    supportedExtensions remove_filename uninitialised xyzInt xyzDir varsHS
    inputPath lightData HS_order removeAmbiant isRobust downscale
  = Failed (thrown out_of_range).
Proof.
  intros imageList maskName Hdir Hopen Hlines Htail Hfew Hdirs HHS Hmask Hread.
  unfold photometricStereo_folder. rewrite folder_entry_finds_no_ambiant.
  fold imageList. fold maskName. unfold loadLights. rewrite Hdir.
  unfold loadPSData.
  assert (Hint : loadLightIntensities openText extract
                   (lightData ++ "/light_intensities.txt")%string xyzInt []
                 = Done (map (fun v => mkRgb (var v 0) (var v 1) (var v 2))
                             (extracted extract xyzInt lines))).
  { unfold loadLightIntensities. rewrite Hopen. f_equal.
    rewrite (foldl_extract extract (fun v => mkRgb (var v 0) (var v 1) (var v 2))).
    rewrite linesRead_unlines, extracted_app by done. simpl.
    rewrite map_app. cbn [map]. by rewrite removelast_last. }
  rewrite Hint. cbn [obind].
  set (intList := map _ (extracted extract xyzInt lines)).
  assert (Hlen : (length intList < length imageList)%nat).
  { subst intList. rewrite length_map.
    assert (Hext : forall vars, length (extracted extract vars lines) = length lines).
    { clear. induction lines as [|line ls IH]; intros vars; simpl; [done|]. by rewrite IH. }
    by rewrite Hext. }
  assert (Hsolve : forall lightMat,
    runSolve solve readImage downscaleMask downscaleRGB fileExists readMask
      0 imageList intList lightMat maskName EmptyString isRobust downscale
    = Failed (thrown out_of_range)).
  { intros lightMat. unfold runSolve, loadMask.
    assert (exists mask, (if fileExists maskName then readMask maskName else Ok [[sofZ 1]])
                         = Ok mask) as [mask ->].
    { destruct (fileExists maskName); [by apply Hmask|by eexists]. }
    cbn [ofResult obind]. rewrite intensities_run_out; [done|done| |done].
    intros Hreq. vm_compute in Hreq. discriminate. }
  destruct (Z.eqb_spec HS_order 0) as [H0|H0].
  - unfold loadLightDirections.
    destruct (openText (lightData ++ "/light_directions.txt")%string) as [text|] eqn:Htext;
      [|by destruct (Hdirs H0)].
    cbn [obind fst snd]. apply Hsolve.
  - destruct (Z.eqb_spec HS_order 2) as [H2|H2].
    + unfold loadLightHS.
      destruct (openText (lightData ++ "/light_directions_HS.txt")%string) as [text|] eqn:Htext;
        [|by destruct (HHS H2)].
      cbn [obind fst snd]. apply Hsolve.
    + cbn [obind fst snd]. apply Hsolve.
Qed.
End UnterminatedIntensities.


Lemma unterminated_intensities_stop_the_folder_entry_witness :
  let openText (name : string) := Some "1 1 1
2 2 2
3 3 3"%string in
  let extract (line : string) (vars : list F32.t) :=
    if String.eqb line "1 1 1" then [sofZ 1; sofZ 1; sofZ 1]
    else if String.eqb line "2 2 2" then [sofZ 2; sofZ 2; sofZ 2]
    else [sofZ 3; sofZ 3; sofZ 3] in
  photometricStereo_folder Sample.solveIdentity Sample.readLitAndDark Sample.keepScale
    Sample.keepScale openText extract Scene.extractFloat Scene.absent Scene.read_json
    Scene.readMask (fun _ => true)
    (fun _ => ["c.png"; "a.png"; "b.png"]%string) [".png"%string] (fun p => p)
    Scene.zeros [] [] [] "scene" "lights" 0 false false 1
  = Failed (thrown out_of_range).
Proof.
  intros openText extract.
  apply (unterminated_intensities_stop_the_folder_entry
           Sample.solveIdentity Sample.readLitAndDark Sample.keepScale
           Sample.keepScale openText extract Scene.extractFloat Scene.absent Scene.read_json
           Scene.readMask (fun _ => true)
           (fun _ => ["c.png"; "a.png"; "b.png"]%string) [".png"%string] (fun p => p)
           Scene.zeros [] [] [] "scene" "lights" 0 false false 1
           ["1 1 1"; "2 2 2"]%string "3 3 3"%string).
  - reflexivity.
  - reflexivity.
  - repeat constructor.
  - reflexivity.
  - vm_compute. lia.
  - intros _. discriminate.
  - intros _. discriminate.
  - intros Hexists. discriminate Hexists.
  - intros p _. unfold Sample.readLitAndDark.
    destruct (String.eqb p "ambiant.png"); by eexists.
Defined.
